(** * Hierarchical App Generator: the editor core, embedded in Rocq

    The development follows the JavaScript sources class by class:

    - [CanvasEngine]     viewport transform and wheel zoom (canvas engine),
    - [Node]             the node class and its JSON form (node system),
    - [Connection]       the connection class and its JSON form,
    - [NodeSystem]       navigation stack, add and delete (node system),
    - [ConnectionSystem] the connection store and the interactive tool,
    - [StorageSystem]    import validation, the saved data and file names,
    - [HierarchicalAppGenerator] loading and deleting (main application),
    - [ClaudeIntegration] the types of generated nodes,
    - [CodeGenerator]    function names.

    JavaScript values are an inductive type; numbers are rationals, which is
    what a JSON literal denotes (no NaN, no infinities).  Objects that the
    program mutates through several references (nodes) live in a heap and are
    named by locations. *)

From Stdlib Require Import QArith Qcanon Field.
From stdpp Require Import base numbers list strings pretty.

Set Warnings "-register-all".
Open Scope Qc_scope.

(** ** JavaScript values *)

Inductive value : Type :=
| VUndef
| VNull
| VBool (b : bool)
| VNum (q : Qc)
| VStr (s : string)
| VArr (items : list value)
| VObj (fields : list (string * value)).

(** Induction over values that reaches inside arrays and objects. *)
Section value_induction.
Variable P : value -> Prop.
Hypothesis Hundef : P VUndef.
Hypothesis Hnull : P VNull.
Hypothesis Hbool : forall b, P (VBool b).
Hypothesis Hnum : forall q, P (VNum q).
Hypothesis Hstr : forall s, P (VStr s).
Hypothesis Harr : forall items, Forall P items -> P (VArr items).
Hypothesis Hobj : forall fields, Forall (fun kv => P (snd kv)) fields -> P (VObj fields).

Fixpoint value_ind_nested (v : value) : P v :=
  match v with
  | VUndef => Hundef
  | VNull => Hnull
  | VBool b => Hbool b
  | VNum q => Hnum q
  | VStr s => Hstr s
  | VArr items =>
      Harr items
        ((fix all (l : list value) : Forall P l :=
            match l with
            | [] => Forall_nil_2 P
            | x :: r => Forall_cons_2 P x r (value_ind_nested x) (all r)
            end) items)
  | VObj fields =>
      Hobj fields
        ((fix all (l : list (string * value)) : Forall (fun kv => P (snd kv)) l :=
            match l with
            | [] => Forall_nil_2 _
            | kv :: r => Forall_cons_2 _ kv r (value_ind_nested (snd kv)) (all r)
            end) fields)
  end.
End value_induction.

(** ToBoolean.  Numbers here are never NaN. *)
Definition truthy (v : value) : bool :=
  match v with
  | VUndef | VNull => false
  | VBool b => b
  | VNum q => negb (bool_decide (q = 0))
  | VStr s => negb (bool_decide (s = EmptyString))
  | VArr _ | VObj _ => true
  end.

(** [a || b] *)
Definition js_or (a b : value) : value := if truthy a then a else b.

(** Own-property lookup in an object literal: the first binding of the key. *)
Fixpoint assoc (k : string) (fields : list (string * value)) : option value :=
  match fields with
  | [] => None
  | (k', v) :: rest => if bool_decide (k' = k) then Some v else assoc k rest
  end.

(** [o.k], for the property names that this program reads from parsed JSON
    (id, name, type, x, y, children, connections, metadata, sourceId,
    targetId, label, condition, version, rootNode).  None of them is a
    property of a boolean, number, string or array, so those receivers give
    undefined; reading a property of null or undefined throws a TypeError,
    which is [None]. *)
Definition get (o : value) (k : string) : option value :=
  match o with
  | VUndef | VNull => None
  | VObj fields => Some (default VUndef (assoc k fields))
  | VBool _ | VNum _ | VStr _ | VArr _ => Some VUndef
  end.

(** [Array.isArray] *)
Definition isArray (v : value) : bool :=
  match v with VArr _ => true | _ => false end.

(** Undefined, null, booleans, numbers and strings. *)
Definition primitive (v : value) : bool :=
  match v with VArr _ | VObj _ => false | _ => true end.

(** [a === b], which is also the key comparison of a [Map] when no NaN is
    around.  Primitives are compared by content.  On arrays and objects
    JavaScript compares references; parsed JSON data carries no object
    identity here, and the comparison is by content.  The values compared
    in this program are node and connection ids, which are strings in every
    object the editor creates, and the program only compares and copies
    them. *)
Fixpoint strict_eq (a b : value) {struct a} : bool :=
  match a, b with
  | VUndef, VUndef => true
  | VNull, VNull => true
  | VBool x, VBool y => bool_decide (x = y)
  | VNum x, VNum y => bool_decide (x = y)
  | VStr x, VStr y => bool_decide (x = y)
  | VArr xs, VArr ys =>
      (fix go (l1 l2 : list value) {struct l1} : bool :=
         match l1, l2 with
         | [], [] => true
         | x :: r1, y :: r2 => strict_eq x y && go r1 r2
         | _, _ => false
         end) xs ys
  | VObj xs, VObj ys =>
      (fix go (l1 l2 : list (string * value)) {struct l1} : bool :=
         match l1, l2 with
         | [], [] => true
         | (k1, x) :: r1, (k2, y) :: r2 =>
             bool_decide (k1 = k2) && strict_eq x y && go r1 r2
         | _, _ => false
         end) xs ys
  | _, _ => false
  end.

(** Field-for-field equality of two JSON values: primitives are equal,
    arrays agree position by position, and objects have the same keys with
    field-for-field equal values, whatever the order the keys are written
    in. *)
Inductive same : value -> value -> Prop :=
| same_prim v : primitive v = true -> same v v
| same_arr l1 l2 : Forall2 same l1 l2 -> same (VArr l1) (VArr l2)
| same_obj f1 f2 :
    (forall k, option_Forall2 same (assoc k f1) (assoc k f2)) ->
    same (VObj f1) (VObj f2).

(** ** The canvas engine: viewport transform and zoom *)

Module CanvasEngine.

(** [this.viewport]: pan offset in pixels, zoom, and the zoom bounds. *)
Record viewport := Viewport {
  x : Qc;
  y : Qc;
  zoom : Qc;
  minZoom : Qc;
  maxZoom : Qc
}.

(** The viewport the constructor builds (before the canvas is centred). *)
Definition initial : viewport :=
  {| x := 0; y := 0; zoom := 1; minZoom := Q2Qc 0.1; maxZoom := Q2Qc 3 |}.

(** What [onWheel] reads from a wheel event and from the canvas rectangle. *)
Record WheelEvent := { clientX : Qc; clientY : Qc; deltaY : Qc }.
Record Rect := { left : Qc; top : Qc }.

Definition screenToWorld (vp : viewport) (screenX screenY : Qc) : Qc * Qc :=
  ((screenX - x vp) / zoom vp, (screenY - y vp) / zoom vp).

Definition worldToScreen (vp : viewport) (worldX worldY : Qc) : Qc * Qc :=
  (worldX * zoom vp + x vp, worldY * zoom vp + y vp).

(** [e.deltaY > 0 ? 0.9 : 1.1] *)
Definition zoomDelta (e : WheelEvent) : Qc :=
  if decide (0 < deltaY e) then Q2Qc 0.9 else Q2Qc 1.1.

Definition mouseX (rect : Rect) (e : WheelEvent) : Qc := clientX e - left rect.
Definition mouseY (rect : Rect) (e : WheelEvent) : Qc := clientY e - top rect.

Definition onWheel (rect : Rect) (e : WheelEvent) (vp : viewport) : viewport :=
  let worldBefore := screenToWorld vp (mouseX rect e) (mouseY rect e) in
  let newZoom := zoom vp * zoomDelta e in
  if decide (minZoom vp <= newZoom /\ newZoom <= maxZoom vp) then
    let vp1 := Viewport (x vp) (y vp) newZoom (minZoom vp) (maxZoom vp) in
    let worldAfter := screenToWorld vp1 (mouseX rect e) (mouseY rect e) in
    Viewport
      (x vp1 + (fst worldAfter - fst worldBefore) * zoom vp1)
      (y vp1 + (snd worldAfter - snd worldBefore) * zoom vp1)
      (zoom vp1) (minZoom vp1) (maxZoom vp1)
  else vp.

(** The wheel step is applied: the new zoom lies within the bounds. *)
Definition accepted (e : WheelEvent) (vp : viewport) : Prop :=
  minZoom vp <= zoom vp * zoomDelta e /\ zoom vp * zoomDelta e <= maxZoom vp.

(** What the mouse handlers read from a mouse event. *)
Module MouseEvent.
Record t := Make { clientX : Qc; clientY : Qc }.
End MouseEvent.

(** The fields of the engine that its handlers write: the viewport and
    the interaction state. *)
Record Engine := {
  this_viewport : viewport;
  isDragging : bool;
  dragStart : Qc * Qc;
  lastMousePos : Qc * Qc
}.

(** The fields the constructor sets. *)
Definition new : Engine := Build_Engine initial false (0, 0) (0, 0).

(** [onMouseDown(e)].  [handleCanvasClick] is the handler of the
    application, when one is installed: it is given the world position of
    the click, answers whether it handled it, and may have changed the
    engine by then (a double click on a node with children resets the
    view). *)
Definition onMouseDown (handleCanvasClick : option (Qc -> Qc -> Engine -> bool * Engine))
    (rect : Rect) (e : MouseEvent.t) (s : Engine) : Engine :=
  let mouseX := MouseEvent.clientX e - left rect in
  let mouseY := MouseEvent.clientY e - top rect in
  let worldPos := screenToWorld (this_viewport s) mouseX mouseY in
  let start_panning s :=
    Build_Engine (this_viewport s) true (mouseX, mouseY) (mouseX, mouseY) in
  match handleCanvasClick with
  | Some handler =>
      let (handled, s') := handler (fst worldPos) (snd worldPos) s in
      if handled then s' else start_panning s'
  | None => start_panning s
  end.

(** [onMouseMove(e)].  While dragging the viewport follows the mouse.
    The calls into the application ([render], and [handleCanvasHover] when
    not dragging) draw and write the application's own state; they write
    no field of the engine. *)
Definition onMouseMove (rect : Rect) (e : MouseEvent.t) (s : Engine) : Engine :=
  let mouseX := MouseEvent.clientX e - left rect in
  let mouseY := MouseEvent.clientY e - top rect in
  if isDragging s then
    let dx := mouseX - fst (lastMousePos s) in
    let dy := mouseY - snd (lastMousePos s) in
    let vp := this_viewport s in
    Build_Engine
      (Viewport (x vp + dx) (y vp + dy) (zoom vp) (minZoom vp) (maxZoom vp))
      (isDragging s) (dragStart s) (mouseX, mouseY)
  else s.

Definition onMouseUp (s : Engine) : Engine :=
  Build_Engine (this_viewport s) false (dragStart s) (lastMousePos s).

(** [resetView()], on a canvas of the given width and height. *)
Definition resetView (canvas_width canvas_height : Qc) (vp : viewport) : viewport :=
  Viewport (canvas_width / Q2Qc 2) (canvas_height / Q2Qc 2) 1 (minZoom vp) (maxZoom vp).

End CanvasEngine.

(** ** Class instances *)

(** A reference to a node object. *)
Abbreviation loc := nat.

Module NodeFields.

(** The fields of a [Node].  [R] is what the [children] array holds:
    locations for nodes in the heap, subtrees for a node that nothing else
    refers to yet (the result of [fromJSON], the argument of [toJSON]). *)
Record t (R : Type) := Make {
  id : value;
  name : value;
  type : value;
  x : value;
  y : value;
  children : list R;
  connections : value;
  metadata : value
}.
Arguments Make {R}.
Arguments id {R}.
Arguments name {R}.
Arguments type {R}.
Arguments x {R}.
Arguments y {R}.
Arguments children {R}.
Arguments connections {R}.
Arguments metadata {R}.

(** A node with the nodes below it. *)
Inductive tree : Type := Tree (node : t tree).

Definition node_of (n : tree) : t tree := match n with Tree node => node end.

Definition set_children {R S} (n : t R) (cs : list S) : t S :=
  Make (id n) (name n) (type n) (x n) (y n) cs (connections n) (metadata n).

Definition set_connections {R} (n : t R) (v : value) : t R :=
  Make (id n) (name n) (type n) (x n) (y n) (children n) v (metadata n).

Definition set_metadata {R} (n : t R) (v : value) : t R :=
  Make (id n) (name n) (type n) (x n) (y n) (children n) (connections n) v.

End NodeFields.

Module ConnectionFields.

(** The fields of a [Connection]. *)
Record t := Make {
  id : value;
  sourceId : value;
  targetId : value;
  type : value;
  label : value;
  condition : value;
  metadata : value
}.

End ConnectionFields.

(** [NodeSystem]'s navigation fields; [null] is [None]. *)
Record NodeSystemState := {
  rootNode : option loc;
  currentNode : option loc;
  navigationStack : list loc;
  selectedNode : option loc;
  hoveredNode : option loc
}.

(** [ConnectionSystem]'s fields.  [connections] is the [Map] from a source
    id to the array of connections leaving it, in insertion order. *)
Record ConnectionSystemState := {
  connections : list (value * list ConnectionFields.t);
  isConnecting : bool;
  connectionStart : option loc;
  tempConnectionEnd : option (value * value)
}.

(** ** The world the editor runs in *)

(** What the program takes from outside: the [k]-th call of [generateId()]
    (a helper of utils.js, which gives globally unique strings) returns
    [generateId k], and the [k]-th reading of [Date.now()] returns [now k]. *)
Record Env := { generateId : nat -> value; now : nat -> Qc }.

Record World := {
  heap : list (NodeFields.t loc);
  ids : nat;
  ticks : nat;
  notifications : list (string * string);
  nodeSystem : NodeSystemState;
  connectionSystem : ConnectionSystemState
}.

Definition set_heap (h : list (NodeFields.t loc)) (w : World) : World :=
  Build_World h (ids w) (ticks w) (notifications w) (nodeSystem w) (connectionSystem w).
Definition set_ids (n : nat) (w : World) : World :=
  Build_World (heap w) n (ticks w) (notifications w) (nodeSystem w) (connectionSystem w).
Definition set_ticks (n : nat) (w : World) : World :=
  Build_World (heap w) (ids w) n (notifications w) (nodeSystem w) (connectionSystem w).
Definition set_notifications (l : list (string * string)) (w : World) : World :=
  Build_World (heap w) (ids w) (ticks w) l (nodeSystem w) (connectionSystem w).
Definition set_nodeSystem (s : NodeSystemState) (w : World) : World :=
  Build_World (heap w) (ids w) (ticks w) (notifications w) s (connectionSystem w).
Definition set_connectionSystem (s : ConnectionSystemState) (w : World) : World :=
  Build_World (heap w) (ids w) (ticks w) (notifications w) (nodeSystem w) s.

(** A call returns a value and a new world, or throws (a TypeError) in the
    world it has reached by then. *)
Inductive outcome (A : Type) : Type :=
| Ok (a : A) (w : World)
| Throw (w : World).
Arguments Ok {A}.
Arguments Throw {A}.

Definition M (A : Type) : Type := World -> outcome A.

Definition ret {A} (a : A) : M A := fun w => Ok a w.

Definition bind {A B} (m : M A) (k : A -> M B) : M B :=
  fun w => match m w with Ok a w' => k a w' | Throw w' => Throw w' end.

Definition throw {A} : M A := fun w => Throw w.

Notation "'let*' x ':=' m 'in' k" := (bind m (fun x => k))
  (at level 10, x name, m at level 100, k at level 200).

Definition read_world {A} (f : World -> A) : M A := fun w => Ok (f w) w.
Definition modify (f : World -> World) : M unit := fun w => Ok tt (f w).
Definition lift {A} (o : option A) : M A :=
  match o with Some a => ret a | None => throw end.

Fixpoint mapM {A B} (f : A -> M B) (l : list A) : M (list B) :=
  match l with
  | [] => ret []
  | a :: r => let* b := f a in let* bs := mapM f r in ret (b :: bs)
  end.

(** [l.forEach(f)] *)
Fixpoint forEach {A} (f : A -> M unit) (l : list A) : M unit :=
  match l with
  | [] => ret tt
  | a :: r => let* _ := f a in forEach f r
  end.

(** The world a call ends in. *)
Definition world_after {A} (m : M A) (w : World) : World :=
  match m w with Ok _ w' => w' | Throw w' => w' end.

(** [o.k] *)
Definition read (o : value) (k : string) : M value := lift (get o k).

(** A node object behind a reference.  Every reference the program holds
    is to an object of the heap; a location outside the heap has no meaning
    and stops the call. *)
Definition deref (l : loc) : M (NodeFields.t loc) :=
  fun w => match heap w !! l with Some n => Ok n w | None => Throw w end.

Definition alloc (n : NodeFields.t loc) : M loc :=
  fun w => Ok (length (heap w)) (set_heap (heap w ++ [n]) w).

Definition assign (l : loc) (n : NodeFields.t loc) : M unit :=
  modify (fun w => set_heap (<[l := n]> (heap w)) w).

(** Modelled from the spec: [showNotification(message, kind)], a helper of
    utils.js, is the notification sink; it displays a message and has no
    other effect.  The messages shown are kept in a log. *)
Definition showNotification (message kind : string) : M unit :=
  modify (fun w => set_notifications (notifications w ++ [(message, kind)]) w).

Section Oracles.
Context (E : Env).

Definition callGenerateId : M value :=
  fun w => Ok (generateId E (ids w)) (set_ids (S (ids w)) w).

(** [Date.now()] *)
Definition Date_now : M value :=
  fun w => Ok (VNum (now E (ticks w))) (set_ticks (S (ticks w)) w).

End Oracles.

(** A parameter left out of a call is undefined and takes its default. *)
Definition default_arg (a d : value) : value :=
  match a with VUndef => d | _ => a end.

(** [arr.push(v)]; only an array has a [push] to call. *)
Definition array_push (arr v : value) : option value :=
  match arr with VArr items => Some (VArr (items ++ [v])) | _ => None end.

(** The fields of an object after [o.k = v]: the key keeps its place, a new
    key goes last. *)
Fixpoint set_field (k : string) (v : value) (fields : list (string * value))
  : list (string * value) :=
  match fields with
  | [] => [(k, v)]
  | (k', v') :: rest =>
      if bool_decide (k' = k) then (k, v) :: rest else (k', v') :: set_field k v rest
  end.

(** [o.k = v] in strict code (a class body): a TypeError on null, undefined
    and on a boolean, number or string.  An array keeps its elements; a
    named property set on it is no part of its JSON form and is not
    recorded. *)
Definition set_prop (o : value) (k : string) (v : value) : option value :=
  match o with
  | VObj fields => Some (VObj (set_field k v fields))
  | VArr items => Some (VArr items)
  | _ => None
  end.

(** ** class Node *)

Module Node.
Include NodeFields.

Section Methods.
Context (E : Env).

(** [new Node(name, type = 'domain', x = 0, y = 0)] *)
Definition new {R} (name type x y : value) : M (t R) :=
  let* id := callGenerateId E in
  let* createdAt := Date_now E in
  let* modifiedAt := Date_now E in
  ret (Make id name
         (default_arg type (VStr "domain"))
         (default_arg x (VNum 0))
         (default_arg y (VNum 0))
         []
         (VArr [])
         (VObj [("description", VStr EmptyString); ("code", VStr EmptyString);
                ("createdAt", createdAt); ("modifiedAt", modifiedAt)])).

(** [addChild(node)], on the node at [this]. *)
Definition addChild (this : loc) (node : loc) : M unit :=
  let* self := deref this in
  let* _ := assign this (set_children self (children self ++ [node])) in
  let* self := deref this in
  let* modifiedAt := Date_now E in
  let* metadata := lift (set_prop (metadata self) "modifiedAt" modifiedAt) in
  assign this (set_metadata self metadata).

(** [this.children.findIndex(n => n.id === nodeId)]; [None] is [-1]. *)
Fixpoint findIndex (nodeId : value) (cs : list loc) (i : nat) : M (option nat) :=
  match cs with
  | [] => ret None
  | c :: rest =>
      let* n := deref c in
      if strict_eq (id n) nodeId then ret (Some i) else findIndex nodeId rest (S i)
  end.

(** [removeChild(nodeId)], on the node at [this]. *)
Definition removeChild (this : loc) (nodeId : value) : M bool :=
  let* self := deref this in
  let* index := findIndex nodeId (children self) 0 in
  match index with
  | Some i =>
      let* _ := assign this (set_children self (delete i (children self))) in
      let* self := deref this in
      let* modifiedAt := Date_now E in
      let* metadata := lift (set_prop (metadata self) "modifiedAt" modifiedAt) in
      let* _ := assign this (set_metadata self metadata) in
      ret true
  | None => ret false
  end.

(** [findChildById(nodeId)]: the first child with that id, or undefined. *)
Fixpoint find_child (nodeId : value) (cs : list loc) : M (option loc) :=
  match cs with
  | [] => ret None
  | c :: rest =>
      let* n := deref c in
      if strict_eq (id n) nodeId then ret (Some c) else find_child nodeId rest
  end.

Definition findChildById (this : loc) (nodeId : value) : M (option loc) :=
  let* self := deref this in find_child nodeId (children self).

(** [hasChildren()] *)
Definition hasChildren (this : loc) : M bool :=
  let* self := deref this in ret (bool_decide (0 < length (children self))%nat).

(** [toJSON()], of a node and the nodes below it. *)
Fixpoint toJSON (n : tree) : value :=
  match n with
  | Tree node =>
      VObj [("id", id node); ("name", name node); ("type", type node);
            ("x", x node); ("y", y node);
            ("children", VArr (map toJSON (children node)));
            ("connections", connections node);
            ("metadata", metadata node)]
  end.

(** [v.map(f)] for a JSON value [v]: only an array has a [map] to call. *)
Definition array_map {A} (f : value -> M A) (v : value) : M (list A) :=
  match v with VArr items => mapM f items | _ => throw end.

(** The first binding of [k] among computations listed by key. *)
Fixpoint select {A} (k : string) (l : list (string * M A)) : M A :=
  match l with
  | [] => throw
  | (k', m) :: rest => if bool_decide (k' = k) then m else select k rest
  end.

(** [Node.fromJSON(data)].  The recursive calls of
    [data.children.map(c => Node.fromJSON(c))] are laid out over the fields
    of [data], which keeps the recursion structural; the call for the field
    [children] is the one that runs ([fromJSON_unfold] below states the
    function as the source writes it). *)
Fixpoint fromJSON (data : value) {struct data} : M tree :=
  let* dname := read data "name" in
  let* dtype := read data "type" in
  let* dx := read data "x" in
  let* dy := read data "y" in
  let* node := new dname dtype dx dy in
  let* did := read data "id" in
  let node := Make did (name node) (type node) (x node) (y node)
                (children node) (connections node) (metadata node) in
  let* dconnections := read data "connections" in
  let node := set_connections node (js_or dconnections (VArr [])) in
  let* dmetadata := read data "metadata" in
  let node := set_metadata node (js_or dmetadata (metadata node)) in
  let* dchildren := read data "children" in
  if truthy dchildren then
    let* cs :=
      match data with
      | VObj fields =>
          select "children"
            (map (fun kv => (fst kv, array_map fromJSON (snd kv))) fields)
      | _ => throw
      end in
    ret (Tree (set_children node cs))
  else ret (Tree node).

End Methods.
End Node.

(** ** class Connection *)

Module Connection.
Include ConnectionFields.

Section Methods.
Context (E : Env).

(** [new Connection(sourceId, targetId)] *)
Definition new (sourceId targetId : value) : M t :=
  let* id := callGenerateId E in
  let* createdAt := Date_now E in
  ret (Make id sourceId targetId (VStr "normal") (VStr EmptyString) VNull
         (VObj [("createdAt", createdAt)])).

Definition toJSON (this : t) : value :=
  VObj [("id", id this); ("sourceId", sourceId this); ("targetId", targetId this);
        ("type", type this); ("label", label this);
        ("condition", condition this); ("metadata", metadata this)].

Definition fromJSON (data : value) : M t :=
  let* dsourceId := read data "sourceId" in
  let* dtargetId := read data "targetId" in
  let* conn := new dsourceId dtargetId in
  let* did := read data "id" in
  let* dtype := read data "type" in
  let* dlabel := read data "label" in
  let* dcondition := read data "condition" in
  let* dmetadata := read data "metadata" in
  ret (Make did (sourceId conn) (targetId conn)
         (js_or dtype (VStr "normal"))
         (js_or dlabel (VStr EmptyString))
         (js_or dcondition VNull)
         (js_or dmetadata (metadata conn))).

End Methods.
End Connection.

(** ** class NodeSystem *)

Module NodeSystem.

Definition get_state : M NodeSystemState := read_world nodeSystem.
Definition put_state (s : NodeSystemState) : M unit := modify (set_nodeSystem s).

(** [this.navigationStack[this.navigationStack.length - 1]]; an empty
    stack gives undefined, which no caller tells apart from null. *)
Definition stack_top (stack : list loc) : option loc := last stack.

Section Methods.
Context (E : Env).

(** The state the constructor builds. *)
Definition initial : NodeSystemState :=
  Build_NodeSystemState None None [] None None.

(** [initialize(domainName = 'My Application')] *)
Definition initialize (domainName : value) : M unit :=
  let* node := Node.new E (default_arg domainName (VStr "My Application"))
                 (VStr "domain") (VNum 0) (VNum 0) in
  let* root := alloc node in
  let* s := get_state in
  put_state (Build_NodeSystemState (Some root) (Some root) [root]
               (selectedNode s) (hoveredNode s)).

Definition getCurrentNode : M (option loc) :=
  let* s := get_state in ret (currentNode s).

(** [navigateToNode(node)]; [node] is a node or null. *)
Definition navigateToNode (node : option loc) : M bool :=
  match node with
  | Some n =>
      let* has := Node.hasChildren n in
      if has then
        let* s := get_state in
        let* _ := put_state (Build_NodeSystemState (rootNode s) (Some n)
                               (navigationStack s ++ [n]) None (hoveredNode s)) in
        ret true
      else ret false
  | None => ret false
  end.

Definition navigateBack : M bool :=
  let* s := get_state in
  if bool_decide (1 < length (navigationStack s))%nat then
    let stack := removelast (navigationStack s) in
    let* _ := put_state (Build_NodeSystemState (rootNode s) (stack_top stack)
                           stack None (hoveredNode s)) in
    ret true
  else ret false.

(** [navigateToStackIndex(index)], for an integer index. *)
Definition navigateToStackIndex (index : Z) : M bool :=
  let* s := get_state in
  if bool_decide (0 <= index /\ index < Z.of_nat (length (navigationStack s)))%Z then
    let stack := take (Z.to_nat (index + 1)) (navigationStack s) in
    let* _ := put_state (Build_NodeSystemState (rootNode s) (stack_top stack)
                           stack None (hoveredNode s)) in
    ret true
  else ret false.

(** [addNode(name, type, x = 0, y = 0)]; [this.currentNode.addChild] throws
    when there is no current node. *)
Definition addNode (name type x y : value) : M loc :=
  let* node := Node.new E name type (default_arg x (VNum 0)) (default_arg y (VNum 0)) in
  let* l := alloc node in
  let* s := get_state in
  let* cur := lift (currentNode s) in
  let* _ := Node.addChild E cur l in
  ret l.

Definition deleteNode (nodeId : value) : M bool :=
  let* s := get_state in
  match currentNode s with
  | Some cur => Node.removeChild E cur nodeId
  | None => ret false
  end.

(** [this.nodeRadius] *)
Definition nodeRadius : value := VNum (Q2Qc 60).

(** The loop of [hitTestNode], over the children from the last to the
    first. *)
Fixpoint hit_test (hit : Node.t loc -> bool) (nodes_from_last : list loc)
  : M (option loc) :=
  match nodes_from_last with
  | [] => ret None
  | c :: rest =>
      let* node := deref c in
      if hit node then ret (Some c) else hit_test hit rest
  end.

(** [hitTestNode(worldX, worldY)].  [isPointInCircle] is the helper of
    utils.js, taken as a parameter; [this.currentNode.children] throws
    when there is no current node. *)
Definition hitTestNode (isPointInCircle : value -> value -> value -> value -> value -> bool)
    (worldX worldY : value) : M (option loc) :=
  let* s := get_state in
  let* cur := lift (currentNode s) in
  let* self := deref cur in
  hit_test (fun node => isPointInCircle worldX worldY (Node.x node) (Node.y node) nodeRadius)
    (rev (Node.children self)).

(** All of the options, or none. *)
Fixpoint all_some {A} (l : list (option A)) : option (list A) :=
  match l with
  | [] => Some []
  | o :: rest =>
      match o, all_some rest with
      | Some a, Some r => Some (a :: r)
      | _, _ => None
      end
  end.

(** The node object at [l] with the objects below it, as [toJSON] walks
    them.  [fuel] bounds the depth of the walk. *)
Fixpoint tree_at (fuel : nat) (h : list (Node.t loc)) (l : loc) : option Node.tree :=
  match fuel with
  | O => None
  | S fuel =>
      match h !! l with
      | Some n =>
          match all_some (map (tree_at fuel h) (Node.children n)) with
          | Some cs => Some (Node.Tree (Node.set_children n cs))
          | None => None
          end
      | None => None
      end
  end.

(** [exportToJSON()].  A walk that [fuel] cuts short stops the call, as a
    cycle among the children stops it in the source (the recursion of
    [toJSON] does not return). *)
Definition exportToJSON (fuel : nat) : M value :=
  let* s := get_state in
  match rootNode s with
  | Some root =>
      let* h := read_world heap in
      let* t := lift (tree_at fuel h root) in
      ret (Node.toJSON t)
  | None => ret VNull
  end.

(** The node objects that [Node.fromJSON] made, as objects of the heap:
    every node after the nodes below it. *)
Fixpoint alloc_tree (t : Node.tree) : M loc :=
  match t with
  | Node.Tree node =>
      let* cs := mapM alloc_tree (Node.children node) in
      alloc (Node.set_children node cs)
  end.

(** [importFromJSON(data)] *)
Definition importFromJSON (data : value) : M bool :=
  if truthy data then
    let* t := Node.fromJSON E data in
    let* root := alloc_tree t in
    let* s := get_state in
    let* _ := put_state (Build_NodeSystemState (Some root) (Some root) [root] None
                           (hoveredNode s)) in
    ret true
  else ret false.

End Methods.
End NodeSystem.

(** ** A JavaScript [Map] keyed by values

    The entries are kept in insertion order; keys are compared as [Map]
    compares them. *)

Module JsMap.
Section Ops.
Context {V : Type}.

Fixpoint get (k : value) (m : list (value * V)) : option V :=
  match m with
  | [] => None
  | (k', v) :: rest => if strict_eq k' k then Some v else get k rest
  end.

Definition has (k : value) (m : list (value * V)) : bool :=
  match get k m with Some _ => true | None => false end.

(** [set]: an existing key keeps its place, a new key goes last. *)
Fixpoint set (k : value) (v : V) (m : list (value * V)) : list (value * V) :=
  match m with
  | [] => [(k, v)]
  | (k', v') :: rest =>
      if strict_eq k' k then (k', v) :: rest else (k', v') :: set k v rest
  end.

Fixpoint remove (k : value) (m : list (value * V)) : list (value * V) :=
  match m with
  | [] => []
  | (k', v') :: rest =>
      if strict_eq k' k then rest else (k', v') :: remove k rest
  end.

Definition keys (m : list (value * V)) : list value := map fst m.

End Ops.
End JsMap.

(** ** class ConnectionSystem *)

Module ConnectionSystem.

Definition get_state : M ConnectionSystemState := read_world connectionSystem.
Definition put_state (s : ConnectionSystemState) : M unit :=
  modify (set_connectionSystem s).

(** The state the constructor builds. *)
Definition initial : ConnectionSystemState :=
  Build_ConnectionSystemState [] false None None.

Definition set_connections (m : list (value * list Connection.t)) : M unit :=
  let* s := get_state in
  put_state (Build_ConnectionSystemState m (isConnecting s) (connectionStart s)
               (tempConnectionEnd s)).

(** [node.id], through a reference. *)
Definition id_of (node : loc) : M value :=
  let* n := deref node in ret (Node.id n).

(** [node.connections.push(id)], through a reference. *)
Definition push_connection (node : loc) (id : value) : M unit :=
  let* n := deref node in
  let* arr := lift (array_push (Node.connections n) id) in
  assign node (Node.set_connections n arr).

Definition startConnection (sourceNode : option loc) : M unit :=
  let* s := get_state in
  put_state (Build_ConnectionSystemState (connections s) true sourceNode None).

Definition updateTempConnection (worldX worldY : value) : M unit :=
  let* s := get_state in
  if isConnecting s then
    put_state (Build_ConnectionSystemState (connections s) (isConnecting s)
                 (connectionStart s) (Some (worldX, worldY)))
  else ret tt.

Definition cancelConnection : M unit :=
  let* s := get_state in
  put_state (Build_ConnectionSystemState (connections s) false None None).

Definition connectionExists (sourceId targetId : value) : M bool :=
  let* s := get_state in
  match JsMap.get sourceId (connections s) with
  | Some sourceConnections =>
      ret (existsb (fun conn => strict_eq (Connection.targetId conn) targetId)
             sourceConnections)
  | None => ret false
  end.

Definition getNodeConnections (nodeId : value) : M (list Connection.t) :=
  let* s := get_state in
  ret (default [] (JsMap.get nodeId (connections s))).

(** [this.connections.get(key).push(conn)], after the bucket was made. *)
Definition push_to_bucket (key : value) (conn : Connection.t) : M unit :=
  let* s := get_state in
  let* _ := (if JsMap.has key (connections s) then ret tt
             else set_connections (JsMap.set key [] (connections s))) in
  let* s := get_state in
  let* bucket := lift (JsMap.get key (connections s)) in
  set_connections (JsMap.set key (bucket ++ [conn]) (connections s)).

Section Methods.
Context (E : Env).

(** [finishConnection(targetNode)]; [targetNode] is a node or null.  The
    result is the new connection, or null. *)
Definition finishConnection (targetNode : option loc) : M (option Connection.t) :=
  let* s := get_state in
  match isConnecting s, connectionStart s, targetNode with
  | true, Some start, Some target =>
      let* startId := id_of start in
      let* targetId := id_of target in
      if strict_eq startId targetId then
        let* _ := cancelConnection in ret None
      else
        let* startId := id_of start in
        let* targetId := id_of target in
        let* dup := connectionExists startId targetId in
        if dup then
          let* _ := showNotification "Connection already exists" "error" in
          let* _ := cancelConnection in
          ret None
        else
          let* startId := id_of start in
          let* targetId := id_of target in
          let* connection := Connection.new E startId targetId in
          let* startId := id_of start in
          let* _ := push_to_bucket startId connection in
          let* _ := push_connection start (Connection.id connection) in
          let* _ := push_connection target (Connection.id connection) in
          let* _ := cancelConnection in
          ret (Some connection)
  | _, _, _ =>
      let* _ := cancelConnection in ret None
  end.

(** [importFromJSON(data)] *)
Definition importFromJSON (data : value) : M unit :=
  let* _ := set_connections [] in
  if truthy data && isArray data then
    match data with
    | VArr items =>
        forEach (fun connData =>
                   let* conn := Connection.fromJSON E connData in
                   push_to_bucket (Connection.sourceId conn) conn)
          items
    | _ => ret tt
    end
  else ret tt.

End Methods.

(** Every connection the store holds, bucket after bucket. *)
Definition all_connections (m : list (value * list Connection.t)) : list Connection.t :=
  concat (map snd m).

(** A JavaScript [Set] of values: its elements in insertion order. *)
Definition Set_has (s : list value) (v : value) : bool :=
  existsb (fun u => strict_eq u v) s.

Definition Set_add (s : list value) (v : value) : list value :=
  if Set_has s v then s else s ++ [v].

(** [new Set(l)] *)
Definition Set_of (l : list value) : list value := fold_left Set_add l [].

(** [conns.find(c => c.id === connectionId)] in the first bucket, in
    iteration order, that has one. *)
Fixpoint find_by_id (connectionId : value) (m : list (value * list Connection.t))
  : option Connection.t :=
  match m with
  | [] => None
  | (_, conns) :: rest =>
      match List.find (fun c => strict_eq (Connection.id c) connectionId) conns with
      | Some found => Some found
      | None => find_by_id connectionId rest
      end
  end.

Definition findConnectionById (connectionId : value) : M (option Connection.t) :=
  let* s := get_state in ret (find_by_id connectionId (connections s)).

(** [conns.findIndex(c => c.id === connectionId)]; [None] is [-1]. *)
Fixpoint findIndex (connectionId : value) (conns : list Connection.t) (i : nat)
  : option nat :=
  match conns with
  | [] => None
  | c :: rest =>
      if strict_eq (Connection.id c) connectionId then Some i
      else findIndex connectionId rest (S i)
  end.

(** The first entry of the map, in iteration order, whose array has a
    connection with the id: the position of the entry, its key, its array
    and the index found in the array. *)
Fixpoint entry_with_id (connectionId : value) (m : list (value * list Connection.t))
    (j : nat) : option (nat * value * list Connection.t * nat) :=
  match m with
  | [] => None
  | (nodeId, conns) :: rest =>
      match findIndex connectionId conns 0 with
      | Some index => Some (j, nodeId, conns, index)
      | None => entry_with_id connectionId rest (S j)
      end
  end.

(** [deleteConnection(connectionId)]: [splice] takes the connection out of
    its array, and an array left empty is deleted from the map by its
    key. *)
Definition deleteConnection (connectionId : value) : M bool :=
  let* s := get_state in
  match entry_with_id connectionId (connections s) 0 with
  | Some (j, nodeId, conns, index) =>
      let conns' := delete index conns in
      let* _ := set_connections (<[j := (nodeId, conns')]> (connections s)) in
      let* _ := (if bool_decide (length conns' = 0%nat) then
                   let* s := get_state in
                   set_connections (JsMap.remove nodeId (connections s))
                 else ret tt) in
      ret true
  | None => ret false
  end.

(** [getConnectionsForLevel(currentNode)]; [currentNode] is a node or
    null. *)
Definition getConnectionsForLevel (currentNode : option loc) : M (list Connection.t) :=
  match currentNode with
  | None => ret []
  | Some cur =>
      let* self := deref cur in
      let* ids := mapM id_of (Node.children self) in
      let childIds := Set_of ids in
      let* self := deref cur in
      let* found :=
        mapM (fun node =>
                let* nodeId := id_of node in
                let* connections := getNodeConnections nodeId in
                ret (List.filter (fun conn => Set_has childIds (Connection.targetId conn))
                       connections))
          (Node.children self) in
      ret (concat found)
  end.

(** [exportToJSON()] *)
Definition exportToJSON : M value :=
  let* s := get_state in
  ret (VArr (map Connection.toJSON (concat (map snd (connections s))))).

(** [clearLevel(currentNode)] *)
Definition clearLevel (currentNode : option loc) : M unit :=
  match currentNode with
  | None => ret tt
  | Some cur =>
      let* self := deref cur in
      let* ids := mapM id_of (Node.children self) in
      forEach (fun nodeId =>
                 let* s := get_state in
                 set_connections (JsMap.remove nodeId (connections s)))
        (Set_of ids)
  end.

End ConnectionSystem.

(** ** class StorageSystem *)

Module StorageSystem.

(** [a && b], where reading [b] may throw and is not done when [a] is falsy. *)
Definition js_and (a : option value) (b : option value) : option value :=
  match a with
  | Some va => if truthy va then b else Some va
  | None => None
  end.

(** [validateImportData(data)]; the result is the operand that decided. *)
Definition validateImportData (data : value) : option value :=
  js_and (js_and (js_and (js_and (Some data)
    (get data "version"))
    (get data "rootNode"))
    (rootNode ← get data "rootNode"; get rootNode "id"))
    (rootNode ← get data "rootNode"; get rootNode "name").

(** The function [importFromFile(callback)] hands to [importJSON], applied
    to the parsed file [data]. *)
Definition onImport (callback : value -> M unit) (data : value) : M unit :=
  let* ok := lift (validateImportData data) in
  if truthy ok then callback data
  else showNotification "Invalid file format" "error".

(** [importFromFile(callback)].  [importJSON] is a helper of utils.js: it
    reads a file chosen by the user and passes the parsed content to the
    function it is given. *)
Definition importFromFile (importJSON : (value -> M unit) -> M unit)
    (callback : value -> M unit) : M unit :=
  importJSON (onImport callback).

(** A code unit that [/[a-z0-9]/i] and [/[a-zA-Z0-9]/] match: an ASCII
    letter or digit.  (Without the [u] flag, ignoring case never takes a
    code unit outside ASCII for an ASCII letter.) *)
Definition alphanumeric (c : Ascii.ascii) : bool :=
  let n := Ascii.nat_of_ascii c in
  ((48 <=? n) && (n <=? 57) || (65 <=? n) && (n <=? 90) || (97 <=? n) && (n <=? 122))%nat.

(** [toLowerCase] on a code unit below 256: the capital letters of ASCII
    and of Latin-1 have their small letter 32 places on. *)
Definition toLowerCase_unit (c : Ascii.ascii) : Ascii.ascii :=
  let n := Ascii.nat_of_ascii c in
  if ((65 <=? n) && (n <=? 90) || (192 <=? n) && (n <=? 214)
      || (216 <=? n) && (n <=? 222))%nat
  then Ascii.ascii_of_nat (n + 32) else c.

(** The code unit of ['_']. *)
Definition underscore : Ascii.ascii := Ascii.ascii_of_nat 95.

(** A string, code unit by code unit. *)
Fixpoint map_units (f : Ascii.ascii -> Ascii.ascii) (s : string) : string :=
  match s with
  | EmptyString => EmptyString
  | String c rest => String (f c) (map_units f rest)
  end.

(** [s.replace(/[^a-z0-9]/gi, '_')] and [s.replace(/[^a-zA-Z0-9]/g, '_')] *)
Definition replace_non_alphanumeric (s : string) : string :=
  map_units (fun c => if alphanumeric c then c else underscore) s.

(** [sanitizeFilename(name)], for a string of code units below 256; a
    value that is no string has no [replace] to call. *)
Definition sanitizeFilename (name : value) : option string :=
  match name with
  | VStr s => Some (map_units toLowerCase_unit (replace_non_alphanumeric s))
  | _ => None
  end.

(** The data object that [save] and [exportToFile] build, field by field
    in the order of the object literal; [stamp] is the key of the time
    stamp, [savedAt] or [exportedAt].  ([save] hands it to
    [JSON.stringify] and the local storage, [exportToFile] to
    [downloadJSON].) *)
Definition data_object (E : Env) (stamp : string) (fuel : nat) : M value :=
  let* stamped := Date_now E in
  let* root_json := NodeSystem.exportToJSON fuel in
  let* connections_json := ConnectionSystem.exportToJSON in
  let* s := NodeSystem.get_state in
  let* name := match rootNode s with
               | Some root => let* node := deref root in ret (Node.name node)
               | None => ret VUndef
               end in
  ret (VObj [("version", VStr "1.0"); (stamp, stamped); ("rootNode", root_json);
             ("connections", connections_json);
             ("metadata", VObj [("appName", js_or name (VStr "Untitled App"))])]).

End StorageSystem.

(** ** class HierarchicalAppGenerator *)

Module HierarchicalAppGenerator.

(** [loadFromStorage()], given what [storage.load()] returned: the parsed
    data, or null.  [draw] is what runs between the two imports and the
    notification, [this.updateBreadcrumb(); this.canvasEngine.resetView();
    this.render();].  These calls write the page and the canvas, and they
    can throw: [render] of the node system reads
    [this.currentNode.children], and [renderNode] calls [node.type.charAt].
    They are a parameter here, so that what is proved of [loadFromStorage]
    holds whatever the drawing does. *)
Definition loadFromStorage (E : Env) (draw : M unit) (data : value) : M unit :=
  if truthy data then
    let* root_json := read data "rootNode" in
    let* _ := NodeSystem.importFromJSON E root_json in
    let* connections_json := read data "connections" in
    let* _ := ConnectionSystem.importFromJSON E connections_json in
    let* _ := draw in
    showNotification "Loaded successfully" "success"
  else showNotification "No saved data found" "error".

(** [deleteCurrentNode()]; closing the panel and drawing are left out. *)
Definition deleteCurrentNode (E : Env) : M unit :=
  let* s := NodeSystem.get_state in
  match selectedNode s with
  | Some node =>
      let* n := deref node in
      let* deleted := NodeSystem.deleteNode E (Node.id n) in
      if deleted then
        let* s := NodeSystem.get_state in
        let* _ := NodeSystem.put_state
                    (Build_NodeSystemState (rootNode s) (currentNode s) (navigationStack s)
                       None (hoveredNode s)) in
        showNotification "Node deleted" "success"
      else ret tt
  | None => ret tt
  end.

End HierarchicalAppGenerator.

(** ** class ClaudeIntegration *)

Module ClaudeIntegration.

Definition validTypes : list value :=
  [VStr "domain"; VStr "process"; VStr "logic"; VStr "code"].

(** The table of [validateNodeType]: the type a child takes by default
    under a parent of each type. *)
Definition defaults : list (string * value) :=
  [("domain", VStr "process"); ("process", VStr "logic");
   ("logic", VStr "code"); ("code", VStr "code")].

(** The property names that an object literal inherits from
    [Object.prototype]; reading one of them from the table gives a
    function or the prototype, not undefined. *)
Definition inherited : list string :=
  ["constructor"; "hasOwnProperty"; "isPrototypeOf"; "propertyIsEnumerable";
   "toLocaleString"; "toString"; "valueOf"; "__proto__";
   "__defineGetter__"; "__defineSetter__"; "__lookupGetter__"; "__lookupSetter__"].

(** [validateNodeType(type, parentType)], for a string [parentType].  The
    result is [None] when it is an inherited member of the table: truthy,
    and no JSON value. *)
Definition validateNodeType (type : value) (parentType : string) : option value :=
  if existsb (strict_eq type) validTypes then Some type
  else if existsb (String.eqb parentType) inherited then None
  else Some (js_or (default VUndef (assoc parentType defaults)) (VStr "process")).

(** What [parseResponse] makes of one element of the parsed array, for a
    string [parentType]; a null element has no [name] to read. *)
Definition normalize (parentType : string) (node : value) : option value :=
  name ← get node "name";
  type ← get node "type";
  type ← validateNodeType type parentType;
  description ← get node "description";
  Some (VObj [("name", js_or name (VStr "Unnamed Node")); ("type", type);
              ("description", js_or description (VStr EmptyString))]).

End ClaudeIntegration.

(** ** class CodeGenerator *)

Module CodeGenerator.

(** [getFunctionName(node)], given [node.id]. *)
Definition getFunctionName (node_id : value) : option string :=
  match node_id with
  | VStr s => Some (StorageSystem.replace_non_alphanumeric s)
  | _ => None
  end.

End CodeGenerator.

(** * The vocabulary of the statements *)

(** ** The viewport *)

(** The zoom after a wheel notch in the words of the specification: the
    factor is 1.1, or its reciprocal for a notch down, and the product is
    clamped to the zoom bounds.  It is compared with [onWheel] below. *)
Definition clamp (lo hi v : Qc) : Qc :=
  if decide (v < lo) then lo else if decide (hi < v) then hi else v.

Definition clamped_zoom_step (e : CanvasEngine.WheelEvent) (vp : CanvasEngine.viewport) : Qc :=
  clamp (CanvasEngine.minZoom vp) (CanvasEngine.maxZoom vp)
    (CanvasEngine.zoom vp *
     (if decide (0 < CanvasEngine.deltaY e) then 1 / Q2Qc 1.1 else Q2Qc 1.1)).

(** ** Import validation *)

(** The minimum acceptance contract in the words of the specification:
    the document is truthy and has truthy [version], [rootNode],
    [rootNode.id] and [rootNode.name]. *)
Definition minimum_contract (data : value) : Prop :=
  truthy data = true /\
  exists version rootNode id name,
    get data "version" = Some version /\ truthy version = true /\
    get data "rootNode" = Some rootNode /\ truthy rootNode = true /\
    get rootNode "id" = Some id /\ truthy id = true /\
    get rootNode "name" = Some name /\ truthy name = true.

(** ** The connection store *)

(** The store after [conn] went into the bucket of [key]. *)
Definition add_to_bucket (key : value) (conn : Connection.t)
    (m : list (value * list Connection.t)) : list (value * list Connection.t) :=
  JsMap.set key (default [] (JsMap.get key m) ++ [conn]) m.

(** The store as the program builds it: one bucket per key, each holding
    connections that leave the node of its key.  The empty store is such a
    store, and [finishConnection] and [importFromJSON] keep it one. *)
Definition store_ok (m : list (value * list Connection.t)) : Prop :=
  NoDup (JsMap.keys m) /\
  Forall (fun kv => Forall (fun c => Connection.sourceId c = fst kv) (snd kv)) m.

(** [c] goes from [sid] to [tid]. *)
Definition joins (sid tid : value) (c : Connection.t) : bool :=
  strict_eq (Connection.sourceId c) sid && strict_eq (Connection.targetId c) tid.

(** The number of stored connections that go from [sid] to [tid]. *)
Definition count_joining (sid tid : value) (m : list (value * list Connection.t)) : nat :=
  length (List.filter (joins sid tid) (ConnectionSystem.all_connections m)).

(** The world with [m] as the connection store. *)
Definition with_connections (m : list (value * list Connection.t)) (w : World) : World :=
  set_connectionSystem
    (Build_ConnectionSystemState m (isConnecting (connectionSystem w))
       (connectionStart (connectionSystem w)) (tempConnectionEnd (connectionSystem w))) w.

(** [startConnection(s)] and then [finishConnection(t)]. *)
Definition connect (E : Env) (s t : loc) : M (option Connection.t) :=
  let* _ := ConnectionSystem.startConnection (Some s) in
  ConnectionSystem.finishConnection E (Some t).

(** The connections among [conns] that leave [k], in their order. *)
Definition leaving (k : value) (conns : list Connection.t) : list Connection.t :=
  List.filter (fun c => strict_eq (Connection.sourceId c) k) conns.

(** The stored bucket for [k] when [conns] are grouped by source id: the
    connections leaving [k], and no bucket when there is none. *)
Definition grouped (k : value) (conns : list Connection.t) : option (list Connection.t) :=
  match leaving k conns with [] => None | b => Some b end.

(** An element of the array that [Connection.fromJSON] can read. *)
Definition readable (d : value) : Prop := d <> VNull /\ d <> VUndef.

(** The store after every connection of [conns] went into its bucket. *)
Definition add_all (conns : list Connection.t) (m : list (value * list Connection.t))
  : list (value * list Connection.t) :=
  fold_left (fun m c => add_to_bucket (Connection.sourceId c) c m) conns m.

(** [d.k] of a readable [d]: the value of the property, undefined when
    [d] has none of that name. *)
Definition field_of (d : value) (k : string) : value := default VUndef (get d k).

(** The connection that the element [d] of an imported array lists, when
    it is read at the time [createdAt]: its id, source and target are those
    of [d]; its type, label, condition and metadata are those of [d] where
    they are truthy, and otherwise 'normal', the empty string, null and a
    metadata object that holds the time of reading. *)
Definition listed_connection (createdAt : Qc) (d : value) : Connection.t :=
  Connection.Make (field_of d "id") (field_of d "sourceId") (field_of d "targetId")
    (if truthy (field_of d "type") then field_of d "type" else VStr "normal")
    (if truthy (field_of d "label") then field_of d "label" else VStr EmptyString)
    (if truthy (field_of d "condition") then field_of d "condition" else VNull)
    (if truthy (field_of d "metadata") then field_of d "metadata"
     else VObj [("createdAt", VNum createdAt)]).

(** The connections that the array [items] lists, in its order, the first
    of them read at the clock's tick [tick] and each further one a tick
    later. *)
Fixpoint listed_connections (E : Env) (tick : nat) (items : list value)
  : list Connection.t :=
  match items with
  | [] => []
  | d :: rest => listed_connection (now E tick) d :: listed_connections E (S tick) rest
  end.

(** The world after [showNotification(message, kind)]. *)
Definition notified (message kind : string) (w : World) : World :=
  set_notifications (notifications w ++ [(message, kind)]) w.

(** ** JSON records *)

Definition node_keys : list string :=
  ["id"; "name"; "type"; "x"; "y"; "children"; "connections"; "metadata"].

Definition connection_keys : list string :=
  ["id"; "sourceId"; "targetId"; "type"; "label"; "condition"; "metadata"].

(** The record [fields] has every key of [keys], with a value (JSON has no
    undefined), and no other key. *)
Definition has_exactly (keys : list string) (fields : list (string * value)) : Prop :=
  forall k, if bool_decide (k ∈ keys)
            then exists v, assoc k fields = Some v /\ v <> VUndef
            else assoc k fields = None.

(** A nested node record with all fields present. *)
Inductive node_record : value -> Prop :=
| node_record_intro fields items :
    has_exactly node_keys fields ->
    assoc "children" fields = Some (VArr items) ->
    Forall node_record items ->
    node_record (VObj fields).

(** A connection record with all fields present. *)
Definition connection_record (c : value) : Prop :=
  exists fields, c = VObj fields /\ has_exactly connection_keys fields.

(** [v || d] is [v]: [v] is truthy, or is the default itself. *)
Definition kept_by_or (v d : value) : Prop := truthy v = true \/ v = d.

(** A node record whose [connections] and [metadata] are truthy (an array
    and an object, in a document the editor wrote), and so on below it. *)
Inductive plain_node_record : value -> Prop :=
| plain_node_record_intro fields items dconnections dmetadata :
    has_exactly node_keys fields ->
    assoc "children" fields = Some (VArr items) ->
    Forall plain_node_record items ->
    assoc "connections" fields = Some dconnections -> truthy dconnections = true ->
    assoc "metadata" fields = Some dmetadata -> truthy dmetadata = true ->
    plain_node_record (VObj fields).

(** A connection record whose [type] and [metadata] are truthy, whose
    [label] is truthy or the empty string, and whose [condition] is truthy
    or null. *)
Definition plain_connection_record (c : value) : Prop :=
  exists fields dtype dlabel dcondition dmetadata,
    c = VObj fields /\ has_exactly connection_keys fields /\
    assoc "type" fields = Some dtype /\ truthy dtype = true /\
    assoc "label" fields = Some dlabel /\ kept_by_or dlabel (VStr EmptyString) /\
    assoc "condition" fields = Some dcondition /\ kept_by_or dcondition VNull /\
    assoc "metadata" fields = Some dmetadata /\ truthy dmetadata = true.

(** The metadata object that the constructor of [Node] builds, with the two
    readings of the clock that it takes. *)
Definition fresh_metadata (createdAt modifiedAt : Qc) : value :=
  VObj [("description", VStr EmptyString); ("code", VStr EmptyString);
        ("createdAt", VNum createdAt); ("modifiedAt", VNum modifiedAt)].

(** The node [n] is what the record [x] lists, read at the tick [t] of the
    clock: its id, name, type, x and y are those of [x]; its connections
    are those of [x] when they are truthy and the empty array otherwise;
    its metadata is that of [x] when it is truthy and otherwise a fresh
    metadata object; its children are what the elements of [x.children]
    list, one for one, each read at some tick. *)
Inductive parsed_node (E : Env) : nat -> value -> Node.tree -> Prop :=
| parsed_node_intro t x items children :
    field_of x "children" = VArr items ->
    Forall2 (fun child d => exists t', parsed_node E t' d child) children items ->
    parsed_node E t x
      (Node.Tree
         (Node.Make (field_of x "id") (field_of x "name") (field_of x "type")
            (field_of x "x") (field_of x "y") children
            (if truthy (field_of x "connections") then field_of x "connections"
             else VArr [])
            (if truthy (field_of x "metadata") then field_of x "metadata"
             else fresh_metadata (now E t) (now E (S t))))).

(** ** Children *)

(** No node of [cs] has the id [nodeId]. *)
Definition none_has_id (h : list (Node.t loc)) (nodeId : value) (cs : list loc) : Prop :=
  Forall (fun c => forall n, h !! c = Some n -> Node.id n <> nodeId) cs.

(** ** Navigation *)

(** The calls that move through the tree. *)
Inductive nav_command : Type :=
| NavigateToNode (node : option loc)
| NavigateBack
| NavigateToStackIndex (index : Z).

Definition nav_call (c : nav_command) : M bool :=
  match c with
  | NavigateToNode node => NodeSystem.navigateToNode node
  | NavigateBack => NodeSystem.navigateBack
  | NavigateToStackIndex index => NodeSystem.navigateToStackIndex index
  end.

(** The world after a sequence of navigation calls. *)
Fixpoint nav_run (cmds : list nav_command) (w : World) : World :=
  match cmds with
  | [] => w
  | c :: rest => nav_run rest (world_after (nav_call c) w)
  end.

(** Every adjacent pair (parent, child) of the stack has the child among
    the parent's children. *)
Fixpoint chain (h : list (Node.t loc)) (stack : list loc) : Prop :=
  match stack with
  | parent :: rest =>
      match rest with
      | child :: _ =>
          (exists n, h !! parent = Some n /\ child ∈ Node.children n) /\ chain h rest
      | [] => True
      end
  | [] => True
  end.

(** The stack is not empty and the current node is its top. *)
Definition current_is_top (w : World) : Prop :=
  navigationStack (nodeSystem w) <> [] /\
  currentNode (nodeSystem w) = last (navigationStack (nodeSystem w)).

(** The stack is a chain in the heap of the world. *)
Definition stack_is_chain (w : World) : Prop :=
  chain (heap w) (navigationStack (nodeSystem w)).

(** The node handed to [navigateToNode] is a child of the current node. *)
Definition drills_into_child (w : World) (c : nav_command) : Prop :=
  match c with
  | NavigateToNode (Some n) =>
      exists cur self, currentNode (nodeSystem w) = Some cur /\
                       heap w !! cur = Some self /\ n ∈ Node.children self
  | _ => True
  end.

(** Every [navigateToNode] of the sequence is handed a child of the node
    that is current when it is called. *)
Fixpoint drill_into_children (cmds : list nav_command) (w : World) : Prop :=
  match cmds with
  | [] => True
  | c :: rest =>
      drills_into_child w c /\ drill_into_children rest (world_after (nav_call c) w)
  end.

(** ** The data model of connections *)

(** No bucket of the store is empty. *)
Definition no_empty_bucket (m : list (value * list Connection.t)) : Prop :=
  Forall (fun kv => snd kv <> []) m.

(** The data model of connections: the store is keyed by source id and has
    no empty bucket, no connection joins a node to itself, and no ordered
    pair of ids is joined twice. *)
Definition connection_model (m : list (value * list Connection.t)) : Prop :=
  store_ok m /\ no_empty_bucket m /\
  Forall (fun c => Connection.sourceId c <> Connection.targetId c)
    (ConnectionSystem.all_connections m) /\
  forall sid tid, (count_joining sid tid m <= 1)%nat.

(** The calls of the connection tool. *)
Inductive tool_command : Type :=
| StartConnection (sourceNode : option loc)
| UpdateTempConnection (worldX worldY : value)
| FinishConnection (targetNode : option loc)
| CancelConnection.

Definition tool_call (E : Env) (c : tool_command) : M unit :=
  match c with
  | StartConnection sourceNode => ConnectionSystem.startConnection sourceNode
  | UpdateTempConnection worldX worldY => ConnectionSystem.updateTempConnection worldX worldY
  | FinishConnection targetNode =>
      let* _ := ConnectionSystem.finishConnection E targetNode in ret tt
  | CancelConnection => ConnectionSystem.cancelConnection
  end.

Fixpoint tool_run (E : Env) (cmds : list tool_command) (w : World) : World :=
  match cmds with
  | [] => w
  | c :: rest => tool_run E rest (world_after (tool_call E c) w)
  end.

(** ** Looking a connection up and deleting it *)

(** [c] has the id [connectionId]. *)
Definition has_id (connectionId : value) (c : Connection.t) : bool :=
  strict_eq (Connection.id c) connectionId.

(** [conns] without its first connection with the id. *)
Fixpoint without_first (connectionId : value) (conns : list Connection.t)
  : list Connection.t :=
  match conns with
  | [] => []
  | c :: rest => if has_id connectionId c then rest else c :: without_first connectionId rest
  end.

(** ** The connections of a level *)

(** The nodes [cs] have the ids [ids], in order. *)
Definition ids_of (h : list (Node.t loc)) (cs : list loc) (ids : list value) : Prop :=
  Forall2 (fun c v => exists n, h !! c = Some n /\ Node.id n = v) cs ids.

(** What [getConnectionsForLevel] collects over the children with the ids
    [ids]: bucket after bucket in the order of the children, the
    connections whose target id is among the ids. *)
Definition level_of (ids : list value) (m : list (value * list Connection.t))
  : list Connection.t :=
  concat (map (fun v => List.filter
                          (fun conn => ConnectionSystem.Set_has (ConnectionSystem.Set_of ids)
                                         (Connection.targetId conn))
                          (default [] (JsMap.get v m))) ids).

(** The first index of [v] in [ids]. *)
Fixpoint index_of (v : value) (ids : list value) : option nat :=
  match ids with
  | [] => None
  | u :: rest => if strict_eq u v then Some 0%nat else S <$> index_of v rest
  end.

(** ** Adding and deleting a child *)

(** A value that takes a property assignment: an object (or an array). *)
Definition assignable (v : value) : Prop :=
  match v with VObj _ | VArr _ => True | _ => False end.

(** ** Connections that survive the export *)

(** A connection whose fields [fromJSON] keeps: the ones it reads with
    [||] are truthy or the default itself. *)
Definition plain_connection (c : Connection.t) : Prop :=
  truthy (Connection.type c) = true /\
  kept_by_or (Connection.label c) (VStr EmptyString) /\
  kept_by_or (Connection.condition c) VNull /\
  truthy (Connection.metadata c) = true.

(** ** Trees that survive the export *)

(** A tree whose fields [Node.fromJSON] keeps, at every node: [type], [x]
    and [y] are defined (an undefined one would take the constructor's
    default) and [connections] and [metadata], read with [||], are
    truthy. *)
Inductive plain_tree : Node.tree -> Prop :=
| plain_tree_intro node :
    Node.type node <> VUndef -> Node.x node <> VUndef -> Node.y node <> VUndef ->
    truthy (Node.connections node) = true ->
    truthy (Node.metadata node) = true ->
    Forall plain_tree (Node.children node) ->
    plain_tree (Node.Tree node).

(** The number of nodes of a tree. *)
Fixpoint tree_size (t : Node.tree) : nat :=
  match t with
  | Node.Tree node => S (list_sum (map tree_size (Node.children node)))
  end.

(** ** Events of the canvas *)

(** What the application's click handler does to the engine: it leaves a
    click on empty space to the engine, or handles a click on a node, and
    then resets the view when the click led into the node. *)
Inductive click_outcome : Type :=
| Unhandled
| Handled
| HandledWithReset (canvas_width canvas_height : Qc).

Definition app_click (o : click_outcome)
  : Qc -> Qc -> CanvasEngine.Engine -> bool * CanvasEngine.Engine :=
  fun _ _ s =>
    match o with
    | Unhandled => (false, s)
    | Handled => (true, s)
    | HandledWithReset w h =>
        (true, CanvasEngine.Build_Engine
                 (CanvasEngine.resetView w h (CanvasEngine.this_viewport s))
                 (CanvasEngine.isDragging s) (CanvasEngine.dragStart s)
                 (CanvasEngine.lastMousePos s))
    end.

(** The events that reach the engine. *)
Inductive engine_event : Type :=
| MouseDown (e : CanvasEngine.MouseEvent.t) (o : click_outcome)
| MouseMove (e : CanvasEngine.MouseEvent.t)
| MouseUp
| Wheel (e : CanvasEngine.WheelEvent)
| ResetView (canvas_width canvas_height : Qc).

Definition engine_step (rect : CanvasEngine.Rect) (s : CanvasEngine.Engine)
    (ev : engine_event) : CanvasEngine.Engine :=
  match ev with
  | MouseDown e o => CanvasEngine.onMouseDown (Some (app_click o)) rect e s
  | MouseMove e => CanvasEngine.onMouseMove rect e s
  | MouseUp => CanvasEngine.onMouseUp s
  | Wheel e =>
      CanvasEngine.Build_Engine
        (CanvasEngine.onWheel rect e (CanvasEngine.this_viewport s))
        (CanvasEngine.isDragging s) (CanvasEngine.dragStart s)
        (CanvasEngine.lastMousePos s)
  | ResetView w h =>
      CanvasEngine.Build_Engine
        (CanvasEngine.resetView w h (CanvasEngine.this_viewport s))
        (CanvasEngine.isDragging s) (CanvasEngine.dragStart s)
        (CanvasEngine.lastMousePos s)
  end.

Definition engine_run (rect : CanvasEngine.Rect) (evs : list engine_event)
    (s : CanvasEngine.Engine) : CanvasEngine.Engine :=
  fold_left (engine_step rect) evs s.

(** The zoom lies within its bounds. *)
Definition zoom_in_bounds (vp : CanvasEngine.viewport) : Prop :=
  CanvasEngine.minZoom vp <= CanvasEngine.zoom vp /\
  CanvasEngine.zoom vp <= CanvasEngine.maxZoom vp.

(** ** Names *)

(** Every code unit of [s] satisfies [p]. *)
Fixpoint all_units (p : Ascii.ascii -> bool) (s : string) : bool :=
  match s with
  | EmptyString => true
  | String c rest => p c && all_units p rest
  end.

(** A small ASCII letter, a digit or the underscore. *)
Definition filename_unit (c : Ascii.ascii) : bool :=
  let n := Ascii.nat_of_ascii c in
  ((48 <=? n) && (n <=? 57) || (97 <=? n) && (n <=? 122) || (n =? 95))%nat.

(** An ASCII letter, a digit or the underscore. *)
Definition identifier_unit (c : Ascii.ascii) : bool :=
  StorageSystem.alphanumeric c || (Ascii.nat_of_ascii c =? 95)%nat.

(** The stack starts at the root. *)
Definition stack_from_root (w : World) : Prop :=
  exists root, rootNode (nodeSystem w) = Some root /\
               head (navigationStack (nodeSystem w)) = Some root.

(** * Scenarios *)

(** A wheel notch down and a notch up with the cursor at (400, 300), and a
    viewport at zoom 2.9. *)
Definition notch_down : CanvasEngine.WheelEvent :=
  CanvasEngine.Build_WheelEvent (Q2Qc 400) (Q2Qc 300) (Q2Qc 100).

Definition notch_up : CanvasEngine.WheelEvent :=
  CanvasEngine.Build_WheelEvent (Q2Qc 400) (Q2Qc 300) (- Q2Qc 100).

(** A canvas whose rectangle starts at the origin of the page. *)
Definition origin : CanvasEngine.Rect := CanvasEngine.Build_Rect 0 0.

Definition nearly_max : CanvasEngine.viewport :=
  CanvasEngine.Viewport 0 0 (Q2Qc 2.9) (Q2Qc 0.1) (Q2Qc 3).

(** A document whose [rootNode] has no [id]. *)
Definition document_without_id : value :=
  VObj [("version", VStr "1.0");
        ("rootNode", VObj [("name", VStr "App"); ("children", VArr [])]);
        ("connections", VArr [])].

(** The world before anything was created. *)
Definition empty_world : World :=
  Build_World [] 0 0 [] (NodeSystem.initial) ConnectionSystem.initial.

(** An environment that numbers ids and timestamps. *)
Definition demo_env : Env :=
  {| generateId := fun k => VStr ("node_" +:+ pretty k);
     now := fun k => Q2Qc (inject_Z (Z.of_nat k)) |}.

(** The scenario of the specification: a root "A" with the children "B" and
    "C". *)
Definition build_scenario : M unit :=
  let* _ := NodeSystem.initialize demo_env (VStr "A") in
  let* _ := NodeSystem.addNode demo_env (VStr "B") (VStr "process") VUndef VUndef in
  let* _ := NodeSystem.addNode demo_env (VStr "C") (VStr "logic") VUndef VUndef in
  ret tt.

(** Root at location 0, "B" at 1, "C" at 2. *)
Definition demo_world : World := Eval vm_compute in world_after build_scenario empty_world.

(** The same after B was connected to C. *)
Definition connected_world : World :=
  Eval vm_compute in world_after (connect demo_env 1 2) demo_world.

(** The connection that was created. *)
Definition demo_connection : Connection.t :=
  Connection.Make (VStr "node_3") (VStr "node_1") (VStr "node_2")
    (VStr "normal") (VStr EmptyString) VNull (VObj [("createdAt", VNum (Q2Qc 8))]).

(** The scenario after B was deleted. *)
Definition deleted_world : World :=
  Eval vm_compute in
    world_after (NodeSystem.deleteNode demo_env (VStr "node_1")) connected_world.

(** A connection from "a" to "b" whose condition is [false], and a node
    whose metadata is [null]. *)
Definition connection_with_false_condition : value :=
  VObj [("id", VStr "c1"); ("sourceId", VStr "a"); ("targetId", VStr "b");
        ("type", VStr "normal"); ("label", VStr EmptyString);
        ("condition", VBool false); ("metadata", VObj [("createdAt", VNum 1)])].

Definition node_with_null_metadata : value :=
  VObj [("id", VStr "n1"); ("name", VStr "A"); ("type", VStr "domain");
        ("x", VNum 0); ("y", VNum 0); ("children", VArr []);
        ("connections", VArr []); ("metadata", VNull)].

(** A document the editor could have written: a root with one child, and a
    connection. *)
Definition child_record : value :=
  VObj [("id", VStr "n2"); ("name", VStr "B"); ("type", VStr "process");
        ("x", VNum 1); ("y", VNum 0); ("children", VArr []);
        ("connections", VArr [VStr "c1"]);
        ("metadata", VObj [("description", VStr EmptyString); ("code", VStr EmptyString);
                           ("createdAt", VNum 1); ("modifiedAt", VNum 1)])].

Definition root_record : value :=
  VObj [("id", VStr "n1"); ("name", VStr "A"); ("type", VStr "domain");
        ("x", VNum 0); ("y", VNum 0); ("children", VArr [child_record]);
        ("connections", VArr []);
        ("metadata", VObj [("description", VStr EmptyString); ("code", VStr EmptyString);
                           ("createdAt", VNum 1); ("modifiedAt", VNum 1)])].

Definition flow_record : value :=
  VObj [("id", VStr "c1"); ("sourceId", VStr "n2"); ("targetId", VStr "n3");
        ("type", VStr "normal"); ("label", VStr "flow");
        ("condition", VNull); ("metadata", VObj [("createdAt", VNum 1)])].

(** Three connections to import, two of them leaving "n2". *)
Definition records_to_import : list value :=
  [flow_record;
   VObj [("id", VStr "c2"); ("sourceId", VStr "n3"); ("targetId", VStr "n2")];
   VObj [("id", VStr "c3"); ("sourceId", VStr "n2"); ("targetId", VStr "n4")]].

(** The scenario with a node "D" below "B", added the way generated
    children are: a new node handed to [addChild] of its parent. *)
Definition build_deep_scenario : M unit :=
  let* _ := NodeSystem.initialize demo_env (VStr "A") in
  let* b := NodeSystem.addNode demo_env (VStr "B") (VStr "process") VUndef VUndef in
  let* node := Node.new demo_env (VStr "D") (VStr "logic") (VNum 0) (VNum 0) in
  let* d := alloc node in
  Node.addChild demo_env b d.

(** Root at location 0, "B" at 1, "D" at 2. *)
Definition deep_world : World := Eval vm_compute in world_after build_deep_scenario empty_world.

(** Into "B", back, into "B", to the root by the breadcrumb, into "B". *)
Definition there_and_back : list nav_command :=
  [NavigateToNode (Some 1%nat); NavigateBack; NavigateToNode (Some 1%nat);
   NavigateToStackIndex 0; NavigateToNode (Some 1%nat)].

(** A tree in memory that nothing refers to yet: "A" with the child "B". *)
Definition demo_tree : Node.tree :=
  Node.Tree
    (Node.Make (VStr "n1") (VStr "A") (VStr "domain") (VNum 0) (VNum 0)
       [Node.Tree
          (Node.Make (VStr "n2") (VStr "B") (VStr "process") (VNum 1) (VNum 0) []
             (VArr [VStr "c1"]) (VObj [("createdAt", VNum 1)]))]
       (VArr []) (VObj [("createdAt", VNum 1)])).



(** A session at the canvas: the drag, its release, two notches up, a
    double click into a node on a canvas of 800 by 600, and a notch down. *)
Definition canvas_session : list engine_event :=
  [MouseDown (CanvasEngine.MouseEvent.Make (Q2Qc 100) (Q2Qc 100)) Unhandled;
   MouseMove (CanvasEngine.MouseEvent.Make (Q2Qc 130) (Q2Qc 90));
   MouseUp; Wheel notch_up; Wheel notch_up;
   MouseDown (CanvasEngine.MouseEvent.Make (Q2Qc 10) (Q2Qc 10))
     (HandledWithReset (Q2Qc 800) (Q2Qc 600));
   Wheel notch_down].

(** A circle test for the scenarios: the point lies within the radius of
    the centre. *)
Definition in_circle (px py cx cy radius : value) : bool :=
  match px, py, cx, cy, radius with
  | VNum px, VNum py, VNum cx, VNum cy, VNum r =>
      bool_decide ((px - cx) * (px - cx) + (py - cy) * (py - cy) <= r * r)
  | _, _, _, _, _ => false
  end.

(** The world after the tree "A" with the child "B" was loaded: "B" at
    location 0, the root "A" at 1. *)
Definition loaded_world : World :=
  Eval vm_compute in
    world_after (NodeSystem.importFromJSON demo_env (Node.toJSON demo_tree)) empty_world.

(** The loaded tree after "B" was connected to the root "A", and the tree
    then below the root. *)
Definition saved_world : World :=
  Eval vm_compute in world_after (connect demo_env 0 1) loaded_world.

Definition saved_tree : Node.tree :=
  Eval vm_compute in default demo_tree (NodeSystem.tree_at 2 (heap saved_world) 1).

(** An application whose root has the empty name. *)
Definition unnamed_world : World :=
  Eval vm_compute in
    world_after (NodeSystem.initialize demo_env (VStr EmptyString)) empty_world.

(** Stored data with connections and no tree. *)
Definition stored_without_tree : value :=
  VObj [("version", VStr "1.0"); ("connections", VArr records_to_import)].

(** The scenario with B connected to C, and B selected. *)
Definition selected_world : World :=
  set_nodeSystem
    (Build_NodeSystemState (rootNode (nodeSystem connected_world))
       (currentNode (nodeSystem connected_world))
       (navigationStack (nodeSystem connected_world)) (Some 1%nat)
       (hoveredNode (nodeSystem connected_world)))
    connected_world.

(** A drawing that needs a node to view, as [render] does with
    [this.currentNode.children], and changes nothing. *)
Definition draw_current : M unit :=
  fun w => match currentNode (nodeSystem w) with
           | Some _ => Ok tt w
           | None => Throw w
           end.

(** * Properties *)

(** ** Strict equality *)

Lemma strict_eq_iff a : forall b, strict_eq a b = true <-> a = b.
Proof.
  induction a as [ | | x | x | x | items IH | fields IH] using value_ind_nested;
    intros [ | | y | y | y | ys | ys]; simpl;
    try (split; [discriminate | intros; discriminate]);
    try (split; [done | done]);
    try (rewrite bool_decide_eq_true; split; congruence).
  - revert ys. induction IH as [ | x r Hx _ IHr]; intros [ | y ys].
    + done.
    + split; discriminate.
    + split; discriminate.
    + rewrite andb_true_iff, Hx. specialize (IHr ys).
      split.
      * intros [-> Hgo]. apply IHr in Hgo. congruence.
      * intros [= -> <-]. split; [done|]. by apply IHr.
  - revert ys. induction IH as [ | [k x] r Hx _ IHr]; intros [ | [l y] ys].
    + done.
    + split; discriminate.
    + split; discriminate.
    + rewrite !andb_true_iff, bool_decide_eq_true. simpl in Hx. rewrite Hx.
      specialize (IHr ys).
      split.
      * intros [[-> ->] Hgo]. apply IHr in Hgo. congruence.
      * intros [= -> -> <-]. split; [done|]. by apply IHr.
Qed.

Lemma strict_eq_refl a : strict_eq a a = true.
Proof. by apply strict_eq_iff. Qed.

Lemma strict_eq_false_iff a b : strict_eq a b = false <-> a <> b.
Proof.
  rewrite <- strict_eq_iff. destruct (strict_eq a b); split; congruence.
Qed.

(** ** Running a call *)

Arguments deref : simpl never.

Lemma bind_step {A B} (m : M A) (k : A -> M B) (w : World) :
  bind m k w = match m w with Ok a w' => k a w' | Throw w' => Throw w' end.
Proof. reflexivity. Qed.

Lemma deref_ok w l n : heap w !! l = Some n -> deref l w = Ok n w.
Proof. unfold deref. by intros ->. Qed.

Lemma deref_inv w l n w' : deref l w = Ok n w' -> heap w !! l = Some n /\ w' = w.
Proof. unfold deref. destruct (heap w !! l); intros [= <- <-]; done. Qed.

Ltac mrun := repeat first [rewrite bind_step | progress cbn].

(** ** The viewport transform *)

Section CanvasEngine_facts.
Import CanvasEngine.

Lemma zoomDelta_pos e : 0 < zoomDelta e.
Proof. unfold zoomDelta. case_decide; reflexivity. Qed.

Lemma accepted_zoom_nonzero e vp :
  0 < minZoom vp -> accepted e vp -> zoom vp <> 0 /\ zoom vp * zoomDelta e <> 0.
Proof.
  intros Hmin [Hlo _].
  assert (Hpos : 0 < zoom vp * zoomDelta e) by (eapply Qclt_le_trans; eauto).
  split; intros H0.
  - rewrite H0, Qcmult_0_l in Hpos. by apply Qclt_not_eq in Hpos.
  - rewrite H0 in Hpos. by apply Qclt_not_eq in Hpos.
Qed.

Lemma onWheel_accepted rect e vp :
  accepted e vp ->
  onWheel rect e vp =
    Viewport
      (x vp + ((mouseX rect e - x vp) / (zoom vp * zoomDelta e)
               - (mouseX rect e - x vp) / zoom vp) * (zoom vp * zoomDelta e))
      (y vp + ((mouseY rect e - y vp) / (zoom vp * zoomDelta e)
               - (mouseY rect e - y vp) / zoom vp) * (zoom vp * zoomDelta e))
      (zoom vp * zoomDelta e) (minZoom vp) (maxZoom vp).
Proof.
  intros Hacc. unfold onWheel. rewrite decide_True by exact Hacc. reflexivity.
Qed.

Lemma onWheel_rejected rect e vp : ~ accepted e vp -> onWheel rect e vp = vp.
Proof. intros Hrej. unfold onWheel. by rewrite decide_False. Qed.

(** C2.  For a viewport with a nonzero zoom, taking a world point to the
    screen and back gives the point again, exactly over the rationals. *)
Theorem screenToWorld_worldToScreen (vp : viewport) (wx wy : Qc) :
  zoom vp <> 0 ->
  screenToWorld vp (fst (worldToScreen vp wx wy)) (snd (worldToScreen vp wx wy))
  = (wx, wy).
Proof.
  intros Hz. unfold screenToWorld, worldToScreen. simpl.
  f_equal; field; exact Hz.
Qed.

Lemma screenToWorld_worldToScreen_witness :
  screenToWorld initial (fst (worldToScreen initial (Q2Qc 3) (Q2Qc 4)))
    (snd (worldToScreen initial (Q2Qc 3) (Q2Qc 4)))
  = (Q2Qc 3, Q2Qc 4).
Proof. apply (screenToWorld_worldToScreen initial (Q2Qc 3) (Q2Qc 4)). discriminate. Defined.

(** C4, as the code has it.  A wheel notch multiplies the zoom by 1.1, or
    by 0.9 when [deltaY] is positive.  The step is applied only when the
    product lies within the zoom bounds; otherwise the viewport stays as it
    is.  The bounds do not change, and a zoom within them stays within
    them. *)
Theorem onWheel_zoom_step (rect : Rect) (e : WheelEvent) (vp : viewport) :
  (0 < deltaY e -> zoomDelta e = Q2Qc 0.9) /\
  (~ 0 < deltaY e -> zoomDelta e = Q2Qc 1.1) /\
  (accepted e vp -> zoom (onWheel rect e vp) = zoom vp * zoomDelta e) /\
  (~ accepted e vp -> onWheel rect e vp = vp) /\
  minZoom (onWheel rect e vp) = minZoom vp /\
  maxZoom (onWheel rect e vp) = maxZoom vp /\
  (minZoom vp <= zoom vp /\ zoom vp <= maxZoom vp ->
   minZoom vp <= zoom (onWheel rect e vp) /\ zoom (onWheel rect e vp) <= maxZoom vp).
Proof.
  split_and!.
  - intros H. unfold zoomDelta. by rewrite decide_True.
  - intros H. unfold zoomDelta. by rewrite decide_False.
  - intros H. by rewrite onWheel_accepted.
  - apply onWheel_rejected.
  - destruct (decide (accepted e vp)) as [H|H];
      [by rewrite onWheel_accepted | by rewrite onWheel_rejected].
  - destruct (decide (accepted e vp)) as [H|H];
      [by rewrite onWheel_accepted | by rewrite onWheel_rejected].
  - intros Hin. destruct (decide (accepted e vp)) as [H|H];
      [rewrite onWheel_accepted by done; exact H | by rewrite onWheel_rejected].
Qed.

Lemma onWheel_zoom_step_witness :
  zoom (onWheel origin notch_down initial) = 1 * Q2Qc 0.9 /\
  onWheel origin notch_up nearly_max = nearly_max.
Proof.
  split.
  - destruct (onWheel_zoom_step origin notch_down initial) as (Hd & _ & Hacc & _).
    rewrite Hacc; [by rewrite Hd | ].
    unfold accepted. rewrite Hd by reflexivity. split; discriminate.
  - destruct (onWheel_zoom_step origin notch_up nearly_max) as (_ & Hu & _ & Hrej & _).
    apply Hrej. unfold accepted. rewrite Hu by discriminate.
    intros [_ Hhi]. by apply Hhi.
Defined.

(** C4 as the specification states it does not hold, twice over: a notch
    down takes zoom 1 to 0.9 and not to 1/1.1, and a notch up at zoom 2.9
    leaves 2.9 and does not stop at the bound 3. *)
Lemma onWheel_not_reciprocal_not_clamped :
  (zoom (onWheel origin notch_down initial) = Q2Qc 0.9 /\
   clamped_zoom_step notch_down initial = Q2Qc (10 # 11) /\
   zoom (onWheel origin notch_down initial) <> clamped_zoom_step notch_down initial) /\
  (zoom (onWheel origin notch_up nearly_max) = Q2Qc 2.9 /\
   clamped_zoom_step notch_up nearly_max = Q2Qc 3 /\
   zoom (onWheel origin notch_up nearly_max) <> clamped_zoom_step notch_up nearly_max).
Proof.
  split; split_and!; try (apply Qc_is_canon; reflexivity);
    intros H; apply (f_equal this) in H; vm_compute in H; discriminate.
Qed.

(** C5.  When a wheel step is applied, the world point under the cursor
    before the step is under the cursor after it, exactly over the
    rationals.  The lower zoom bound is positive (the constructor sets it to
    0.1 and nothing changes it). *)
Theorem onWheel_anchored_at_cursor (rect : Rect) (e : WheelEvent) (vp : viewport) :
  0 < minZoom vp ->
  accepted e vp ->
  worldToScreen (onWheel rect e vp)
    (fst (screenToWorld vp (mouseX rect e) (mouseY rect e)))
    (snd (screenToWorld vp (mouseX rect e) (mouseY rect e)))
  = (mouseX rect e, mouseY rect e).
Proof.
  intros Hmin Hacc.
  destruct (accepted_zoom_nonzero e vp Hmin Hacc) as [Hz Hz'].
  rewrite onWheel_accepted by exact Hacc.
  unfold worldToScreen, screenToWorld. simpl.
  assert (Hd : zoomDelta e <> 0).
  { intros H0. apply Hz'. rewrite H0. ring. }
  f_equal; field; auto.
Qed.

(** The scenario of the specification: the cursor at (400, 300), zoom 1
    to 1.1. *)
Lemma onWheel_anchored_at_cursor_witness :
  worldToScreen (onWheel origin notch_up initial)
    (fst (screenToWorld initial (mouseX origin notch_up) (mouseY origin notch_up)))
    (snd (screenToWorld initial (mouseX origin notch_up) (mouseY origin notch_up)))
  = (mouseX origin notch_up, mouseY origin notch_up) /\
  zoom (onWheel origin notch_up initial) = Q2Qc 1.1.
Proof.
  assert (Hacc : accepted notch_up initial) by (split; discriminate).
  split.
  - apply (onWheel_anchored_at_cursor origin notch_up initial); [reflexivity | exact Hacc].
  - rewrite onWheel_accepted by exact Hacc. apply Qc_is_canon. reflexivity.
Defined.

End CanvasEngine_facts.

(** ** Import validation *)

Section StorageSystem_facts.
Import StorageSystem.

Lemma get_of_truthy data k : truthy data = true -> is_Some (get data k).
Proof. destruct data; simpl; intros H; try discriminate; eauto. Qed.

(** [validateImportData] never throws, and its result is truthy exactly
    for the documents of the minimum contract. *)
Lemma validateImportData_spec data :
  exists v, validateImportData data = Some v /\
            (truthy v = true <-> minimum_contract data).
Proof.
  unfold validateImportData, minimum_contract, js_and.
  destruct (truthy data) eqn:Hd.
  2:{ exists data. rewrite !Hd. split; [done|]. split; [done | by intros [? _]]. }
  destruct (get_of_truthy data "version" Hd) as [version Hv]. rewrite Hv.
  destruct (get_of_truthy data "rootNode" Hd) as [root Hr]. rewrite Hr. simpl.
  destruct (truthy version) eqn:Htv.
  2:{ exists version. rewrite !Htv. split; [done|]. split; [done|].
      intros (_ & ? & ? & ? & ? & ? & ? & _). congruence. }
  destruct (truthy root) eqn:Htr.
  2:{ exists root. rewrite !Htr. split; [done|]. split; [done|].
      intros (_ & ? & ? & ? & ? & _ & _ & ? & ? & _). congruence. }
  destruct (get_of_truthy root "id" Htr) as [id Hi]. rewrite Hi.
  destruct (get_of_truthy root "name" Htr) as [name Hn]. rewrite Hn.
  destruct (truthy id) eqn:Hti.
  2:{ exists id. rewrite ?Hti. split; [done|]. split; [done|].
      intros (_ & ? & ? & ? & ? & _ & _ & ? & ? & ? & ? & _). congruence. }
  exists name. split; [done|]. split.
  - intros Htn. split; [done|]. exists version, root, id, name. done.
  - intros (_ & ? & ? & ? & ? & _ & _ & ? & ? & ? & ? & ? & ?). congruence.
Qed.

(** C9.  A document is accepted (handed to the caller of the import) exactly
    when it meets the minimum contract.  A document that fails it is not
    handed on: the heap of nodes, the navigation state and the connection
    graph stay as they are, and one notification is emitted. *)
Theorem import_minimum_contract (callback : value -> M unit) (data : value) (w : World) :
  (exists v, validateImportData data = Some v /\
             (truthy v = true <-> minimum_contract data)) /\
  (minimum_contract data -> onImport callback data w = callback data w) /\
  (~ minimum_contract data ->
   exists w', onImport callback data w = Ok tt w' /\
              heap w' = heap w /\
              nodeSystem w' = nodeSystem w /\
              connectionSystem w' = connectionSystem w /\
              notifications w' = notifications w ++ [("Invalid file format", "error")]).
Proof.
  destruct (validateImportData_spec data) as (v & Hv & Hiff).
  split_and!.
  - eauto.
  - intros Hc. unfold onImport, bind. rewrite Hv. simpl.
    by rewrite (proj2 Hiff Hc).
  - intros Hc. unfold onImport, bind. rewrite Hv. simpl.
    destruct (truthy v) eqn:Ht; [by destruct Hc; apply Hiff |].
    eexists. split; [reflexivity|]. done.
Qed.

(** [importFromFile] runs that handler on whatever [importJSON] delivers. *)
Lemma importFromFile_delivers (callback : value -> M unit) (data : value) (w : World) :
  importFromFile (fun handler => handler data) callback w = onImport callback data w.
Proof. reflexivity. Qed.

Lemma import_minimum_contract_witness :
  exists w', onImport (fun _ => throw) document_without_id empty_world = Ok tt w' /\
             heap w' = heap empty_world /\
             nodeSystem w' = nodeSystem empty_world /\
             connectionSystem w' = connectionSystem empty_world /\
             notifications w' = [("Invalid file format", "error")].
Proof.
  apply (import_minimum_contract (fun _ => throw) document_without_id empty_world).
  intros (_ & version & root & id & name & _ & _ & Hr & _ & Hi & Hti & _).
  vm_compute in Hr. injection Hr as <-. vm_compute in Hi. injection Hi as <-.
  discriminate.
Defined.

End StorageSystem_facts.

(** ** The connection store *)

Section JsMap_facts.
Context {V : Type}.
Implicit Types (m : list (value * V)) (k : value).

Lemma JsMap_get_set_eq k v m : JsMap.get k (JsMap.set k v m) = Some v.
Proof.
  induction m as [ | [k' v'] m IH]; simpl.
  - by rewrite strict_eq_refl.
  - destruct (strict_eq k' k) eqn:Hk; simpl; by rewrite Hk.
Qed.

Lemma JsMap_get_set_ne k k' v m :
  k <> k' -> JsMap.get k' (JsMap.set k v m) = JsMap.get k' m.
Proof.
  intros Hne. induction m as [ | [k0 v0] m IH]; simpl.
  - by apply strict_eq_false_iff in Hne as ->.
  - destruct (strict_eq k0 k) eqn:Hk; simpl.
    + apply strict_eq_iff in Hk as ->. by apply strict_eq_false_iff in Hne as ->.
    + by rewrite IH.
Qed.

Lemma JsMap_set_set k v v' m : JsMap.set k v' (JsMap.set k v m) = JsMap.set k v' m.
Proof.
  induction m as [ | [k0 v0] m IH]; simpl.
  - by rewrite strict_eq_refl.
  - destruct (strict_eq k0 k) eqn:Hk; simpl; rewrite Hk; congruence.
Qed.

Lemma JsMap_get_None k m : JsMap.get k m = None <-> k ∉ JsMap.keys m.
Proof.
  induction m as [ | [k0 v0] m IH]; simpl.
  - split; [intros _; apply not_elem_of_nil | done].
  - rewrite not_elem_of_cons. destruct (strict_eq k0 k) eqn:Hk.
    + apply strict_eq_iff in Hk as ->. split; [done | by intros [? _]].
    + apply strict_eq_false_iff in Hk. rewrite IH. split; [ | tauto].
      intros H. split; [congruence | done].
Qed.

Lemma JsMap_keys_set k v m :
  JsMap.keys (JsMap.set k v m) =
  if JsMap.has k m then JsMap.keys m else JsMap.keys m ++ [k].
Proof.
  unfold JsMap.has. induction m as [ | [k0 v0] m IH]; simpl; [done|].
  destruct (strict_eq k0 k) eqn:Hk; simpl; [done|].
  rewrite IH. by destruct (JsMap.get k m).
Qed.

End JsMap_facts.

Lemma store_ok_nil : store_ok [].
Proof. split; [apply NoDup_nil_2 | apply Forall_nil_2]. Qed.

Lemma Forall_bucket_set (P : value -> list Connection.t -> Prop) k v m :
  Forall (fun kv => P (fst kv) (snd kv)) m -> P k v ->
  Forall (fun kv => P (fst kv) (snd kv)) (JsMap.set k v m).
Proof.
  intros Hm Hv. induction Hm as [ | [k0 v0] m H0 Hm IH]; simpl.
  - by repeat constructor.
  - destruct (strict_eq k0 k) eqn:Hk.
    + apply strict_eq_iff in Hk as ->. by constructor.
    + by constructor.
Qed.

Lemma bucket_sources k conns m :
  store_ok m -> JsMap.get k m = Some conns ->
  Forall (fun c => Connection.sourceId c = k) conns.
Proof.
  intros [_ Hm]. induction Hm as [ | [k0 v0] m H0 Hm IH]; simpl; [done|].
  destruct (strict_eq k0 k) eqn:Hk; [ | done].
  apply strict_eq_iff in Hk as ->. by intros [= <-].
Qed.

Lemma store_ok_add k c m :
  store_ok m -> Connection.sourceId c = k -> store_ok (add_to_bucket k c m).
Proof.
  intros Hok Hc. pose proof Hok as [Hnd Hm]. unfold add_to_bucket. split.
  - rewrite JsMap_keys_set. unfold JsMap.has.
    destruct (JsMap.get k m) eqn:Hg; [done|].
    apply NoDup_app. split_and!; [done | | apply NoDup_singleton].
    intros x Hx ->%list_elem_of_singleton. by apply JsMap_get_None in Hg.
  - apply (Forall_bucket_set (fun k v => Forall (fun c => Connection.sourceId c = k) v));
      [done|].
    apply Forall_app. split; [ | by repeat constructor].
    destruct (JsMap.get k m) eqn:Hg; simpl; [ | constructor].
    by eapply bucket_sources.
Qed.

Lemma filter_joins_none sid tid conns :
  Forall (fun c => Connection.sourceId c <> sid) conns ->
  List.filter (joins sid tid) conns = [].
Proof.
  induction 1 as [ | c conns Hc _ IH]; simpl; [done|].
  unfold joins at 1. apply strict_eq_false_iff in Hc as ->. simpl. exact IH.
Qed.

Lemma count_joining_absent sid tid m :
  store_ok m -> sid ∉ JsMap.keys m -> count_joining sid tid m = 0%nat.
Proof.
  intros [_ Hm] Hk. unfold count_joining, ConnectionSystem.all_connections.
  induction Hm as [ | [k0 v0] m H0 Hm IH]; simpl; [done|].
  simpl in Hk. apply not_elem_of_cons in Hk as [Hne Hk].
  rewrite List.filter_app, length_app, (IH Hk), filter_joins_none; [done|].
  simpl in H0. eapply Forall_impl; [exact H0|]. simpl. congruence.
Qed.

(** The connections from [sid] to [tid] are those of the bucket of [sid]. *)
Lemma count_joining_bucket sid tid m :
  store_ok m ->
  count_joining sid tid m =
  length (List.filter (joins sid tid) (default [] (JsMap.get sid m))).
Proof.
  intros [Hnd Hm]. unfold count_joining, ConnectionSystem.all_connections.
  induction Hm as [ | [k0 v0] m H0 Hm IH]; simpl; [done|].
  simpl in Hnd. apply NoDup_cons in Hnd as [Hk0 Hnd].
  rewrite List.filter_app, length_app.
  destruct (strict_eq k0 sid) eqn:Hk.
  - apply strict_eq_iff in Hk as ->. simpl.
    pose proof (count_joining_absent sid tid m (conj Hnd Hm) Hk0) as H.
    unfold count_joining, ConnectionSystem.all_connections in H. rewrite H. lia.
  - rewrite (IH Hnd), filter_joins_none; [done|].
    apply strict_eq_false_iff in Hk.
    simpl in H0. eapply Forall_impl; [exact H0|]. simpl. congruence.
Qed.

(** ** The connection tool *)

Section ConnectionSystem_facts.
Import ConnectionSystem.
Context (E : Env).

Arguments id_of : simpl never.
Arguments connectionExists : simpl never.
Arguments push_to_bucket : simpl never.
Arguments push_connection : simpl never.

Lemma id_of_ok w l n : heap w !! l = Some n -> id_of l w = Ok (Node.id n) w.
Proof. intros H. unfold id_of. mrun. by rewrite (deref_ok _ _ _ H). Qed.

Lemma connectionExists_eq sid tid w :
  connectionExists sid tid w =
  Ok (existsb (fun conn => strict_eq (Connection.targetId conn) tid)
        (default [] (JsMap.get sid (connections (connectionSystem w))))) w.
Proof.
  unfold connectionExists. mrun.
  by destruct (JsMap.get sid (connections (connectionSystem w))).
Qed.

Lemma push_to_bucket_eq key conn w :
  push_to_bucket key conn w =
  Ok tt (with_connections (add_to_bucket key conn (connections (connectionSystem w))) w).
Proof.
  unfold push_to_bucket, add_to_bucket, JsMap.has. mrun.
  destruct (JsMap.get key (connections (connectionSystem w))) as [bucket|] eqn:Hg; mrun.
  - by rewrite Hg.
  - rewrite JsMap_get_set_eq. mrun. by rewrite JsMap_set_set.
Qed.

Lemma push_connection_inv l v w u w' :
  push_connection l v w = Ok u w' ->
  exists n items,
    heap w !! l = Some n /\ Node.connections n = VArr items /\
    w' = set_heap (<[l := Node.set_connections n (VArr (items ++ [v]))]> (heap w)) w.
Proof.
  unfold push_connection. mrun. unfold deref.
  destruct (heap w !! l) as [n|]; [|discriminate]. mrun.
  destruct (Node.connections n) eqn:Hc; try discriminate. mrun.
  unfold assign, modify. intros [= <-]. eauto.
Qed.

(** What a successful [connect] did. *)
Lemma connect_created_inv (w w1 : World) (s t : loc) (c : Connection.t) :
  connect E s t w = Ok (Some c) w1 ->
  exists ns nt ns1 nt1,
    heap w !! s = Some ns /\ heap w !! t = Some nt /\
    Node.id ns <> Node.id nt /\
    existsb (fun conn => strict_eq (Connection.targetId conn) (Node.id nt))
      (default [] (JsMap.get (Node.id ns) (connections (connectionSystem w)))) = false /\
    Connection.sourceId c = Node.id ns /\ Connection.targetId c = Node.id nt /\
    connections (connectionSystem w1) =
      add_to_bucket (Node.id ns) c (connections (connectionSystem w)) /\
    heap w1 !! s = Some ns1 /\ heap w1 !! t = Some nt1 /\
    Node.id ns1 = Node.id ns /\ Node.id nt1 = Node.id nt.
Proof.
  unfold connect, finishConnection. mrun.
  destruct (heap w !! s) as [ns|] eqn:Hs.
  2:{ unfold id_of. mrun. unfold deref. cbn. by rewrite Hs. }
  destruct (heap w !! t) as [nt|] eqn:Ht.
  2:{ rewrite (id_of_ok _ _ ns) by exact Hs. mrun.
      unfold id_of. mrun. unfold deref. cbn. by rewrite Ht. }
  rewrite (id_of_ok _ _ ns) by exact Hs. mrun.
  rewrite (id_of_ok _ _ nt) by exact Ht. mrun.
  destruct (strict_eq (Node.id ns) (Node.id nt)) eqn:Hne; [discriminate|].
  mrun. rewrite !(id_of_ok _ _ ns) by exact Hs. mrun.
  rewrite !(id_of_ok _ _ nt) by exact Ht. mrun.
  rewrite connectionExists_eq. mrun.
  match goal with |- context [existsb ?f ?l] => destruct (existsb f l) eqn:Hdup end;
    [discriminate|].
  mrun. rewrite !(id_of_ok _ _ ns) by exact Hs. mrun.
  rewrite !(id_of_ok _ _ nt) by exact Ht. mrun.
  rewrite !(id_of_ok _ _ ns) by exact Hs. mrun.
  rewrite push_to_bucket_eq. mrun.
  match goal with |- context [push_connection s ?v ?w0] =>
    destruct (push_connection s v w0) as [u wa|] eqn:Hps; [|discriminate] end.
  apply push_connection_inv in Hps as (ns' & items_s & Hs' & Hcs & ->).
  cbn in Hs'. rewrite Hs in Hs'. injection Hs' as <-.
  mrun.
  match goal with |- context [push_connection t ?v ?w0] =>
    destruct (push_connection t v w0) as [u' wb|] eqn:Hpt; [|discriminate] end.
  apply push_connection_inv in Hpt as (nt' & items_t & Ht' & Hct & ->).
  cbn in Ht'. mrun.
  intros [= <- <-]. cbn.
  assert (Hst : s <> t).
  { intros ->. rewrite Hs in Ht. injection Ht as ->.
    by rewrite strict_eq_refl in Hne. }
  rewrite list_lookup_insert_ne in Ht' by done.
  rewrite Ht in Ht'. injection Ht' as <-.
  exists ns, nt,
    (Node.set_connections ns (VArr (items_s ++ [generateId E (ids w)]))),
    (Node.set_connections nt (VArr (items_t ++ [generateId E (ids w)]))).
  split_and!; try done.
  - by apply strict_eq_false_iff.
  - rewrite list_lookup_insert_ne by done.
    apply list_lookup_insert_eq. by eapply lookup_lt_Some.
  - apply list_lookup_insert_eq. rewrite length_insert. by eapply lookup_lt_Some.
Qed.

(** C7.  For a node [n] and any state of the connection graph,
    [startConnection(n)] and then [finishConnection(n)] returns null; the
    stored connections and the heap of nodes (so the connection-id lists of
    the node) are as before, and the tool is idle again. *)
Theorem finishConnection_self (w : World) (n : loc) :
  is_Some (heap w !! n) ->
  exists w',
    connect E n n w = Ok None w' /\
    connections (connectionSystem w') = connections (connectionSystem w) /\
    heap w' = heap w /\
    isConnecting (connectionSystem w') = false /\
    connectionStart (connectionSystem w') = None /\
    tempConnectionEnd (connectionSystem w') = None.
Proof.
  intros [node Hn].
  unfold connect, finishConnection. mrun.
  rewrite (id_of_ok _ _ node) by exact Hn. mrun.
  rewrite (id_of_ok _ _ node) by exact Hn.
  rewrite strict_eq_refl. mrun.
  eexists. split; [reflexivity|]. done.
Qed.

Lemma existsb_false_filter_joins sid tid conns :
  existsb (fun conn => strict_eq (Connection.targetId conn) tid) conns = false ->
  List.filter (joins sid tid) conns = [].
Proof.
  induction conns as [ | c conns IH]; simpl; [done|].
  intros [Hc Hrest]%orb_false_iff. unfold joins at 1.
  rewrite Hc, andb_false_r. by apply IH.
Qed.

(** C6.  Once [startConnection(s)], [finishConnection(t)] has created a
    connection, the same two calls again return null and leave the store as
    it is, with exactly one connection from [s.id] to [t.id]; the caller is
    told the connection exists. *)
Theorem finishConnection_duplicate (w w1 : World) (s t : loc) (c : Connection.t) :
  store_ok (connections (connectionSystem w)) ->
  connect E s t w = Ok (Some c) w1 ->
  exists ns nt w2,
    heap w1 !! s = Some ns /\ heap w1 !! t = Some nt /\
    Node.id ns <> Node.id nt /\
    connect E s t w1 = Ok None w2 /\
    connections (connectionSystem w2) = connections (connectionSystem w1) /\
    heap w2 = heap w1 /\
    notifications w2 = notifications w1 ++ [("Connection already exists", "error")] /\
    count_joining (Node.id ns) (Node.id nt) (connections (connectionSystem w2)) = 1%nat.
Proof.
  intros Hok Hrun.
  apply connect_created_inv in Hrun
    as (ns & nt & ns1 & nt1 & Hs & Ht & Hne & Hdup & Hcs & Hct & Hm & Hs1 & Ht1 & Hi & Hj).
  exists ns1, nt1. rewrite Hi, Hj.
  assert (Hbucket : JsMap.get (Node.id ns) (connections (connectionSystem w1))
                    = Some (default [] (JsMap.get (Node.id ns)
                                          (connections (connectionSystem w))) ++ [c])).
  { rewrite Hm. apply JsMap_get_set_eq. }
  unfold connect, finishConnection. mrun.
  rewrite (id_of_ok _ _ ns1) by exact Hs1. mrun.
  rewrite (id_of_ok _ _ nt1) by exact Ht1. mrun.
  rewrite Hi, Hj. apply strict_eq_false_iff in Hne as Hne'. rewrite Hne'. mrun.
  rewrite !(id_of_ok _ _ ns1) by exact Hs1. mrun.
  rewrite !(id_of_ok _ _ nt1) by exact Ht1. mrun.
  rewrite connectionExists_eq. mrun. rewrite Hi, Hj, Hbucket. cbn.
  rewrite existsb_app. cbn. rewrite Hct, strict_eq_refl, orb_true_r. mrun.
  eexists. split_and!; try done.
  rewrite count_joining_bucket.
  - cbn. rewrite Hbucket. cbn. rewrite List.filter_app, length_app.
    rewrite existsb_false_filter_joins by exact Hdup.
    cbn. unfold joins. by rewrite Hcs, Hct, !strict_eq_refl.
  - cbn. rewrite Hm. by apply store_ok_add.
Qed.

Lemma push_connection_connections l v w :
  connectionSystem (world_after (push_connection l v) w) = connectionSystem w.
Proof.
  unfold world_after, push_connection. rewrite bind_step. unfold deref.
  destruct (heap w !! l) as [n|]; [|done]. rewrite bind_step.
  by destruct (array_push (Node.connections n) v).
Qed.

(** [finishConnection] leaves the store as it is or adds one connection to
    the bucket of its source id; the store stays keyed by source id. *)
Lemma finishConnection_store_ok (w : World) (targetNode : option loc) :
  store_ok (connections (connectionSystem w)) ->
  store_ok (connections (connectionSystem (world_after (finishConnection E targetNode) w))).
Proof.
  intros Hok. unfold world_after, finishConnection. mrun.
  destruct (isConnecting (connectionSystem w)); [|done].
  destruct (connectionStart (connectionSystem w)) as [start|]; [|done].
  destruct targetNode as [target|]; [|done].
  mrun.
  destruct (heap w !! start) as [ns|] eqn:Hs.
  2:{ unfold id_of. mrun. unfold deref. by rewrite Hs. }
  rewrite !(id_of_ok _ _ ns) by exact Hs. mrun.
  destruct (heap w !! target) as [nt|] eqn:Ht.
  2:{ unfold id_of. mrun. unfold deref. by rewrite Ht. }
  rewrite !(id_of_ok _ _ nt) by exact Ht. mrun.
  destruct (strict_eq (Node.id ns) (Node.id nt)); [done|].
  mrun. rewrite !(id_of_ok _ _ ns) by exact Hs. mrun.
  rewrite !(id_of_ok _ _ nt) by exact Ht. mrun.
  rewrite connectionExists_eq. mrun.
  match goal with |- context [existsb ?f ?l] => destruct (existsb f l) end; [done|].
  mrun. rewrite !(id_of_ok _ _ ns) by exact Hs. mrun.
  rewrite !(id_of_ok _ _ nt) by exact Ht. mrun.
  rewrite !(id_of_ok _ _ ns) by exact Hs. mrun.
  rewrite push_to_bucket_eq. mrun.
  match goal with |- context [push_connection start ?v ?w0] =>
    pose proof (push_connection_connections start v w0) as Hps;
    unfold world_after in Hps;
    destruct (push_connection start v w0) as [u wa|wa] end;
    cbn in Hps.
  2:{ rewrite Hps. cbn. by apply (store_ok_add _ _ _ Hok). }
  mrun.
  match goal with |- context [push_connection target ?v ?w0] =>
    pose proof (push_connection_connections target v w0) as Hpt;
    unfold world_after in Hpt;
    destruct (push_connection target v w0) as [u' wb|wb] end;
    cbn in Hpt; rewrite Hps in Hpt.
  2:{ rewrite Hpt. cbn. by apply (store_ok_add _ _ _ Hok). }
  mrun. rewrite Hpt. cbn. by apply (store_ok_add _ _ _ Hok).
Qed.

End ConnectionSystem_facts.


Lemma connect_demo : connect demo_env 1 2 demo_world = Ok (Some demo_connection) connected_world.
Proof. vm_compute. reflexivity. Qed.


Lemma finishConnection_self_witness :
  exists w',
    connect demo_env 1 1 demo_world = Ok None w' /\
    connections (connectionSystem w') = connections (connectionSystem demo_world) /\
    heap w' = heap demo_world /\
    isConnecting (connectionSystem w') = false /\
    connectionStart (connectionSystem w') = None /\
    tempConnectionEnd (connectionSystem w') = None.
Proof.
  apply (finishConnection_self demo_env demo_world 1). eexists. reflexivity.
Defined.

Lemma finishConnection_duplicate_witness :
  exists ns nt w2,
    heap connected_world !! 1%nat = Some ns /\ heap connected_world !! 2%nat = Some nt /\
    Node.id ns <> Node.id nt /\
    connect demo_env 1 2 connected_world = Ok None w2 /\
    connections (connectionSystem w2) = connections (connectionSystem connected_world) /\
    heap w2 = heap connected_world /\
    notifications w2 =
      notifications connected_world ++ [("Connection already exists", "error")] /\
    count_joining (Node.id ns) (Node.id nt) (connections (connectionSystem w2)) = 1%nat.
Proof.
  apply (finishConnection_duplicate demo_env demo_world connected_world 1 2 demo_connection).
  - apply store_ok_nil.
  - apply connect_demo.
Defined.

(** ** Importing the connection list *)

Lemma get_add_to_bucket k c m :
  JsMap.get k (add_to_bucket (Connection.sourceId c) c m) =
  if strict_eq (Connection.sourceId c) k
  then Some (default [] (JsMap.get k m) ++ [c])
  else JsMap.get k m.
Proof.
  unfold add_to_bucket. destruct (strict_eq (Connection.sourceId c) k) eqn:Hk.
  - apply strict_eq_iff in Hk as <-. apply JsMap_get_set_eq.
  - apply strict_eq_false_iff in Hk. by apply JsMap_get_set_ne.
Qed.

Lemma get_add_all k conns : forall m,
  JsMap.get k (add_all conns m) =
  match JsMap.get k m, leaving k conns with
  | None, [] => None
  | o, b => Some (default [] o ++ b)
  end.
Proof.
  unfold add_all, leaving.
  induction conns as [ | c conns IH]; intros m; simpl.
  - destruct (JsMap.get k m); simpl; by rewrite ?app_nil_r.
  - rewrite IH, get_add_to_bucket.
    destruct (strict_eq (Connection.sourceId c) k); simpl.
    + rewrite <- app_assoc. simpl. by destruct (JsMap.get k m).
    + done.
Qed.

Lemma store_ok_add_all conns : forall m, store_ok m -> store_ok (add_all conns m).
Proof.
  unfold add_all. induction conns as [ | c conns IH]; intros m Hm; simpl; [done|].
  apply IH. by apply store_ok_add.
Qed.

Lemma all_connections_add k c m :
  ConnectionSystem.all_connections (add_to_bucket k c m)
  ≡ₚ c :: ConnectionSystem.all_connections m.
Proof.
  unfold add_to_bucket, ConnectionSystem.all_connections.
  induction m as [ | [k' v'] m IH]; simpl; [done|].
  destruct (strict_eq k' k) eqn:Hk; simpl.
  - rewrite <- app_assoc. simpl. by rewrite <- Permutation_middle.
  - rewrite IH. by rewrite <- Permutation_middle.
Qed.

Section importFromJSON_facts.
Import ConnectionSystem.
Context (E : Env).

Arguments push_to_bucket : simpl never.

Lemma Connection_fromJSON_ok d w :
  readable d ->
  exists c, Connection.fromJSON E d w = Ok c (set_ticks (S (ticks w)) (set_ids (S (ids w)) w)).
Proof.
  intros [Hn Hu]. unfold Connection.fromJSON, read.
  destruct d; try done; mrun; eauto.
Qed.

Lemma import_loop items : forall w,
  Forall readable items ->
  exists conns w',
    forEach (fun connData =>
               let* conn := Connection.fromJSON E connData in
               push_to_bucket (Connection.sourceId conn) conn) items w = Ok tt w' /\
    Forall2 (fun d c => exists w0 w0', Connection.fromJSON E d w0 = Ok c w0') items conns /\
    connections (connectionSystem w') = add_all conns (connections (connectionSystem w)) /\
    heap w' = heap w /\ nodeSystem w' = nodeSystem w /\
    notifications w' = notifications w /\
    isConnecting (connectionSystem w') = isConnecting (connectionSystem w) /\
    connectionStart (connectionSystem w') = connectionStart (connectionSystem w).
Proof.
  induction items as [ | d items IH]; intros w Hall.
  - exists [], w. by split_and!.
  - apply Forall_cons in Hall as [Hd Hall].
    destruct (Connection_fromJSON_ok d w Hd) as [c Hc].
    cbn [forEach]. rewrite bind_step, bind_step, Hc. cbv beta iota.
    rewrite push_to_bucket_eq.
    match goal with |- context [forEach ?f items ?w0] =>
      destruct (IH w0 Hall) as (conns & w' & Hrun & Hconns & Hm & Hh & Hn & Hnot & Hic & Hcs) end.
    exists (c :: conns), w'. split_and!; try done.
    constructor; eauto.
Qed.

Lemma Connection_fromJSON_eq d w :
  readable d ->
  Connection.fromJSON E d w =
  Ok (listed_connection (now E (ticks w)) d)
     (set_ticks (S (ticks w)) (set_ids (S (ids w)) w)).
Proof.
  intros [Hn Hu]. unfold Connection.fromJSON, read, listed_connection, field_of, js_or.
  destruct d; try done; mrun; reflexivity.
Qed.

Lemma Connection_fromJSON_throws d w :
  ~ readable d -> Connection.fromJSON E d w = Throw w.
Proof.
  intros Hd. unfold Connection.fromJSON, read.
  destruct d; try reflexivity; exfalso; apply Hd; split; discriminate.
Qed.

Lemma all_connections_add_all conns : forall m,
  all_connections (add_all conns m) ≡ₚ all_connections m ++ conns.
Proof.
  unfold add_all. induction conns as [ | c conns IH]; intros m; simpl.
  - by rewrite app_nil_r.
  - rewrite IH, all_connections_add. by rewrite <- Permutation_middle.
Qed.

(** The loop of [importFromJSON] over readable elements. *)
Lemma import_loop_listed items : forall w,
  Forall readable items ->
  exists w',
    forEach (fun connData =>
               let* conn := Connection.fromJSON E connData in
               push_to_bucket (Connection.sourceId conn) conn) items w = Ok tt w' /\
    connections (connectionSystem w') =
      add_all (listed_connections E (ticks w) items) (connections (connectionSystem w)) /\
    heap w' = heap w /\ nodeSystem w' = nodeSystem w /\
    notifications w' = notifications w.
Proof.
  induction items as [ | d items IH]; intros w Hall.
  - exists w. by split_and!.
  - apply Forall_cons in Hall as [Hd Hall].
    cbn [forEach]. rewrite bind_step, bind_step, (Connection_fromJSON_eq d w Hd).
    cbv beta iota. rewrite push_to_bucket_eq.
    match goal with |- context [forEach ?f items ?w0] =>
      destruct (IH w0 Hall) as (w' & Hrun & Hm & Hh & Hn & Hno) end.
    exists w'. rewrite Hm. by split_and!.
Qed.

(** The loop stops at the first element that cannot be read. *)
Lemma import_loop_stops before d after : forall w,
  Forall readable before -> ~ readable d ->
  exists w',
    forEach (fun connData =>
               let* conn := Connection.fromJSON E connData in
               push_to_bucket (Connection.sourceId conn) conn) (before ++ d :: after) w
      = Throw w' /\
    connections (connectionSystem w') =
      add_all (listed_connections E (ticks w) before) (connections (connectionSystem w)).
Proof.
  induction before as [ | d0 before IH]; intros w Hall Hd.
  - exists w. cbn [app forEach]. rewrite bind_step, bind_step.
    rewrite (Connection_fromJSON_throws d w Hd). done.
  - apply Forall_cons in Hall as [Hd0 Hall].
    cbn [app forEach]. rewrite bind_step, bind_step, (Connection_fromJSON_eq d0 w Hd0).
    cbv beta iota. rewrite push_to_bucket_eq.
    match goal with |- context [forEach ?f (before ++ d :: after) ?w0] =>
      destruct (IH w0 Hall Hd) as (w' & Hrun & Hm) end.
    exists w'. split; [done|]. rewrite Hm. reflexivity.
Qed.

(** C10.  [importFromJSON] empties the store before it looks at its
    argument.  With null, undefined or anything that is no array the store
    is left empty.  With an array whose elements are all readable (none is
    null or undefined) the call returns and the store holds exactly the
    connections that the array lists: each element gives the connection
    with its id, source and target and with its type, label, condition and
    metadata or their defaults, and every bucket holds the listed
    connections that leave its key, in the order of the array.  With an
    array that has an unreadable element the call throws at the first such
    element, and the store holds the connections listed before it. *)
Theorem importFromJSON_replaces (w : World) (data : value) :
  (isArray data = false ->
   importFromJSON E data w = Ok tt (with_connections [] w)) /\
  (forall items, data = VArr items -> Forall readable items ->
   exists w',
     importFromJSON E data w = Ok tt w' /\
     (forall k, JsMap.get k (connections (connectionSystem w'))
                = grouped k (listed_connections E (ticks w) items)) /\
     all_connections (connections (connectionSystem w'))
       ≡ₚ listed_connections E (ticks w) items /\
     store_ok (connections (connectionSystem w'))) /\
  (forall before d after,
     data = VArr (before ++ d :: after) -> Forall readable before -> ~ readable d ->
   exists w',
     importFromJSON E data w = Throw w' /\
     (forall k, JsMap.get k (connections (connectionSystem w'))
                = grouped k (listed_connections E (ticks w) before)) /\
     all_connections (connections (connectionSystem w'))
       ≡ₚ listed_connections E (ticks w) before).
Proof.
  split_and!.
  - intros Hna. unfold importFromJSON. mrun. rewrite Hna, andb_false_r. done.
  - intros items -> Hall. unfold importFromJSON. mrun.
    match goal with |- context [forEach ?f items ?w0] =>
      destruct (import_loop_listed items w0 Hall) as (w' & Hrun & Hm & _) end.
    exists w'. cbn in Hm. split_and!; try done.
    + intros k. rewrite Hm, get_add_all. cbn. unfold grouped.
      by destruct (leaving k _).
    + by rewrite Hm, all_connections_add_all.
    + rewrite Hm. apply store_ok_add_all, store_ok_nil.
  - intros before d after -> Hall Hd. unfold importFromJSON. mrun.
    match goal with |- context [forEach ?f (before ++ d :: after) ?w0] =>
      destruct (import_loop_stops before d after w0 Hall Hd) as (w' & Hrun & Hm) end.
    exists w'. cbn in Hm. split_and!; try done.
    + intros k. rewrite Hm, get_add_all. cbn. unfold grouped.
      by destruct (leaving k _).
    + by rewrite Hm, all_connections_add_all.
Qed.

End importFromJSON_facts.

(** An array with null between two records: the import throws at the null,
    and the store holds the first record's connection only, not the two
    that the array lists. *)
Lemma importFromJSON_stops_at_null :
  exists w',
    ConnectionSystem.importFromJSON demo_env
      (VArr [flow_record; VNull; flow_record]) connected_world = Throw w' /\
    connections (connectionSystem w') =
      [(VStr "n2",
        [Connection.Make (VStr "c1") (VStr "n2") (VStr "n3") (VStr "normal")
           (VStr "flow") VNull (VObj [("createdAt", VNum 1)])])].
Proof. eexists. split; reflexivity. Qed.

Lemma importFromJSON_replaces_witness :
  ConnectionSystem.importFromJSON demo_env VNull connected_world
    = Ok tt (with_connections [] connected_world) /\
  (exists w',
    ConnectionSystem.importFromJSON demo_env (VArr records_to_import) connected_world
      = Ok tt w' /\
    (forall k, JsMap.get k (connections (connectionSystem w'))
               = grouped k (listed_connections demo_env (ticks connected_world)
                              records_to_import)) /\
    ConnectionSystem.all_connections (connections (connectionSystem w'))
      ≡ₚ listed_connections demo_env (ticks connected_world) records_to_import /\
    store_ok (connections (connectionSystem w'))) /\
  (exists w',
    ConnectionSystem.importFromJSON demo_env
      (VArr ([flow_record] ++ VNull :: [flow_record])) connected_world = Throw w' /\
    (forall k, JsMap.get k (connections (connectionSystem w'))
               = grouped k (listed_connections demo_env (ticks connected_world)
                              [flow_record])) /\
    ConnectionSystem.all_connections (connections (connectionSystem w'))
      ≡ₚ listed_connections demo_env (ticks connected_world) [flow_record]).
Proof.
  split_and!.
  - apply (importFromJSON_replaces demo_env connected_world VNull). reflexivity.
  - apply (importFromJSON_replaces demo_env connected_world (VArr records_to_import));
      [reflexivity|].
    repeat constructor; discriminate.
  - destruct (importFromJSON_replaces demo_env connected_world
                (VArr ([flow_record] ++ VNull :: [flow_record]))) as (_ & _ & H).
    apply (H [flow_record] VNull [flow_record]);
      [reflexivity | repeat constructor; discriminate | ].
    intros [Hnull _]. by apply Hnull.
Defined.

(** ** Serialization *)

Section Serialization_facts.
Context (E : Env).

Lemma select_map {A} (f : value -> M A) k fields :
  Node.select k (map (fun kv => (fst kv, f (snd kv))) fields) =
  match assoc k fields with Some v => f v | None => throw end.
Proof.
  induction fields as [ | [k' v] fields IH]; simpl; [done|].
  by destruct (bool_decide (k' = k)).
Qed.

(** [Node.fromJSON] as the source writes it. *)
Lemma fromJSON_unfold (data : value) (w : World) :
  Node.fromJSON E data w =
  (let* dname := read data "name" in
   let* dtype := read data "type" in
   let* dx := read data "x" in
   let* dy := read data "y" in
   let* node := Node.new E dname dtype dx dy in
   let* did := read data "id" in
   let node := Node.Make did (Node.name node) (Node.type node) (Node.x node)
                 (Node.y node) (Node.children node) (Node.connections node)
                 (Node.metadata node) in
   let* dconnections := read data "connections" in
   let node := Node.set_connections node (js_or dconnections (VArr [])) in
   let* dmetadata := read data "metadata" in
   let node := Node.set_metadata node (js_or dmetadata (Node.metadata node)) in
   let* dchildren := read data "children" in
   if truthy dchildren then
     let* cs := Node.array_map (Node.fromJSON E) dchildren in
     ret (Node.Tree (Node.set_children node cs))
   else ret (Node.Tree node)) w.
Proof.
  destruct data; try reflexivity.
  cbn -[Node.array_map]. rewrite select_map.
  destruct (assoc "children" fields) as [v|]; reflexivity.
Qed.

End Serialization_facts.

Lemma plain_node_record_nested_ind (P : value -> Prop) :
  (forall fields items dconnections dmetadata,
      has_exactly node_keys fields ->
      assoc "children" fields = Some (VArr items) ->
      Forall plain_node_record items -> Forall P items ->
      assoc "connections" fields = Some dconnections -> truthy dconnections = true ->
      assoc "metadata" fields = Some dmetadata -> truthy dmetadata = true ->
      P (VObj fields)) ->
  forall x, plain_node_record x -> P x.
Proof.
  intros H. fix IH 2. intros x Hx.
  destruct Hx as [fields items dc dm Hk Hc Hitems Hdc Htc Hdm Htm].
  apply (H fields items dc dm); try assumption.
  clear -IH Hitems.
  induction Hitems as [ | y l Hy Hl IHl];
    [apply Forall_nil_2 | apply Forall_cons_2; [exact (IH y Hy) | exact IHl]].
Qed.

Lemma same_refl v : same v v.
Proof.
  induction v as [ | | b | q | s | items IH | fields IH] using value_ind_nested;
    try (by apply same_prim).
  - apply same_arr. by apply Forall_Forall2_diag.
  - apply same_obj. intros k.
    induction IH as [ | [k' v] fields Hv _ IH]; simpl; [constructor|].
    destruct (bool_decide (k' = k)); [by constructor | exact IH].
Qed.

Lemma assoc_None k fields : k ∉ map fst fields -> assoc k fields = None.
Proof.
  induction fields as [ | [k' v] fields IH]; simpl; [done|].
  intros [Hne Hk]%not_elem_of_cons.
  rewrite bool_decide_eq_false_2 by done. by apply IH.
Qed.

Lemma assoc_Some k fields : k ∈ map fst fields -> is_Some (assoc k fields).
Proof.
  induction fields as [ | [k' v] fields IH]; simpl.
  - by intros ?%elem_of_nil.
  - intros Hk. case_bool_decide; [eauto|].
    apply elem_of_cons in Hk as [->|Hk]; [done | by apply IH].
Qed.

(** Two records with the same keys and field-for-field equal values. *)
Lemma same_records canon fields :
  has_exactly (map fst canon) fields ->
  (forall k v v', assoc k canon = Some v -> assoc k fields = Some v' -> same v v') ->
  same (VObj canon) (VObj fields).
Proof.
  intros Hkeys Hsame. apply same_obj. intros k. specialize (Hkeys k).
  case_bool_decide as Hk.
  - destruct Hkeys as (v' & Hv' & _).
    destruct (assoc_Some k canon Hk) as [v Hv].
    rewrite Hv, Hv'. constructor. by eapply Hsame.
  - rewrite Hkeys, (assoc_None k canon Hk). constructor.
Qed.

Lemma has_exactly_present keys fields k :
  has_exactly keys fields -> k ∈ keys ->
  exists v, assoc k fields = Some v /\ v <> VUndef /\ get (VObj fields) k = Some v.
Proof.
  intros H Hk. specialize (H k). rewrite bool_decide_eq_true_2 in H by done.
  destruct H as (v & Hv & Hu). exists v. split_and!; try done.
  simpl. by rewrite Hv.
Qed.

Ltac in_keys := apply (bool_decide_unpack _); vm_compute; exact I.

Lemma js_or_kept v d : kept_by_or v d -> js_or v d = v.
Proof. unfold js_or. intros [-> | ->]; [done | by destruct (truthy d)]. Qed.

Lemma node_record_nested_ind (P : value -> Prop) :
  (forall fields items,
      has_exactly node_keys fields ->
      assoc "children" fields = Some (VArr items) ->
      Forall node_record items -> Forall P items ->
      P (VObj fields)) ->
  forall x, node_record x -> P x.
Proof.
  intros H. fix IH 2. intros x Hx.
  destruct Hx as [fields items Hk Hc Hitems].
  apply (H fields items); try assumption.
  clear -IH Hitems.
  induction Hitems as [ | y l Hy Hl IHl];
    [apply Forall_nil_2 | apply Forall_cons_2; [exact (IH y Hy) | exact IHl]].
Qed.

Section Roundtrip_facts.
Context (E : Env).

Lemma connection_roundtrip (c : value) (w : World) :
  plain_connection_record c ->
  exists k w', Connection.fromJSON E c w = Ok k w' /\ same (Connection.toJSON k) c.
Proof.
  intros (fields & dtype & dlabel & dcond & dmeta & -> & Hkeys & Ht & Htt & Hl & Hll
          & Hc & Hcc & Hm & Hmm).
  destruct (has_exactly_present _ _ "id" Hkeys) as (did & Hid & _ & Gid); [in_keys|].
  destruct (has_exactly_present _ _ "sourceId" Hkeys) as (ds & Hs & _ & Gs); [in_keys|].
  destruct (has_exactly_present _ _ "targetId" Hkeys) as (dt & Htg & _ & Gt); [in_keys|].
  unfold Connection.fromJSON, read. simpl get. rewrite Hid, Hs, Htg, Ht, Hl, Hc, Hm.
  mrun. eexists _, _. split; [reflexivity|].
  rewrite !js_or_kept by (done || by left).
  apply same_records; [exact Hkeys|].
  intros k v v' Hv Hv'. simpl in Hv.
  repeat case_bool_decide; simplify_eq; apply same_refl.
Qed.

Lemma mapM_Forall {A B} (f : A -> M B) (R : B -> A -> Prop) items :
  Forall (fun d => forall w, exists n w', f d w = Ok n w' /\ R n d) items ->
  forall w, exists ns w', mapM f items w = Ok ns w' /\ Forall2 R ns items.
Proof.
  induction 1 as [ | d items Hd _ IH]; intros w; simpl.
  - exists [], w. split; [done | constructor].
  - destruct (Hd w) as (n & w1 & Hn & HR).
    destruct (IH w1) as (ns & w2 & Hns & HRs).
    exists (n :: ns), w2. rewrite bind_step, Hn, bind_step, Hns.
    split; [done | by constructor].
Qed.

Lemma default_arg_defined a d : a <> VUndef -> default_arg a d = a.
Proof. by destruct a. Qed.

Lemma node_roundtrip (x : value) :
  plain_node_record x ->
  forall w, exists n w', Node.fromJSON E x w = Ok n w' /\ same (Node.toJSON n) x.
Proof.
  induction 1 as [fields items dconns dmeta Hkeys Hch _ IH Hc Hct Hm Hmt]
    using plain_node_record_nested_ind.
  intros w. rewrite fromJSON_unfold.
  destruct (has_exactly_present _ _ "id" Hkeys) as (did & Hid & _ & Gid); [in_keys|].
  destruct (has_exactly_present _ _ "name" Hkeys) as (dname & Hname & _ & Gname); [in_keys|].
  destruct (has_exactly_present _ _ "type" Hkeys) as (dtype & Htype & Utype & Gtype); [in_keys|].
  destruct (has_exactly_present _ _ "x" Hkeys) as (dx & Hx & Ux & Gx); [in_keys|].
  destruct (has_exactly_present _ _ "y" Hkeys) as (dy & Hy & Uy & Gy); [in_keys|].
  unfold read. simpl get. rewrite Hid, Hname, Htype, Hx, Hy, Hch, Hc, Hm.
  mrun. rewrite !default_arg_defined by done.
  unfold js_or. rewrite Hct, Hmt.
  match goal with |- context [mapM _ items ?w0] =>
    destruct (mapM_Forall (Node.fromJSON E) (fun n d => same (Node.toJSON n) d) items IH w0)
      as (ns & w' & Hns & Hsame) end.
  rewrite Hns. mrun.
  eexists _, _. split; [reflexivity|].
  apply same_records; [exact Hkeys|].
  intros k v v' Hv Hv'. simpl in Hv.
  repeat case_bool_decide; simplify_eq; try apply same_refl.
  apply same_arr. by apply Forall2_fmap_l.
Qed.

(** What [Connection.fromJSON] makes of a record with all fields. *)
Lemma connection_parsed (c : value) (w : World) :
  connection_record c ->
  Connection.fromJSON E c w =
  Ok (listed_connection (now E (ticks w)) c)
     (set_ticks (S (ticks w)) (set_ids (S (ids w)) w)).
Proof.
  intros (fields & -> & _).
  unfold Connection.fromJSON, read, listed_connection, field_of, js_or.
  mrun. reflexivity.
Qed.

(** What [Node.fromJSON] makes of a nested record with all fields. *)
Lemma node_parsed (x : value) :
  node_record x ->
  forall w, exists n w', Node.fromJSON E x w = Ok n w' /\ parsed_node E (ticks w) x n.
Proof.
  induction 1 as [fields items Hkeys Hch _ IH] using node_record_nested_ind.
  intros w. rewrite fromJSON_unfold.
  destruct (has_exactly_present _ _ "type" Hkeys) as (dtype & Htype & Utype & Gtype); [in_keys|].
  destruct (has_exactly_present _ _ "x" Hkeys) as (dx & Hx & Ux & Gx); [in_keys|].
  destruct (has_exactly_present _ _ "y" Hkeys) as (dy & Hy & Uy & Gy); [in_keys|].
  unfold read. simpl get. rewrite Htype, Hx, Hy, Hch.
  mrun. rewrite !default_arg_defined by done.
  match goal with |- context [mapM _ items ?w0] =>
    destruct (mapM_Forall (Node.fromJSON E)
                (fun n d => exists t', parsed_node E t' d n) items) with (w := w0)
      as (ns & w' & Hns & Hparsed) end.
  { eapply Forall_impl; [exact IH|]. intros d Hd w0.
    destruct (Hd w0) as (n & w1 & Hn & Hp). eauto. }
  rewrite Hns. mrun.
  eexists _, _. split; [reflexivity|].
  pose proof (parsed_node_intro E (ticks w) (VObj fields) items ns) as Hintro.
  unfold field_of in Hintro. simpl get in Hintro.
  rewrite Htype, Hx, Hy, Hch in Hintro. simpl in Hintro.
  unfold js_or, fresh_metadata. by apply Hintro.
Qed.

(** C1, as the code has it.  Parsing a nested node record and serializing
    the result gives the record again, field for field, when its
    [connections] and [metadata] are truthy at every level; the same holds
    for a connection record whose [type] and [metadata] are truthy, whose
    [label] is truthy or empty and whose [condition] is truthy or null.
    For every record with all fields present the parsers return, and what
    they return is this: a node with the id, name, type, x and y of the
    record, with its connections where they are truthy and the empty array
    where they are falsy, with its metadata where it is truthy and a fresh
    metadata object (empty description and code, two readings of the clock)
    where it is falsy, and with the children parsed in the same way; a
    connection with the id, source and target of the record, and with its
    type, label, condition and metadata where they are truthy, and
    'normal', the empty string, null and a fresh metadata object (one
    reading of the clock) where they are falsy. *)
Theorem toJSON_fromJSON (w : World) :
  (forall x, plain_node_record x ->
     exists n w', Node.fromJSON E x w = Ok n w' /\ same (Node.toJSON n) x) /\
  (forall c, plain_connection_record c ->
     exists k w', Connection.fromJSON E c w = Ok k w' /\ same (Connection.toJSON k) c) /\
  (forall x, node_record x ->
     exists n w', Node.fromJSON E x w = Ok n w' /\ parsed_node E (ticks w) x n) /\
  (forall c, connection_record c ->
     exists k w', Connection.fromJSON E c w = Ok k w' /\
       Connection.id k = field_of c "id" /\
       Connection.sourceId k = field_of c "sourceId" /\
       Connection.targetId k = field_of c "targetId" /\
       Connection.type k =
         (if truthy (field_of c "type") then field_of c "type" else VStr "normal") /\
       Connection.label k =
         (if truthy (field_of c "label") then field_of c "label" else VStr EmptyString) /\
       Connection.condition k =
         (if truthy (field_of c "condition") then field_of c "condition" else VNull) /\
       Connection.metadata k =
         (if truthy (field_of c "metadata") then field_of c "metadata"
          else VObj [("createdAt", VNum (now E (ticks w)))])).
Proof.
  split_and!.
  - intros x Hx. by apply node_roundtrip.
  - intros c Hc. by apply connection_roundtrip.
  - intros x Hx. by apply node_parsed.
  - intros c Hc. eexists _, _. split; [by apply connection_parsed|].
    by split_and!.
Qed.

End Roundtrip_facts.

Lemma assoc_elem k v fields : assoc k fields = Some v -> (k, v) ∈ fields.
Proof.
  induction fields as [ | [k' v'] fields IH]; simpl; [done|].
  case_bool_decide as Hk.
  - intros [= ->]. subst. apply list_elem_of_here.
  - intros H. apply list_elem_of_further. by apply IH.
Qed.

(** A record written out with values that are not undefined has exactly
    the keys it lists. *)
Lemma has_exactly_listed fields :
  Forall (fun kv => snd kv <> VUndef) fields -> has_exactly (map fst fields) fields.
Proof.
  intros Hdef k. case_bool_decide as Hk.
  - destruct (assoc_Some k fields Hk) as [v Hv]. exists v. split; [done|].
    apply assoc_elem in Hv. rewrite Forall_forall in Hdef. exact (Hdef _ Hv).
  - by apply assoc_None.
Qed.

Ltac listed :=
  match goal with
  | |- has_exactly _ ?f =>
      exact (has_exactly_listed f ltac:(repeat constructor; discriminate))
  end.

(** C1 as the specification states it does not hold: all fields are
    present in both records, and the condition [false] comes back as
    [null], the metadata [null] as a fresh metadata object. *)
Lemma roundtrip_changes_falsy_fields :
  (connection_record connection_with_false_condition /\
   exists k w',
     Connection.fromJSON demo_env connection_with_false_condition empty_world = Ok k w' /\
     Connection.condition k = VNull /\
     ~ same (Connection.toJSON k) connection_with_false_condition) /\
  (node_record node_with_null_metadata /\
   exists n w',
     Node.fromJSON demo_env node_with_null_metadata empty_world = Ok n w' /\
     Node.metadata (Node.node_of n) =
       VObj [("description", VStr EmptyString); ("code", VStr EmptyString);
             ("createdAt", VNum 0); ("modifiedAt", VNum 1)] /\
     ~ same (Node.toJSON n) node_with_null_metadata).
Proof.
  split; split.
  - eexists. split; [reflexivity | listed].
  - eexists _, _. split; [vm_compute; reflexivity|]. split; [reflexivity|].
    intros H. inversion H as [ | | f1 f2 Hk]. subst.
    specialize (Hk "condition"). vm_compute in Hk.
    inversion Hk as [a b Hab | ]. subst. inversion Hab.
  - econstructor; [listed | reflexivity | constructor].
  - eexists _, _. split; [vm_compute; reflexivity|].
    split; [cbn; repeat f_equal; apply Qc_is_canon; reflexivity|].
    intros H. inversion H as [ | | f1 f2 Hk]. subst.
    specialize (Hk "metadata"). vm_compute in Hk.
    inversion Hk as [a b Hab | ]. subst. inversion Hab.
Qed.

Lemma toJSON_fromJSON_witness :
  (exists n w', Node.fromJSON demo_env root_record empty_world = Ok n w' /\
                same (Node.toJSON n) root_record) /\
  (exists k w', Connection.fromJSON demo_env flow_record empty_world = Ok k w' /\
                same (Connection.toJSON k) flow_record) /\
  (exists n w', Node.fromJSON demo_env node_with_null_metadata empty_world = Ok n w' /\
                parsed_node demo_env (ticks empty_world) node_with_null_metadata n) /\
  (exists k w',
     Connection.fromJSON demo_env connection_with_false_condition empty_world = Ok k w' /\
     Connection.id k = field_of connection_with_false_condition "id" /\
     Connection.sourceId k = field_of connection_with_false_condition "sourceId" /\
     Connection.targetId k = field_of connection_with_false_condition "targetId" /\
     Connection.type k = VStr "normal" /\
     Connection.label k = VStr EmptyString /\
     Connection.condition k = VNull /\
     Connection.metadata k = VObj [("createdAt", VNum 1)]).
Proof.
  destruct (toJSON_fromJSON demo_env empty_world) as (Hnode & Hconn & Hparsed & Hlisted).
  split_and!.
  - apply Hnode.
    econstructor; [listed | reflexivity | | reflexivity | reflexivity | reflexivity | reflexivity].
    repeat constructor.
    econstructor; [listed | reflexivity | constructor | reflexivity | reflexivity
                  | reflexivity | reflexivity].
  - apply Hconn.
    eexists _, _, _, _, _. split_and!; try reflexivity; [listed | by left | by right].
  - apply Hparsed. econstructor; [listed | reflexivity | constructor].
  - apply Hlisted. eexists. split; [reflexivity | listed].
Defined.

(** ** Deleting a node *)

Section deleteNode_facts.
Context (E : Env).

(** [findIndex] reads the heap only; the index it finds is that of the
    first child with the id looked for. *)
Lemma findIndex_inv nodeId cs : forall i w r w',
  Node.findIndex nodeId cs i w = Ok r w' ->
  w' = w /\
  match r with
  | Some j =>
      exists child n, (i <= j)%nat /\ cs !! (j - i)%nat = Some child /\
                      heap w !! child = Some n /\ Node.id n = nodeId /\
                      none_has_id (heap w) nodeId (take (j - i) cs)
  | None => True
  end.
Proof.
  induction cs as [ | c cs IH]; intros i w r w'; simpl.
  - intros [= <- <-]. done.
  - rewrite bind_step. unfold deref at 1.
    destruct (heap w !! c) as [n|] eqn:Hc; [|discriminate].
    destruct (strict_eq (Node.id n) nodeId) eqn:Hid.
    + intros [= <- <-]. split; [done|]. exists c, n.
      rewrite Nat.sub_diag. apply strict_eq_iff in Hid.
      split_and!; try done. apply Forall_nil_2.
    + intros Hrest. apply IH in Hrest as [-> Hr]. split; [done|].
      destruct r as [j|]; [|done].
      destruct Hr as (child & n' & Hle & Hj & Hh & Hn & Hfirst).
      exists child, n'.
      replace (j - i)%nat with (S (j - S i)) by lia.
      split_and!; try done; [lia|].
      apply Forall_cons_2; [|exact Hfirst].
      intros n0 Hn0. rewrite Hc in Hn0. injection Hn0 as <-.
      by apply strict_eq_false_iff.
Qed.

(** C3, as the code has it.  When [deleteNode(id)] returns true, the first
    child with that id has left the child list of the current node, and
    nothing else happened to the navigation state or to the connection
    system: the connections that have the deleted node as source or target
    are all still stored. *)
Theorem deleteNode_keeps_connections (w w' : World) (nodeId : value) :
  NodeSystem.deleteNode E nodeId w = Ok true w' ->
  connectionSystem w' = connectionSystem w /\
  nodeSystem w' = nodeSystem w /\
  exists cur self self' index child n,
    currentNode (nodeSystem w) = Some cur /\
    heap w !! cur = Some self /\
    Node.children self !! index = Some child /\
    heap w !! child = Some n /\ Node.id n = nodeId /\
    none_has_id (heap w) nodeId (take index (Node.children self)) /\
    heap w' !! cur = Some self' /\
    Node.children self' = delete index (Node.children self).
Proof.
  unfold NodeSystem.deleteNode. mrun.
  destruct (currentNode (nodeSystem w)) as [cur|] eqn:Hcur; [|discriminate].
  unfold Node.removeChild. rewrite bind_step. unfold deref at 1.
  destruct (heap w !! cur) as [self|] eqn:Hself; [|discriminate].
  rewrite bind_step.
  destruct (Node.findIndex nodeId (Node.children self) 0 w) as [r w1|] eqn:Hfind;
    [|discriminate].
  apply findIndex_inv in Hfind as [-> Hr].
  destruct r as [index|]; [|discriminate].
  destruct Hr as (child & n & _ & Hchild & Hn & Hid & Hfirst).
  rewrite Nat.sub_0_r in Hchild, Hfirst.
  mrun. unfold deref at 1. cbn.
  assert (Hlt : (cur < length (heap w))%nat) by by eapply lookup_lt_Some.
  rewrite list_lookup_insert_eq by done. mrun.
  destruct (set_prop (Node.metadata self) "modifiedAt" (VNum (now E (ticks w))))
    as [metadata|]; [|discriminate].
  mrun. intros [= <-]. cbn.
  split_and!; try done.
  exists cur, self. eexists. exists index, child, n.
  split_and!; try done.
  - rewrite list_lookup_insert_eq; [done|]. by rewrite length_insert.
  - done.
Qed.

End deleteNode_facts.

(** C3 as the specification states it does not hold: in the scenario with
    B connected to C, deleting B (or C) succeeds and the connection from B
    to C is still in the store. *)
Lemma deleteNode_leaves_dangling_connection :
  (exists w',
     NodeSystem.deleteNode demo_env (VStr "node_1") connected_world = Ok true w' /\
     demo_connection ∈ ConnectionSystem.all_connections (connections (connectionSystem w')) /\
     Connection.sourceId demo_connection = VStr "node_1") /\
  (exists w',
     NodeSystem.deleteNode demo_env (VStr "node_2") connected_world = Ok true w' /\
     demo_connection ∈ ConnectionSystem.all_connections (connections (connectionSystem w')) /\
     Connection.targetId demo_connection = VStr "node_2").
Proof.
  split; eexists; (split; [vm_compute; reflexivity|]); (split; [|reflexivity]);
    apply list_elem_of_here.
Qed.

Lemma deleteNode_keeps_connections_witness :
  connectionSystem deleted_world = connectionSystem connected_world /\
  nodeSystem deleted_world = nodeSystem connected_world /\
  exists cur self self' index child n,
    currentNode (nodeSystem connected_world) = Some cur /\
    heap connected_world !! cur = Some self /\
    Node.children self !! index = Some child /\
    heap connected_world !! child = Some n /\ Node.id n = VStr "node_1" /\
    none_has_id (heap connected_world) (VStr "node_1") (take index (Node.children self)) /\
    heap deleted_world !! cur = Some self' /\
    Node.children self' = delete index (Node.children self).
Proof.
  apply (deleteNode_keeps_connections demo_env connected_world deleted_world (VStr "node_1")).
  vm_compute. reflexivity.
Defined.

(** ** Navigation *)

Lemma chain_snoc h stack top c :
  chain h stack -> last stack = Some top ->
  (exists n, h !! top = Some n /\ c ∈ Node.children n) ->
  chain h (stack ++ [c]).
Proof.
  intros Hch Hlast Hc. induction stack as [ | p stack IH]; [done|].
  destruct stack as [ | q stack].
  - simpl in *. injection Hlast as ->. done.
  - destruct Hch as [Hp Hrest]. split; [exact Hp|].
    apply IH; [exact Hrest | exact Hlast].
Qed.

Lemma chain_take h stack k : chain h stack -> chain h (take k stack).
Proof.
  revert k. induction stack as [ | p stack IH]; intros k Hch; [by destruct k|].
  destruct k as [ | k]; [done|].
  destruct stack as [ | q stack]; [by destruct k|].
  destruct Hch as [Hp Hrest].
  destruct k as [ | k]; [done|].
  split; [exact Hp|]. exact (IH (S k) Hrest).
Qed.

Lemma take_nonempty {A} (l : list A) k : l <> [] -> (0 < k)%nat -> take k l <> [].
Proof. destruct l, k; simpl; try done; lia. Qed.

Lemma navigateToNode_eq n w :
  NodeSystem.navigateToNode (Some n) w =
  match heap w !! n with
  | Some self =>
      if bool_decide (0 < length (Node.children self))%nat
      then Ok true (set_nodeSystem
                      (Build_NodeSystemState (rootNode (nodeSystem w)) (Some n)
                         (navigationStack (nodeSystem w) ++ [n]) None
                         (hoveredNode (nodeSystem w))) w)
      else Ok false w
  | None => Throw w
  end.
Proof.
  unfold NodeSystem.navigateToNode, Node.hasChildren. rewrite !bind_step.
  unfold deref. destruct (heap w !! n) as [self|]; [|done]. cbn.
  by case_bool_decide.
Qed.

(** What a navigation call does to the navigation state: nothing, a push
    of a node that has children, or a cut of the stack to a shorter one that
    is not empty. *)
Lemma nav_call_cases c w :
  let w' := world_after (nav_call c) w in
  heap w' = heap w /\
  (nodeSystem w' = nodeSystem w \/
   (exists n, c = NavigateToNode (Some n) /\
              navigationStack (nodeSystem w') = navigationStack (nodeSystem w) ++ [n] /\
              currentNode (nodeSystem w') = Some n) \/
   (exists k, (0 < k)%nat /\
              navigationStack (nodeSystem w') = take k (navigationStack (nodeSystem w)) /\
              currentNode (nodeSystem w') = last (take k (navigationStack (nodeSystem w))))).
Proof.
  unfold world_after. destruct c as [[n|] | | index]; cbn [nav_call].
  - rewrite navigateToNode_eq. destruct (heap w !! n) as [self|]; [|by auto].
    case_bool_decide; [|by auto]. cbn. split; [done|]. right. left. by exists n.
  - by auto.
  - unfold NodeSystem.navigateBack. mrun. case_bool_decide as Hlen; [|by auto].
    cbn. split; [done|]. right. right.
    exists (pred (length (navigationStack (nodeSystem w)))).
    rewrite removelast_firstn_len. split_and!; [lia | done | done].
  - unfold NodeSystem.navigateToStackIndex. mrun. case_bool_decide as Hlen; [|by auto].
    cbn. split; [done|]. right. right.
    exists (Z.to_nat (index + 1)). split_and!; [lia | done | done].
Qed.

Lemma nav_call_top c w : current_is_top w -> current_is_top (world_after (nav_call c) w).
Proof.
  intros [Hne Hcur]. unfold current_is_top.
  destruct (nav_call_cases c w) as [_ [-> | [(n & _ & -> & ->) | (k & Hk & -> & ->)]]].
  - by split.
  - split; [by destruct (navigationStack (nodeSystem w)) | by rewrite last_snoc].
  - split; [by apply take_nonempty | done].
Qed.

Lemma nav_call_chain c w :
  current_is_top w -> stack_is_chain w -> drills_into_child w c ->
  stack_is_chain (world_after (nav_call c) w).
Proof.
  intros [Hne Hcur] Hch Hc. unfold stack_is_chain in *.
  destruct (nav_call_cases c w) as [-> [-> | [(n & -> & -> & _) | (k & Hk & -> & _)]]].
  - done.
  - destruct Hc as (cur & node & Hc1 & Hc2 & Hc3).
    eapply chain_snoc; [done | by rewrite <- Hcur | eauto].
  - by apply chain_take.
Qed.

(** C8, as the code has it.  After any sequence of the three navigation
    calls the stack is not empty and the current node is its top.  The stack
    stays a chain of parents and children when every node handed to
    [navigateToNode] is a child of the node current at that call;
    [navigateToNode] itself checks only that its node has children. *)
Theorem navigation_invariant (cmds : list nav_command) (w : World) :
  current_is_top w ->
  current_is_top (nav_run cmds w) /\
  (stack_is_chain w -> drill_into_children cmds w -> stack_is_chain (nav_run cmds w)).
Proof.
  revert w. induction cmds as [ | c cmds IH]; intros w Htop; simpl; [done|].
  destruct (IH _ (nav_call_top c w Htop)) as [Htop' Hchain'].
  split; [exact Htop'|].
  intros Hch [Hc Hrest]. apply Hchain'; [|exact Hrest].
  by apply nav_call_chain.
Qed.

(** [initialize] starts the navigation with the root alone on the stack. *)
Lemma initialize_invariant (E : Env) (domainName : value) (w : World) :
  current_is_top (world_after (NodeSystem.initialize E domainName) w) /\
  stack_is_chain (world_after (NodeSystem.initialize E domainName) w).
Proof. unfold world_after, current_is_top, stack_is_chain. by cbn. Qed.

(** C8 as the specification states it does not hold: in the scenario the
    root has children, so [navigateToNode(root)] pushes the root onto the
    stack above itself, and the root is not among its own children. *)
Lemma navigateToNode_breaks_chain :
  current_is_top demo_world /\ stack_is_chain demo_world /\
  navigationStack (nodeSystem (nav_run [NavigateToNode (Some 0%nat)] demo_world))
    = [0%nat; 0%nat] /\
  ~ stack_is_chain (nav_run [NavigateToNode (Some 0%nat)] demo_world).
Proof.
  split_and!; try done.
  intros [(n & Hn & Hin) _]. vm_compute in Hn. injection Hn as <-.
  cbn in Hin. apply elem_of_cons in Hin as [Hin | Hin]; [discriminate|].
  apply elem_of_cons in Hin as [Hin | Hin]; [discriminate|].
  by apply elem_of_nil in Hin.
Qed.

Lemma navigation_invariant_witness :
  current_is_top (nav_run there_and_back deep_world) /\
  stack_is_chain (nav_run there_and_back deep_world) /\
  navigationStack (nodeSystem (nav_run there_and_back deep_world)) = [0%nat; 1%nat].
Proof.
  assert (Htop : current_is_top deep_world) by (split; [discriminate | reflexivity]).
  destruct (navigation_invariant there_and_back deep_world Htop) as [H1 H2].
  split; [exact H1|]. split; [|reflexivity].
  apply H2; [exact I|].
  repeat split;
    (eexists _, _; split_and!; [reflexivity | reflexivity | apply list_elem_of_here]).
Defined.

(** * Further properties of the code

    The rest of the development covers methods that the statements above
    do not reach, and properties that hold of the code as written. *)

(** ** The connection tool keeps the data model *)

Lemma filter_length_add (f : Connection.t -> bool) k c m :
  length (List.filter f (ConnectionSystem.all_connections (add_to_bucket k c m))) =
  ((if f c then 1 else 0) + length (List.filter f (ConnectionSystem.all_connections m)))%nat.
Proof.
  unfold add_to_bucket, ConnectionSystem.all_connections.
  induction m as [ | [k' v'] m IH]; simpl; [by destruct (f c)|].
  destruct (strict_eq k' k) eqn:Hk; simpl.
  - rewrite !List.filter_app, !length_app. simpl. destruct (f c); simpl; lia.
  - rewrite !List.filter_app, !length_app, IH. lia.
Qed.

Lemma no_empty_bucket_add k c m : no_empty_bucket m -> no_empty_bucket (add_to_bucket k c m).
Proof.
  intros Hm. unfold add_to_bucket.
  apply (Forall_bucket_set (fun _ v => v <> [])); [exact Hm|].
  by destruct (default [] (JsMap.get k m)).
Qed.

(** Adding a connection that is no self-loop and whose pair is not yet
    joined keeps the data model. *)
Lemma connection_model_add c m :
  connection_model m ->
  Connection.sourceId c <> Connection.targetId c ->
  existsb (fun conn => strict_eq (Connection.targetId conn) (Connection.targetId c))
    (default [] (JsMap.get (Connection.sourceId c) m)) = false ->
  connection_model (add_to_bucket (Connection.sourceId c) c m).
Proof.
  intros (Hok & Hne & Hloop & Huniq) Hself Hdup. split_and!.
  - by apply store_ok_add.
  - by apply no_empty_bucket_add.
  - rewrite all_connections_add. by constructor.
  - intros sid tid. unfold count_joining. rewrite filter_length_add.
    destruct (joins sid tid c) eqn:Hj; [|exact (Huniq sid tid)].
    apply andb_true_iff in Hj as [Hs Ht].
    apply strict_eq_iff in Hs, Ht. subst sid tid.
    pose proof (count_joining_bucket (Connection.sourceId c) (Connection.targetId c) m Hok) as Hc.
    unfold count_joining in Hc. rewrite Hc.
    by rewrite existsb_false_filter_joins.
Qed.

Section Tool_facts.
Import ConnectionSystem.
Context (E : Env).

Arguments id_of : simpl never.
Arguments connectionExists : simpl never.
Arguments push_to_bucket : simpl never.
Arguments push_connection : simpl never.

(** What [finishConnection] does to the store, also when it throws on the
    way: nothing, or one connection more that is no self-loop and whose
    pair was not joined before. *)
Lemma finishConnection_store_cases (w : World) (targetNode : option loc) :
  let m := connections (connectionSystem w) in
  let m' := connections (connectionSystem (world_after (finishConnection E targetNode) w)) in
  m' = m \/
  exists c, m' = add_to_bucket (Connection.sourceId c) c m /\
            Connection.sourceId c <> Connection.targetId c /\
            existsb (fun conn => strict_eq (Connection.targetId conn) (Connection.targetId c))
              (default [] (JsMap.get (Connection.sourceId c) m)) = false.
Proof.
  unfold world_after, finishConnection. mrun.
  destruct (isConnecting (connectionSystem w)); [|by left].
  destruct (connectionStart (connectionSystem w)) as [start|]; [|by left].
  destruct targetNode as [target|]; [|by left].
  mrun.
  destruct (heap w !! start) as [ns|] eqn:Hs.
  2:{ unfold id_of. mrun. unfold deref. rewrite Hs. by left. }
  rewrite !(id_of_ok _ _ ns) by exact Hs. mrun.
  destruct (heap w !! target) as [nt|] eqn:Ht.
  2:{ unfold id_of. mrun. unfold deref. rewrite Ht. by left. }
  rewrite !(id_of_ok _ _ nt) by exact Ht. mrun.
  destruct (strict_eq (Node.id ns) (Node.id nt)) eqn:Hne; [by left|].
  mrun. rewrite !(id_of_ok _ _ ns) by exact Hs. mrun.
  rewrite !(id_of_ok _ _ nt) by exact Ht. mrun.
  rewrite connectionExists_eq. mrun.
  match goal with |- context [existsb ?f ?l] => destruct (existsb f l) eqn:Hdup end;
    [by left|].
  mrun. rewrite !(id_of_ok _ _ ns) by exact Hs. mrun.
  rewrite !(id_of_ok _ _ nt) by exact Ht. mrun.
  rewrite !(id_of_ok _ _ ns) by exact Hs. mrun.
  rewrite push_to_bucket_eq. mrun.
  apply strict_eq_false_iff in Hne.
  set (c := Connection.Make (generateId E (ids w)) (Node.id ns) (Node.id nt)
              (VStr "normal") (VStr EmptyString) VNull
              (VObj [("createdAt", VNum (now E (ticks w)))])).
  assert (Hc : exists c0, c0 = c /\ Connection.sourceId c0 <> Connection.targetId c0 /\
            existsb (fun conn => strict_eq (Connection.targetId conn) (Connection.targetId c0))
              (default [] (JsMap.get (Connection.sourceId c0)
                             (connections (connectionSystem w)))) = false)
    by (exists c; done).
  match goal with |- context [push_connection start ?v ?w0] =>
    pose proof (push_connection_connections start v w0) as Hps;
    unfold world_after in Hps;
    destruct (push_connection start v w0) as [u wa|wa] end;
    cbn in Hps.
  2:{ rewrite Hps. cbn. right. destruct Hc as (c0 & -> & ?). by exists c. }
  mrun.
  match goal with |- context [push_connection target ?v ?w0] =>
    pose proof (push_connection_connections target v w0) as Hpt;
    unfold world_after in Hpt;
    destruct (push_connection target v w0) as [u' wb|wb] end;
    cbn in Hpt; rewrite Hps in Hpt.
  2:{ rewrite Hpt. cbn. right. destruct Hc as (c0 & -> & ?). by exists c. }
  mrun. rewrite Hpt. cbn. right. destruct Hc as (c0 & -> & ?). by exists c.
Qed.

Lemma tool_call_model c w :
  connection_model (connections (connectionSystem w)) ->
  connection_model (connections (connectionSystem (world_after (tool_call E c) w))).
Proof.
  intros Hm. destruct c as [src | wx wy | target | ]; unfold world_after; cbn [tool_call].
  - done.
  - unfold updateTempConnection. mrun. by destruct (isConnecting (connectionSystem w)).
  - rewrite bind_step.
    pose proof (finishConnection_store_cases w target) as Hcases.
    unfold world_after in Hcases. cbv zeta in Hcases.
    destruct (finishConnection E target w) as [r w'|w']; cbn;
      (destruct Hcases as [-> | (c & -> & Hself & Hdup)];
       [done | by apply connection_model_add]).
  - done.
Qed.

(** X1.  Whatever the connection tool is asked to do, in whatever order
    and with whatever nodes, a store that fits the data model of
    connections still fits it afterwards: it stays keyed by source id with
    no empty bucket, it gets no self-loop, and no ordered pair of ids is
    joined twice. *)
Theorem tool_keeps_connection_model (cmds : list tool_command) (w : World) :
  connection_model (connections (connectionSystem w)) ->
  connection_model (connections (connectionSystem (tool_run E cmds w))).
Proof.
  revert w. induction cmds as [ | c cmds IH]; intros w Hm; simpl; [done|].
  apply IH. by apply tool_call_model.
Qed.

End Tool_facts.

Lemma connection_model_nil : connection_model [].
Proof.
  split_and!; [apply store_ok_nil | constructor | constructor | intros; cbn; lia].
Qed.

Lemma tool_keeps_connection_model_witness :
  connection_model (connections (connectionSystem demo_world)) /\
  connection_model (connections (connectionSystem
    (tool_run demo_env
       [StartConnection (Some 1%nat); UpdateTempConnection (VNum 1) (VNum 1);
        FinishConnection (Some 2%nat);
        StartConnection (Some 1%nat); FinishConnection (Some 2%nat);
        StartConnection (Some 2%nat); FinishConnection (Some 2%nat);
        StartConnection (Some 2%nat); CancelConnection] demo_world))).
Proof.
  split; [exact connection_model_nil|].
  apply (tool_keeps_connection_model demo_env). exact connection_model_nil.
Defined.

(** ** What a successful connection does *)

Section Connect_facts.
Import ConnectionSystem.
Context (E : Env).

Arguments id_of : simpl never.
Arguments connectionExists : simpl never.
Arguments push_to_bucket : simpl never.
Arguments push_connection : simpl never.

Lemma push_connection_ok (w : World) (l : loc) (n : Node.t loc) (cs : list value) (v : value) :
  heap w !! l = Some n -> Node.connections n = VArr cs ->
  push_connection l v w
  = Ok tt (set_heap (<[l := Node.set_connections n (VArr (cs ++ [v]))]> (heap w)) w).
Proof.
  intros Hl Hc. unfold push_connection. mrun. unfold deref. rewrite Hl. mrun.
  rewrite Hc. reflexivity.
Qed.

(** The result of drawing a connection between two nodes with different
    ids whose pair is not joined yet, in closed form. *)
Lemma connect_ok (w : World) (s t : loc) (ns nt : Node.t loc) (cs ct : list value) :
  heap w !! s = Some ns -> heap w !! t = Some nt ->
  Node.id ns <> Node.id nt ->
  existsb (fun conn => strict_eq (Connection.targetId conn) (Node.id nt))
    (default [] (JsMap.get (Node.id ns) (connections (connectionSystem w)))) = false ->
  Node.connections ns = VArr cs -> Node.connections nt = VArr ct ->
  let c := Connection.Make (generateId E (ids w)) (Node.id ns) (Node.id nt)
             (VStr "normal") (VStr EmptyString) VNull
             (VObj [("createdAt", VNum (now E (ticks w)))]) in
  connect E s t w
  = Ok (Some c)
      (Build_World
         (<[t := Node.set_connections nt (VArr (ct ++ [Connection.id c]))]>
            (<[s := Node.set_connections ns (VArr (cs ++ [Connection.id c]))]> (heap w)))
         (S (ids w)) (S (ticks w)) (notifications w) (nodeSystem w)
         (Build_ConnectionSystemState
            (add_to_bucket (Node.id ns) c (connections (connectionSystem w)))
            false None None)).
Proof.
  intros Hs Ht Hne Hdup Hcs Hct c.
  assert (Hst : s <> t) by (intros ->; rewrite Hs in Ht; congruence).
  unfold connect, finishConnection. mrun.
  rewrite (id_of_ok _ _ ns) by exact Hs. mrun.
  rewrite (id_of_ok _ _ nt) by exact Ht. mrun.
  apply strict_eq_false_iff in Hne as Hne'. rewrite Hne'. mrun.
  rewrite !(id_of_ok _ _ ns) by exact Hs. mrun.
  rewrite !(id_of_ok _ _ nt) by exact Ht. mrun.
  rewrite connectionExists_eq. mrun. rewrite Hdup. mrun.
  rewrite !(id_of_ok _ _ ns) by exact Hs. mrun.
  rewrite !(id_of_ok _ _ nt) by exact Ht. mrun.
  rewrite !(id_of_ok _ _ ns) by exact Hs. mrun.
  rewrite push_to_bucket_eq. mrun.
  erewrite push_connection_ok; [|exact Hs|exact Hcs]. mrun.
  erewrite push_connection_ok;
    [|cbn; rewrite list_lookup_insert_ne by exact Hst; exact Ht|exact Hct].
  mrun. reflexivity.
Qed.

(** X2.  Drawing a connection between two nodes with different ids whose
    pair is not joined yet returns a new connection and does exactly this:
    the connection takes the next generated id and the current time, type
    'normal', an empty label and no condition; it goes last in the bucket
    of its source id; its id goes last in the [connections] array of both
    end nodes; the tool is idle again; nothing is notified, and no other
    node and nothing of the navigation changes. *)
Theorem connect_creates (w : World) (s t : loc) (ns nt : Node.t loc) (cs ct : list value) :
  heap w !! s = Some ns -> heap w !! t = Some nt ->
  Node.id ns <> Node.id nt ->
  existsb (fun conn => strict_eq (Connection.targetId conn) (Node.id nt))
    (default [] (JsMap.get (Node.id ns) (connections (connectionSystem w)))) = false ->
  Node.connections ns = VArr cs -> Node.connections nt = VArr ct ->
  exists c w1,
    connect E s t w = Ok (Some c) w1 /\
    c = Connection.Make (generateId E (ids w)) (Node.id ns) (Node.id nt)
          (VStr "normal") (VStr EmptyString) VNull
          (VObj [("createdAt", VNum (now E (ticks w)))]) /\
    connections (connectionSystem w1)
    = add_to_bucket (Node.id ns) c (connections (connectionSystem w)) /\
    heap w1 !! s = Some (Node.set_connections ns (VArr (cs ++ [Connection.id c]))) /\
    heap w1 !! t = Some (Node.set_connections nt (VArr (ct ++ [Connection.id c]))) /\
    (forall l, l <> s -> l <> t -> heap w1 !! l = heap w !! l) /\
    isConnecting (connectionSystem w1) = false /\
    connectionStart (connectionSystem w1) = None /\
    tempConnectionEnd (connectionSystem w1) = None /\
    notifications w1 = notifications w /\ nodeSystem w1 = nodeSystem w.
Proof.
  intros Hs Ht Hne Hdup Hcs Hct.
  assert (Hst : s <> t) by (intros ->; rewrite Hs in Ht; congruence).
  pose proof (connect_ok w s t ns nt cs ct Hs Ht Hne Hdup Hcs Hct) as Hrun.
  cbv zeta in Hrun. eexists _, _. split; [exact Hrun|]. cbn.
  apply lookup_lt_Some in Hs as Hls. apply lookup_lt_Some in Ht as Hlt.
  split_and!; try done.
  - rewrite list_lookup_insert_ne by congruence.
    by rewrite list_lookup_insert_eq by exact Hls.
  - by rewrite list_lookup_insert_eq by (by rewrite length_insert).
  - intros l Hl1 Hl2. by rewrite !list_lookup_insert_ne by congruence.
Qed.

End Connect_facts.

Lemma connect_creates_witness :
  exists c w1,
    connect demo_env 1 2 demo_world = Ok (Some c) w1 /\
    c = demo_connection /\
    connections (connectionSystem w1) = [(VStr "node_1", [demo_connection])] /\
    (exists b, heap w1 !! 1%nat = Some b /\ Node.connections b = VArr [VStr "node_3"]) /\
    (exists c, heap w1 !! 2%nat = Some c /\ Node.connections c = VArr [VStr "node_3"]).
Proof.
  destruct (connect_creates demo_env demo_world 1 2 _ _ [] [] eq_refl eq_refl
              ltac:(discriminate) eq_refl eq_refl eq_refl)
    as (c & w1 & Hrun & Hc & Hm & Hs & Ht & _).
  exists c, w1. split_and!; [exact Hrun | exact Hc | by rewrite Hm, Hc | | ].
  - eexists. split; [exact Hs | by rewrite Hc].
  - eexists. split; [exact Ht | by rewrite Hc].
Defined.

(** ** Looking a connection up and deleting it *)

Section Lookup_facts.
Import ConnectionSystem.
Implicit Types (m : list (value * list Connection.t)) (cid : value).

Lemma find_None_app {A} (f : A -> bool) (l l' : list A) :
  List.find f l = None -> List.find f (l ++ l') = List.find f l'.
Proof. induction l as [ | a l IH]; simpl; [done|]. destruct (f a); [done | exact IH]. Qed.

Lemma find_Some_app {A} (f : A -> bool) (l l' : list A) a :
  List.find f l = Some a -> List.find f (l ++ l') = Some a.
Proof. induction l as [ | b l IH]; simpl; [done|]. destruct (f b); [done | exact IH]. Qed.

(** X3.  [findConnectionById] visits the connections in the order of the
    export, bucket after bucket, returns the first one with the id, or
    null when there is none, and changes nothing. *)
Theorem findConnectionById_first cid (w : World) :
  findConnectionById cid w
  = Ok (List.find (has_id cid) (all_connections (connections (connectionSystem w)))) w.
Proof.
  unfold findConnectionById. mrun. f_equal.
  induction (connections (connectionSystem w)) as [ | [k conns] m IH]; [done|].
  cbn [find_by_id all_connections map concat snd].
  fold (all_connections m). fold (has_id cid).
  destruct (List.find (has_id cid) conns) as [found|] eqn:Hf.
  - symmetry. by apply find_Some_app.
  - rewrite find_None_app by exact Hf. exact IH.
Qed.

Lemma findIndex_None cid conns i :
  findIndex cid conns i = None <-> existsb (has_id cid) conns = false.
Proof.
  revert i. induction conns as [ | c conns IH]; intros i; simpl; [done|].
  unfold has_id at 1. destruct (strict_eq (Connection.id c) cid); simpl; [done | apply IH].
Qed.

Lemma findIndex_Some cid conns i index :
  findIndex cid conns i = Some index ->
  exists j, index = (i + j)%nat /\ existsb (has_id cid) conns = true /\
            delete j conns = without_first cid conns /\ (j < length conns)%nat.
Proof.
  revert i. induction conns as [ | c conns IH]; intros i; simpl; [done|].
  unfold has_id at 1 3. destruct (strict_eq (Connection.id c) cid); simpl.
  - intros [= <-]. exists 0%nat. split_and!; [lia | done | done | lia].
  - intros (j & -> & Hex & Hdel & Hlt)%IH. exists (S j).
    split_and!; [lia | done | simpl; by rewrite Hdel | lia].
Qed.

Lemma without_first_absent cid conns :
  existsb (has_id cid) conns = false -> without_first cid conns = conns.
Proof.
  induction conns as [ | c conns IH]; simpl; [done|].
  destruct (has_id cid c); simpl; [done | intros H; by rewrite IH].
Qed.

Lemma without_first_app cid l l' :
  without_first cid (l ++ l') =
  if existsb (has_id cid) l then without_first cid l ++ l' else l ++ without_first cid l'.
Proof.
  induction l as [ | c l IH]; simpl; [done|].
  destruct (has_id cid c); simpl; [done|]. rewrite IH. by destruct (existsb (has_id cid) l).
Qed.

(** The entry that [deleteConnection] finds splits the store. *)
Lemma entry_with_id_Some cid m j0 j nodeId conns index :
  entry_with_id cid m j0 = Some (j, nodeId, conns, index) ->
  exists pre post,
    m = pre ++ (nodeId, conns) :: post /\ j = (j0 + length pre)%nat /\
    existsb (has_id cid) (all_connections pre) = false /\
    findIndex cid conns 0 = Some index.
Proof.
  revert j0. induction m as [ | [k cs] m IH]; intros j0; simpl; [done|].
  destruct (findIndex cid cs 0) as [i|] eqn:Hi.
  - intros [= <- <- <- <-]. exists [], m. split_and!; [done | simpl; lia | done | done].
  - intros (pre & post & -> & -> & Hpre & Hidx)%IH.
    exists ((k, cs) :: pre), post. split_and!; [done | simpl; lia | | done].
    cbn. fold (all_connections pre). rewrite existsb_app, Hpre.
    apply findIndex_None in Hi. by rewrite Hi.
Qed.

Lemma entry_with_id_None cid m j0 :
  entry_with_id cid m j0 = None -> existsb (has_id cid) (all_connections m) = false.
Proof.
  revert j0. induction m as [ | [k cs] m IH]; intros j0; simpl; [done|].
  destruct (findIndex cid cs 0) as [i|] eqn:Hi; [done|].
  intros H%IH. cbn. fold (all_connections m). rewrite existsb_app, H.
  apply findIndex_None in Hi. by rewrite Hi.
Qed.

Lemma all_connections_app m m' :
  all_connections (m ++ m') = all_connections m ++ all_connections m'.
Proof. unfold all_connections. by rewrite map_app, concat_app. Qed.

Lemma JsMap_remove_middle {V} (pre post : list (value * V)) k v :
  k ∉ JsMap.keys pre -> JsMap.remove k (pre ++ (k, v) :: post) = pre ++ post.
Proof.
  induction pre as [ | [k0 v0] pre IH]; simpl.
  - by rewrite strict_eq_refl.
  - intros [Hne Hk]%not_elem_of_cons.
    assert (Hne' : k0 <> k) by congruence.
    apply strict_eq_false_iff in Hne' as ->. by rewrite IH.
Qed.

(** [deleteConnection] when the first bucket with the id is known. *)
Lemma deleteConnection_split cid (w : World) pre post nodeId conns index :
  connections (connectionSystem w) = pre ++ (nodeId, conns) :: post ->
  nodeId ∉ JsMap.keys pre ->
  existsb (has_id cid) (all_connections pre) = false ->
  findIndex cid conns 0 = Some index ->
  deleteConnection cid w
  = Ok true (with_connections
               (match delete index conns with
                | [] => pre ++ post
                | conns' => pre ++ (nodeId, conns') :: post
                end) w).
Proof.
  intros Hm Hk Hpre Hidx. unfold deleteConnection. mrun. rewrite Hm.
  assert (He : forall j, entry_with_id cid (pre ++ (nodeId, conns) :: post) j
                         = Some ((j + length pre)%nat, nodeId, conns, index)).
  { clear Hm Hk.
    induction pre as [ | [k cs] pre IH]; intros j; simpl.
    - rewrite Hidx. do 4 f_equal. lia.
    - cbn in Hpre. fold (all_connections pre) in Hpre.
      rewrite existsb_app in Hpre. apply orb_false_iff in Hpre as [H1 H2].
      apply (findIndex_None cid cs 0) in H1 as ->. rewrite (IH H2). do 4 f_equal. lia. }
  rewrite He. cbn [Nat.add]. unfold set_connections. mrun.
  rewrite insert_app_r_alt by lia. rewrite Nat.sub_diag. cbn.
  destruct (delete index conns) as [ | c0 rest] eqn:Hd; cbn.
  - rewrite bool_decide_eq_true_2 by done. mrun.
    by rewrite JsMap_remove_middle by exact Hk.
  - rewrite bool_decide_eq_false_2 by done. by mrun.
Qed.

(** X4.  [deleteConnection] answers whether a stored connection has the
    id.  When one has, the first of them in the order of the export leaves
    the store and every other connection stays in place; a bucket left
    empty is dropped, so a store without empty buckets stays one, and a
    store keyed by source id stays one.  The nodes are not touched: the
    id stays in the [connections] arrays of the end nodes. *)
Theorem deleteConnection_removes_first cid (w : World) :
  let m := connections (connectionSystem w) in
  NoDup (JsMap.keys m) ->
  exists m',
    deleteConnection cid w
    = Ok (existsb (has_id cid) (all_connections m)) (with_connections m' w) /\
    all_connections m' = without_first cid (all_connections m) /\
    (existsb (has_id cid) (all_connections m) = false -> with_connections m' w = w) /\
    (store_ok m -> store_ok m') /\
    (no_empty_bucket m -> no_empty_bucket m').
Proof.
  intros m Hnd.
  destruct (entry_with_id cid m 0) as [[[[j nodeId] conns] index]|] eqn:He.
  2:{ apply entry_with_id_None in He as He'. exists m. rewrite He'.
      assert (Hw : with_connections m w = w)
        by (subst m; by destruct w as [? ? ? ? ? []]).
      rewrite Hw. unfold deleteConnection. mrun. fold m. rewrite He.
      split_and!; try done. by rewrite without_first_absent. }
  apply entry_with_id_Some in He as (pre & post & Hm & -> & Hpre & Hidx).
  pose proof Hidx as Hidx0.
  apply findIndex_Some in Hidx as (i & -> & Hex & Hdel & Hlt). simpl in *.
  assert (Hhas : existsb (has_id cid) (all_connections m) = true).
  { rewrite Hm, all_connections_app, existsb_app. cbn. fold (all_connections post).
    by rewrite existsb_app, Hex, orb_true_r. }
  assert (Hall : all_connections (pre ++ (nodeId, delete i conns) :: post)
                 = without_first cid (all_connections m)).
  { rewrite Hm, !all_connections_app, without_first_app, Hpre. f_equal.
    cbn. fold (all_connections post). by rewrite without_first_app, Hex, Hdel. }
  assert (Hins : <[length pre := (nodeId, delete i conns)]> m
                 = pre ++ (nodeId, delete i conns) :: post).
  { rewrite Hm. rewrite insert_app_r_alt by lia. by rewrite Nat.sub_diag. }
  assert (Hkpre : nodeId ∉ JsMap.keys pre).
  { rewrite Hm in Hnd. unfold JsMap.keys in Hnd. rewrite map_app in Hnd.
    apply NoDup_app in Hnd as (_ & Hdisj & _). intros Hin.
    apply (Hdisj nodeId Hin). simpl. apply list_elem_of_here. }
  rewrite (deleteConnection_split cid w pre post nodeId conns (0 + i))
    by done.
  rewrite Hhas. simpl.
  destruct (delete i conns) as [ | c0 rest] eqn:Hd.
  - exists (pre ++ post). split_and!; [done | | done | | ].
    + rewrite <- Hall, !all_connections_app. done.
    + rewrite Hm. intros [Hn Hf]. split.
      * unfold JsMap.keys in *. rewrite map_app in *. simpl in Hn.
        apply NoDup_app in Hn as (H1 & H2 & H3). apply NoDup_cons in H3 as [_ H3].
        apply NoDup_app. split_and!; [done | | done].
        intros x Hx Hx'. apply (H2 x Hx). by apply list_elem_of_further.
      * apply Forall_app in Hf as [H1 H2]. apply Forall_cons in H2 as [_ H2].
        by apply Forall_app.
    + rewrite Hm. unfold no_empty_bucket. intros Hf.
      apply Forall_app in Hf as [H1 H2]. apply Forall_cons in H2 as [_ H2].
      by apply Forall_app.
  - exists (pre ++ (nodeId, c0 :: rest) :: post). split_and!; [done | done | done | | ].
    + rewrite Hm. intros [Hn Hf]. split.
      * unfold JsMap.keys in *. by rewrite map_app in *.
      * apply Forall_app in Hf as [H1 H2]. apply Forall_cons in H2 as [H0 H2].
        apply Forall_app. split; [done|]. apply Forall_cons. split; [|done].
        simpl in *. rewrite <- Hd. eapply Forall_forall. intros x Hx.
        eapply (proj1 (Forall_forall _ _) H0).
        exact (elem_of_sublist _ _ _ Hx (sublist_delete _ _)).
    + rewrite Hm. unfold no_empty_bucket. intros Hf.
      apply Forall_app in Hf as [H1 H2]. apply Forall_cons in H2 as [_ H2].
      apply Forall_app. split; [done|]. by apply Forall_cons.
Qed.

Lemma deleteConnection_removes_first_witness :
  NoDup (JsMap.keys (connections (connectionSystem connected_world))) /\
  exists m',
    deleteConnection (VStr "node_3") connected_world
    = Ok (existsb (has_id (VStr "node_3"))
            (all_connections (connections (connectionSystem connected_world))))
        (with_connections m' connected_world) /\
    all_connections m'
    = without_first (VStr "node_3")
        (all_connections (connections (connectionSystem connected_world))).
Proof.
  assert (Hnd : NoDup (JsMap.keys (connections (connectionSystem connected_world))))
    by apply NoDup_singleton.
  split; [exact Hnd|].
  destruct (deleteConnection_removes_first (VStr "node_3") connected_world Hnd)
    as (m' & Hrun & Hall & _).
  exists m'. split; [exact Hrun | exact Hall].
Defined.

Lemma JsMap_get_split {V} k (m : list (value * V)) v :
  JsMap.get k m = Some v ->
  exists pre post, m = pre ++ (k, v) :: post /\ k ∉ JsMap.keys pre.
Proof.
  induction m as [ | [k0 v0] m IH]; simpl; [done|].
  destruct (strict_eq k0 k) eqn:Hk.
  - apply strict_eq_iff in Hk as ->. intros [= ->]. exists [], m. split; [done|].
    apply not_elem_of_nil.
  - apply strict_eq_false_iff in Hk. intros (pre & post & -> & Hpre)%IH.
    exists ((k0, v0) :: pre), post. split; [done|]. simpl.
    apply not_elem_of_cons. split; [congruence | done].
Qed.

Lemma JsMap_set_split {V} k (pre post : list (value * V)) v v' :
  k ∉ JsMap.keys pre -> JsMap.set k v' (pre ++ (k, v) :: post) = pre ++ (k, v') :: post.
Proof.
  induction pre as [ | [k0 v0] pre IH]; simpl.
  - by rewrite strict_eq_refl.
  - intros [Hne Hk]%not_elem_of_cons.
    assert (Hne' : k0 <> k) by congruence.
    apply strict_eq_false_iff in Hne' as ->. by rewrite IH.
Qed.

Lemma JsMap_set_absent {V} k (m : list (value * V)) v :
  JsMap.get k m = None -> JsMap.set k v m = m ++ [(k, v)].
Proof.
  induction m as [ | [k0 v0] m IH]; simpl; [done|].
  destruct (strict_eq k0 k); [done|]. intros H. by rewrite IH.
Qed.

Lemma findIndex_last cid conns c i :
  existsb (has_id cid) conns = false -> has_id cid c = true ->
  findIndex cid (conns ++ [c]) i = Some (i + length conns)%nat.
Proof.
  revert i. induction conns as [ | c0 conns IH]; intros i; simpl.
  - intros _ Hc. unfold has_id in Hc. rewrite Hc. f_equal. lia.
  - unfold has_id at 1. destruct (strict_eq (Connection.id c0) cid); simpl; [done|].
    intros H Hc. rewrite IH by done. f_equal. lia.
Qed.

Lemma delete_last {A} (l : list A) a : delete (length l) (l ++ [a]) = l.
Proof. induction l as [ | b l IH]; simpl; [done | by rewrite IH]. Qed.

(** Deleting a connection whose id nothing else has, right after it went
    into its bucket, gives the store back. *)
Lemma deleteConnection_added (w : World) k c m :
  connections (connectionSystem w) = add_to_bucket k c m ->
  NoDup (JsMap.keys m) -> no_empty_bucket m ->
  existsb (has_id (Connection.id c)) (all_connections m) = false ->
  deleteConnection (Connection.id c) w = Ok true (with_connections m w).
Proof.
  intros Hw Hnd Hne Hfresh. unfold add_to_bucket in Hw.
  assert (Hc : has_id (Connection.id c) c = true) by apply strict_eq_refl.
  destruct (JsMap.get k m) as [bucket|] eqn:Hg; simpl in Hw.
  - apply JsMap_get_split in Hg as (pre & post & -> & Hk).
    rewrite JsMap_set_split in Hw by exact Hk.
    rewrite !all_connections_app, existsb_app in Hfresh.
    apply orb_false_iff in Hfresh as [Hpre Hrest]. cbn in Hrest.
    fold (all_connections post) in Hrest. rewrite existsb_app in Hrest.
    apply orb_false_iff in Hrest as [Hb _].
    rewrite (deleteConnection_split _ w pre post k (bucket ++ [c]) (0 + length bucket));
      [ | done | done | done | by apply findIndex_last].
    simpl. rewrite delete_last.
    apply Forall_app in Hne as [_ Hne]. apply Forall_cons in Hne as [Hne _]. simpl in Hne.
    by destruct bucket.
  - rewrite JsMap_set_absent in Hw by exact Hg. apply JsMap_get_None in Hg.
    rewrite (deleteConnection_split _ w m [] k [c] 0);
      [ | done | done | done | simpl; unfold has_id in Hc; by rewrite Hc].
    simpl. by rewrite app_nil_r.
Qed.

End Lookup_facts.

Section Connect_delete_facts.
Import ConnectionSystem.
Context (E : Env).

(** X5.  Drawing a connection and deleting it by its id gives the store
    back as it was, when the store is keyed by source id without empty
    buckets and the generated id is new to it.  The nodes do not come
    back: [deleteConnection] leaves the id in the [connections] array of
    both end nodes. *)
Theorem connect_then_delete (w : World) (s t : loc) (ns nt : Node.t loc) (cs ct : list value) :
  heap w !! s = Some ns -> heap w !! t = Some nt ->
  Node.id ns <> Node.id nt ->
  existsb (fun conn => strict_eq (Connection.targetId conn) (Node.id nt))
    (default [] (JsMap.get (Node.id ns) (connections (connectionSystem w)))) = false ->
  Node.connections ns = VArr cs -> Node.connections nt = VArr ct ->
  NoDup (JsMap.keys (connections (connectionSystem w))) ->
  no_empty_bucket (connections (connectionSystem w)) ->
  existsb (has_id (generateId E (ids w)))
    (all_connections (connections (connectionSystem w))) = false ->
  exists c w1 w2,
    connect E s t w = Ok (Some c) w1 /\
    deleteConnection (Connection.id c) w1 = Ok true w2 /\
    connections (connectionSystem w2) = connections (connectionSystem w) /\
    heap w2 = heap w1 /\
    heap w2 !! s = Some (Node.set_connections ns (VArr (cs ++ [Connection.id c]))) /\
    heap w2 !! t = Some (Node.set_connections nt (VArr (ct ++ [Connection.id c]))).
Proof.
  intros Hs Ht Hne Hdup Hcs Hct Hnd Hnon Hfresh.
  assert (Hst : s <> t) by (intros ->; rewrite Hs in Ht; congruence).
  pose proof (connect_ok E w s t ns nt cs ct Hs Ht Hne Hdup Hcs Hct) as Hrun.
  cbv zeta in Hrun. eexists _, _, _. split; [exact Hrun|].
  split; [by apply (deleteConnection_added _ (Node.id ns) _
                      (connections (connectionSystem w)))|].
  cbn. apply lookup_lt_Some in Hs as Hls. apply lookup_lt_Some in Ht as Hlt.
  split_and!; try done.
  - rewrite list_lookup_insert_ne by congruence.
    by rewrite list_lookup_insert_eq by exact Hls.
  - by rewrite list_lookup_insert_eq by (by rewrite length_insert).
Qed.

End Connect_delete_facts.

Lemma connect_then_delete_witness :
  exists c w1 w2,
    connect demo_env 1 2 demo_world = Ok (Some c) w1 /\
    ConnectionSystem.deleteConnection (Connection.id c) w1 = Ok true w2 /\
    connections (connectionSystem w2) = [] /\
    (exists b, heap w2 !! 1%nat = Some b /\ Node.connections b = VArr [VStr "node_3"]).
Proof.
  destruct (connect_then_delete demo_env demo_world 1 2 _ _ [] [] eq_refl eq_refl
              ltac:(discriminate) eq_refl eq_refl eq_refl
              (NoDup_nil_2) (Forall_nil_2 _) eq_refl)
    as (c & w1 & w2 & Hrun & Hdel & Hm & _ & Hb & _).
  exists c, w1, w2. split_and!; [exact Hrun | exact Hdel | exact Hm | ].
  eexists. split; [exact Hb|].
  injection Hrun as Hc _. by rewrite <- Hc.
Defined.

(** ** The connections of a level *)

Section Level_facts.
Import ConnectionSystem.
Implicit Types (m : list (value * list Connection.t)).

Arguments id_of : simpl never.
Arguments getNodeConnections : simpl never.

Lemma getNodeConnections_eq (w : World) nodeId :
  getNodeConnections nodeId w
  = Ok (default [] (JsMap.get nodeId (connections (connectionSystem w)))) w.
Proof. reflexivity. Qed.

Lemma elem_of_concat {A} (x : A) (ls : list (list A)) :
  x ∈ concat ls <-> exists l, x ∈ l /\ l ∈ ls.
Proof.
  induction ls as [ | l0 ls IH]; simpl.
  - split; [by intros ?%elem_of_nil | by intros (l & _ & ?%elem_of_nil)].
  - rewrite elem_of_app, IH. split.
    + intros [H | (l & H1 & H2)]; [exists l0 | exists l]; split; try done.
      * apply list_elem_of_here.
      * by apply list_elem_of_further.
    + intros (l & H1 & [-> | H2]%elem_of_cons); [by left | right; by exists l].
Qed.

Lemma elem_of_List_filter {A} (f : A -> bool) (l : list A) (x : A) :
  x ∈ List.filter f l <-> f x = true /\ x ∈ l.
Proof. rewrite !list_elem_of_In, filter_In. tauto. Qed.

Lemma existsb_strict_eq (l : list value) v :
  existsb (fun u => strict_eq u v) l = true <-> v ∈ l.
Proof.
  induction l as [ | u l IH]; simpl.
  - split; [done | by intros ?%elem_of_nil].
  - rewrite orb_true_iff, IH, elem_of_cons, strict_eq_iff.
    split; (intros [H | H]; [left; congruence | by right]).
Qed.

Lemma Set_has_iff (s : list value) v : Set_has s v = true <-> v ∈ s.
Proof. apply existsb_strict_eq. Qed.

Lemma Set_of_elem (l : list value) v : v ∈ Set_of l <-> v ∈ l.
Proof.
  unfold Set_of.
  assert (H : forall s, v ∈ fold_left Set_add l s <-> v ∈ s \/ v ∈ l).
  { induction l as [ | u l IH]; intros s; simpl.
    - split; [by left | by intros [? | ?%elem_of_nil]].
    - rewrite IH, elem_of_cons. unfold Set_add.
      destruct (Set_has s u) eqn:Hu.
      + apply Set_has_iff in Hu. split; [tauto|].
        intros [H | [-> | H]]; tauto.
      + rewrite elem_of_app, list_elem_of_singleton. tauto. }
  rewrite H. split; [by intros [?%elem_of_nil | ?] | by right].
Qed.

Lemma Set_of_NoDup (l : list value) : NoDup (Set_of l).
Proof.
  unfold Set_of.
  assert (H : forall s, NoDup s -> NoDup (fold_left Set_add l s)).
  { induction l as [ | u l IH]; intros s Hs; simpl; [done|].
    apply IH. unfold Set_add. destruct (Set_has s u) eqn:Hu; [done|].
    apply NoDup_app. split_and!; [done | | apply NoDup_singleton].
    intros x Hx ->%list_elem_of_singleton.
    apply Set_has_iff in Hx. congruence. }
  apply H, NoDup_nil_2.
Qed.

Lemma mapM_id_of (w : World) cs ids :
  ids_of (heap w) cs ids -> mapM id_of cs w = Ok ids w.
Proof.
  induction 1 as [ | c v cs ids (n & Hc & <-) _ IH]; simpl; [done|].
  rewrite bind_step, (id_of_ok _ _ n) by exact Hc. by rewrite bind_step, IH.
Qed.

(** A stored connection is in the bucket of its source id. *)
Lemma stored_in_bucket m c :
  store_ok m -> c ∈ all_connections m ->
  c ∈ default [] (JsMap.get (Connection.sourceId c) m).
Proof.
  intros [Hnd Hm]. induction Hm as [ | [k b] m H0 Hm IH]; simpl.
  - by intros ?%elem_of_nil.
  - cbn. fold (all_connections m). simpl in Hnd. apply NoDup_cons in Hnd as [Hk Hnd].
    rewrite elem_of_app. intros [Hc | Hc].
    + simpl in H0. rewrite (proj1 (Forall_forall _ _) H0 c Hc), strict_eq_refl. exact Hc.
    + destruct (strict_eq k (Connection.sourceId c)) eqn:Hkc; [|by apply IH].
      apply strict_eq_iff in Hkc as ->. exfalso.
      specialize (IH Hnd Hc).
      destruct (JsMap.get (Connection.sourceId c) m) eqn:Hg.
      * apply JsMap_get_None in Hk. congruence.
      * by apply elem_of_nil in IH.
Qed.

Lemma bucket_stored m k b c :
  JsMap.get k m = Some b -> c ∈ b -> c ∈ all_connections m.
Proof.
  induction m as [ | [k0 b0] m IH]; simpl; [done|].
  cbn. fold (all_connections m). rewrite elem_of_app.
  destruct (strict_eq k0 k); [intros [= ->]; by left | intros; right; by apply IH].
Qed.

(** The second loop of [getConnectionsForLevel], once the ids are read. *)
Lemma level_loop (w : World) (childIds : list value) cs ids :
  ids_of (heap w) cs ids ->
  mapM (fun node =>
          let* nodeId := id_of node in
          let* connections := getNodeConnections nodeId in
          ret (List.filter (fun conn => Set_has childIds (Connection.targetId conn))
                 connections)) cs w
  = Ok (map (fun v => List.filter (fun conn => Set_has childIds (Connection.targetId conn))
                        (default [] (JsMap.get v (connections (connectionSystem w))))) ids) w.
Proof.
  induction 1 as [ | c v cs ids (n & Hc & <-) _ IH]; simpl; [done|].
  rewrite bind_step, bind_step, (id_of_ok _ _ n) by exact Hc.
  rewrite bind_step, getNodeConnections_eq. mrun. by rewrite IH.
Qed.

Lemma getConnectionsForLevel_eq (w : World) (cur : loc) (self : Node.t loc)
    (ids : list value) :
  heap w !! cur = Some self ->
  ids_of (heap w) (Node.children self) ids ->
  getConnectionsForLevel (Some cur) w
  = Ok (level_of ids (connections (connectionSystem w))) w.
Proof.
  intros Hcur Hids. unfold getConnectionsForLevel.
  rewrite bind_step. unfold deref at 1. rewrite Hcur.
  rewrite bind_step, (mapM_id_of w _ ids) by exact Hids.
  rewrite bind_step. unfold deref at 1. rewrite Hcur.
  by rewrite bind_step, (level_loop w _ _ ids) by exact Hids.
Qed.

Lemma level_of_elem ids m c :
  store_ok m ->
  c ∈ level_of ids m <->
  c ∈ all_connections m /\ Connection.sourceId c ∈ ids /\ Connection.targetId c ∈ ids.
Proof.
  intros Hok. unfold level_of. rewrite elem_of_concat. split.
  - intros (b & Hc & (v & -> & Hv)%(list_elem_of_fmap_1 _)).
    apply elem_of_List_filter in Hc as [Ht Hc].
    rewrite Set_has_iff, Set_of_elem in Ht.
    destruct (JsMap.get v m) as [b|] eqn:Hg;
      simpl in Hc; [ | by apply elem_of_nil in Hc].
    split_and!; [by eapply bucket_stored | | done].
    pose proof (bucket_sources _ _ _ Hok Hg) as Hsrc.
    by rewrite (proj1 (Forall_forall _ _) Hsrc c Hc).
  - intros (Hc & Hs & Ht). eexists. split.
    2:{ exact (list_elem_of_fmap_2 _ _ _ Hs). }
    apply elem_of_List_filter. split.
    + by rewrite Set_has_iff, Set_of_elem.
    + by apply stored_in_bucket.
Qed.

(** X6.  [getConnectionsForLevel] returns, and changes nothing.  Over a
    store keyed by source id, what it returns are the stored connections
    with both ends among the children of the node: the source id and the
    target id are both ids of children. *)
Theorem getConnectionsForLevel_both_ends (w : World) (cur : loc) (self : Node.t loc)
    (ids : list value) :
  heap w !! cur = Some self ->
  ids_of (heap w) (Node.children self) ids ->
  store_ok (connections (connectionSystem w)) ->
  exists found,
    getConnectionsForLevel (Some cur) w = Ok found w /\
    forall c, c ∈ found <->
              c ∈ all_connections (connections (connectionSystem w)) /\
              Connection.sourceId c ∈ ids /\ Connection.targetId c ∈ ids.
Proof.
  intros Hcur Hids Hok. eexists. split; [by eapply getConnectionsForLevel_eq|].
  intros c. by apply level_of_elem.
Qed.

End Level_facts.

Lemma ids_of_demo :
  ids_of (heap connected_world) [1%nat; 2%nat] [VStr "node_1"; VStr "node_2"].
Proof. repeat constructor; eexists; (split; [reflexivity|reflexivity]). Qed.

Lemma store_ok_connected : store_ok (connections (connectionSystem connected_world)).
Proof. split; [apply NoDup_singleton | repeat constructor]. Qed.

Lemma getConnectionsForLevel_both_ends_witness :
  exists found,
    ConnectionSystem.getConnectionsForLevel (Some 0%nat) connected_world
    = Ok found connected_world /\
    demo_connection ∈ found.
Proof.
  destruct (getConnectionsForLevel_both_ends connected_world 0 _ _ eq_refl ids_of_demo
              store_ok_connected) as (found & Hrun & Hfound).
  exists found. split; [exact Hrun|]. apply Hfound.
  split_and!; [apply list_elem_of_here | apply list_elem_of_here | ].
  apply list_elem_of_further, list_elem_of_here.
Defined.

(** ** Adding and deleting a child *)

Lemma index_of_Some v ids i :
  index_of v ids = Some i ->
  ids !! i = Some v /\ v ∉ take i ids.
Proof.
  revert i. induction ids as [ | u ids IH]; intros i; simpl; [done|].
  destruct (strict_eq u v) eqn:Hu.
  - apply strict_eq_iff in Hu as ->. intros [= <-]. split; [done | apply not_elem_of_nil].
  - apply strict_eq_false_iff in Hu.
    destruct (index_of v ids) as [j|]; simpl; [ | done].
    intros [= <-]. destruct (IH j eq_refl) as [H1 H2]. split; [done|].
    simpl. apply not_elem_of_cons. split; [congruence | done].
Qed.

Lemma index_of_None v ids : index_of v ids = None <-> v ∉ ids.
Proof.
  induction ids as [ | u ids IH]; simpl.
  - split; [intros _; apply not_elem_of_nil | done].
  - rewrite not_elem_of_cons. destruct (strict_eq u v) eqn:Hu.
    + apply strict_eq_iff in Hu as ->. split; [done | by intros [? _]].
    + apply strict_eq_false_iff in Hu.
      destruct (index_of v ids) as [j|]; simpl.
      * split; [done | intros [_ H]; by apply IH in H].
      * split; [intros _; split; [congruence | by apply IH] | done].
Qed.

Lemma elem_of_delete_NoDup (ids : list value) i v u :
  NoDup ids -> ids !! i = Some v ->
  u ∈ delete i ids <-> u ∈ ids /\ u <> v.
Proof.
  revert i. induction ids as [ | x ids IH]; intros i Hnd Hi; [done|].
  apply NoDup_cons in Hnd as [Hx Hnd]. destruct i as [ | i]; simpl in *.
  - injection Hi as ->. rewrite elem_of_cons. split.
    + intros Hu. split; [by right | by intros ->].
    + by intros [[-> | Hu] Hne].
  - rewrite !elem_of_cons, (IH i Hnd Hi). split.
    + intros [-> | [Hu Hne]].
      * split; [by left|]. intros ->. apply Hx. by eapply list_elem_of_lookup_2.
      * split; [by right | done].
    + intros [[-> | Hu] Hne]; [by left | by right].
Qed.

Lemma ids_of_insert (h : list (Node.t loc)) l n n' cs ids :
  h !! l = Some n -> Node.id n' = Node.id n ->
  ids_of h cs ids -> ids_of (<[l := n']> h) cs ids.
Proof.
  intros Hl Hid. induction 1 as [ | c v cs ids (k & Hc & Hv) _ IH]; constructor; [|done].
  destruct (decide (c = l)) as [-> | Hne].
  - exists n'. rewrite list_lookup_insert_eq by (by eapply lookup_lt_Some).
    split; [done|]. congruence.
  - exists k. by rewrite list_lookup_insert_ne by congruence.
Qed.

Lemma ids_of_delete (h : list (Node.t loc)) cs ids i :
  ids_of h cs ids -> ids_of h (delete i cs) (delete i ids).
Proof.
  intros H. revert i. induction H as [ | c v cs ids Hc H IH]; intros [ | i]; simpl.
  - constructor.
  - constructor.
  - exact H.
  - constructor; [done | apply IH].
Qed.

Lemma set_prop_assignable v k x : assignable v -> exists v', set_prop v k x = Some v'.
Proof. destruct v; simpl; try done; eauto. Qed.

Section Child_facts.
Context (E : Env).

Lemma Node_findIndex_ids (w : World) nodeId cs ids i :
  ids_of (heap w) cs ids ->
  Node.findIndex nodeId cs i w = Ok ((fun j => (i + j)%nat) <$> index_of nodeId ids) w.
Proof.
  intros H. revert i. induction H as [ | c v cs ids (n & Hc & <-) _ IH]; intros i; simpl;
    [done|].
  rewrite bind_step. unfold deref at 1. rewrite Hc.
  destruct (strict_eq (Node.id n) nodeId).
  - simpl. unfold ret. do 3 f_equal. lia.
  - rewrite IH. destruct (index_of nodeId ids); simpl; [ | done].
    unfold ret. do 3 f_equal. lia.
Qed.

(** [removeChild] when a child has the id. *)
Lemma removeChild_found (w : World) this self ids nodeId i md :
  heap w !! this = Some self ->
  ids_of (heap w) (Node.children self) ids ->
  index_of nodeId ids = Some i ->
  set_prop (Node.metadata self) "modifiedAt" (VNum (now E (ticks w))) = Some md ->
  Node.removeChild E this nodeId w
  = Ok true
      (set_ticks (S (ticks w))
         (set_heap (<[this := Node.set_metadata
                                 (Node.set_children self (delete i (Node.children self))) md]>
                      (heap w)) w)).
Proof.
  intros Hthis Hids Hi Hmd. unfold Node.removeChild.
  rewrite bind_step. unfold deref at 1. rewrite Hthis.
  rewrite bind_step, (Node_findIndex_ids w nodeId _ ids) by exact Hids.
  rewrite Hi. simpl. mrun. unfold deref.
  cbn. rewrite list_lookup_insert_eq by (by eapply lookup_lt_Some).
  cbn. rewrite Hmd. cbn. by rewrite list_insert_insert_eq.
Qed.

(** [removeChild] when no child has the id. *)
Lemma removeChild_absent (w : World) this self ids nodeId :
  heap w !! this = Some self ->
  ids_of (heap w) (Node.children self) ids ->
  nodeId ∉ ids ->
  Node.removeChild E this nodeId w = Ok false w.
Proof.
  intros Hthis Hids Hi. unfold Node.removeChild.
  rewrite bind_step. unfold deref at 1. rewrite Hthis.
  rewrite bind_step, (Node_findIndex_ids w nodeId _ ids) by exact Hids.
  apply index_of_None in Hi. by rewrite Hi.
Qed.

(** X7.  Deleting a child, whose id no sibling shares, takes every
    connection that starts or ends at it out of the level view but not
    out of the store: after [deleteNode(id)], [getConnectionsForLevel]
    returns the stored connections between children whose source id and
    target id are not the id, while the store is what it was. *)
Theorem deleteNode_hides_connections (w : World) (cur : loc) (self : Node.t loc)
    (ids : list value) (nodeId : value) :
  currentNode (nodeSystem w) = Some cur ->
  heap w !! cur = Some self ->
  ids_of (heap w) (Node.children self) ids ->
  NoDup ids -> nodeId ∈ ids ->
  assignable (Node.metadata self) ->
  store_ok (connections (connectionSystem w)) ->
  exists w1 found,
    NodeSystem.deleteNode E nodeId w = Ok true w1 /\
    ConnectionSystem.getConnectionsForLevel (Some cur) w1 = Ok found w1 /\
    connections (connectionSystem w1) = connections (connectionSystem w) /\
    forall c, c ∈ found <->
              c ∈ ConnectionSystem.all_connections (connections (connectionSystem w)) /\
              Connection.sourceId c ∈ ids /\ Connection.targetId c ∈ ids /\
              Connection.sourceId c <> nodeId /\ Connection.targetId c <> nodeId.
Proof.
  intros Hcur Hself Hids Hnd Hin Hmd Hok.
  destruct (index_of nodeId ids) as [i|] eqn:Hi;
    [ | by apply index_of_None in Hi ].
  destruct (set_prop_assignable _ "modifiedAt" (VNum (now E (ticks w))) Hmd) as [md Hset].
  apply index_of_Some in Hi as Hi'. destruct Hi' as [Hlook _].
  eexists _, _. split.
  { unfold NodeSystem.deleteNode. mrun. rewrite Hcur.
    by apply (removeChild_found w cur self ids nodeId i md). }
  split.
  { eapply (getConnectionsForLevel_eq _ cur _ (delete i ids)).
    - cbn. by rewrite list_lookup_insert_eq by (by eapply lookup_lt_Some).
    - cbn. apply (ids_of_insert _ _ self); [done | done | by apply ids_of_delete]. }
  split; [done|].
  intros c. cbn. rewrite level_of_elem by exact Hok.
  rewrite !(elem_of_delete_NoDup ids i nodeId) by done. tauto.
Qed.

(** [addNode] in closed form. *)
Lemma addNode_ok (w : World) (cur : loc) (self : Node.t loc) (name type x y md : value) :
  currentNode (nodeSystem w) = Some cur ->
  heap w !! cur = Some self ->
  set_prop (Node.metadata self) "modifiedAt" (VNum (now E (S (S (ticks w))))) = Some md ->
  let l := length (heap w) in
  let node := Node.Make (generateId E (ids w)) name
                (default_arg type (VStr "domain"))
                (default_arg (default_arg x (VNum 0)) (VNum 0))
                (default_arg (default_arg y (VNum 0)) (VNum 0))
                [] (VArr [])
                (VObj [("description", VStr EmptyString); ("code", VStr EmptyString);
                       ("createdAt", VNum (now E (ticks w)));
                       ("modifiedAt", VNum (now E (S (ticks w))))]) in
  NodeSystem.addNode E name type x y w
  = Ok l (Build_World
            (<[cur := Node.set_metadata
                        (Node.set_children self (Node.children self ++ [l])) md]>
               (heap w ++ [node]))
            (S (ids w)) (S (S (S (ticks w)))) (notifications w) (nodeSystem w)
            (connectionSystem w)).
Proof.
  intros Hcur Hself Hmd l node. unfold NodeSystem.addNode, Node.new, alloc. mrun.
  rewrite Hcur. mrun. unfold Node.addChild. rewrite bind_step. unfold deref at 1.
  cbn. rewrite lookup_app_l by (by eapply lookup_lt_Some). rewrite Hself.
  mrun. unfold deref. cbn.
  rewrite list_lookup_insert_eq
    by (rewrite length_app; apply lookup_lt_Some in Hself; lia).
  cbn. rewrite Hmd. cbn. by rewrite list_insert_insert_eq.
Qed.

Lemma ids_of_app (h h' : list (Node.t loc)) cs ids :
  ids_of h cs ids -> ids_of (h ++ h') cs ids.
Proof.
  induction 1 as [ | c v cs ids (n & Hc & Hv) _ IH]; constructor; [|done].
  exists n. split; [|done]. rewrite lookup_app_l by (by eapply lookup_lt_Some). done.
Qed.

Lemma index_of_last v ids : v ∉ ids -> index_of v (ids ++ [v]) = Some (length ids).
Proof.
  induction ids as [ | u ids IH]; simpl.
  - by rewrite strict_eq_refl.
  - intros [Hne Hv]%not_elem_of_cons.
    assert (Hne' : u <> v) by congruence.
    apply strict_eq_false_iff in Hne' as ->. by rewrite IH.
Qed.

(** X8.  [addNode] makes a node with the next generated id and puts it
    last among the children of the current node, whatever the names of
    the others; [deleteNode] with that id, when no sibling has it, takes
    it out again and the child list is what it was.  Both stamp
    [modifiedAt] on the current node, whose other fields, like the
    navigation and the connections, stay. *)
Theorem addNode_then_deleteNode (w : World) (cur : loc) (self : Node.t loc)
    (siblings : list value) (name type x y : value) :
  currentNode (nodeSystem w) = Some cur ->
  heap w !! cur = Some self ->
  ids_of (heap w) (Node.children self) siblings ->
  generateId E (ids w) ∉ siblings ->
  assignable (Node.metadata self) ->
  exists l w1 w2 node self1 self2,
    NodeSystem.addNode E name type x y w = Ok l w1 /\
    heap w1 !! l = Some node /\ Node.id node = generateId E (ids w) /\
    Node.name node = name /\ Node.children node = [] /\
    heap w1 !! cur = Some self1 /\ Node.children self1 = Node.children self ++ [l] /\
    NodeSystem.deleteNode E (Node.id node) w1 = Ok true w2 /\
    heap w2 !! cur = Some self2 /\ Node.children self2 = Node.children self /\
    Node.id self2 = Node.id self /\ Node.name self2 = Node.name self /\
    Node.connections self2 = Node.connections self /\
    nodeSystem w2 = nodeSystem w /\ connectionSystem w2 = connectionSystem w.
Proof.
  intros Hcur Hself Hids Hfresh Hmd.
  destruct (set_prop_assignable _ "modifiedAt" (VNum (now E (S (S (ticks w))))) Hmd)
    as [md Hset].
  pose proof (addNode_ok w cur self name type x y md Hcur Hself Hset) as Hadd.
  cbv zeta in Hadd.
  apply lookup_lt_Some in Hself as Hlt.
  assert (Hne : cur <> length (heap w)) by lia.
  match type of Hadd with context [heap w ++ [?N]] => set (node := N) in * end.
  match type of Hadd with _ = Ok _ ?W => set (w1 := W) in * end.
  set (self1 := Node.set_metadata
                  (Node.set_children self (Node.children self ++ [length (heap w)])) md).
  assert (H1 : heap w1 !! cur = Some self1).
  { cbn. by rewrite list_lookup_insert_eq by (rewrite length_app; lia). }
  assert (Hl : heap w1 !! length (heap w) = Some node).
  { cbn. rewrite list_lookup_insert_ne by exact Hne.
    rewrite lookup_app_r by lia. by rewrite Nat.sub_diag. }
  assert (Hmd1 : assignable (Node.metadata self1)).
  { cbn. destruct (Node.metadata self); simpl in *; try done; by injection Hset as <-. }
  destruct (set_prop_assignable _ "modifiedAt" (VNum (now E (ticks w1))) Hmd1)
    as [md1 Hset1].
  assert (Hids1 : ids_of (heap w1) (Node.children self1) (siblings ++ [generateId E (ids w)])).
  { cbn. apply Forall2_app.
    - apply (ids_of_insert _ _ self); [ | done | by apply ids_of_app].
      by rewrite lookup_app_l by lia.
    - constructor; [ | constructor]. exists node. by split. }
  pose proof (removeChild_found w1 cur self1 _ (generateId E (ids w)) (length siblings) md1
                H1 Hids1 (index_of_last _ _ Hfresh) Hset1) as Hdel.
  match type of Hdel with context [<[cur := ?N]> (heap w1)] => set (self2 := N) in * end.
  match type of Hdel with _ = Ok _ ?W => set (w2 := W) in * end.
  exists (length (heap w)), w1, w2, node, self1, self2. split; [exact Hadd|].
  split_and!; try done.
  - unfold NodeSystem.deleteNode, NodeSystem.get_state, read_world.
    rewrite bind_step. cbv beta iota.
    change (currentNode (nodeSystem w1)) with (currentNode (nodeSystem w)).
    rewrite Hcur. exact Hdel.
  - cbn. by rewrite list_lookup_insert_eq
      by (rewrite length_insert, length_app; lia).
  - cbn. rewrite <- (Forall2_length _ _ _ Hids). apply delete_last.
Qed.

(** X9.  [deleteNode] returns, and answers whether a child of the current
    node has the id; when none has, nothing changes, not even
    [modifiedAt]. *)
Theorem deleteNode_answers (w : World) (cur : loc) (self : Node.t loc)
    (siblings : list value) (nodeId : value) :
  currentNode (nodeSystem w) = Some cur ->
  heap w !! cur = Some self ->
  ids_of (heap w) (Node.children self) siblings ->
  assignable (Node.metadata self) ->
  exists b w1,
    NodeSystem.deleteNode E nodeId w = Ok b w1 /\
    (b = true <-> nodeId ∈ siblings) /\
    (b = false -> w1 = w).
Proof.
  intros Hcur Hself Hids Hmd.
  unfold NodeSystem.deleteNode, NodeSystem.get_state, read_world.
  rewrite bind_step. cbv beta iota. rewrite Hcur.
  destruct (index_of nodeId siblings) as [i|] eqn:Hi.
  - destruct (set_prop_assignable _ "modifiedAt" (VNum (now E (ticks w))) Hmd) as [md Hset].
    rewrite (removeChild_found w cur self siblings nodeId i md) by done.
    eexists _, _. split; [reflexivity|]. split; [ | done].
    split; [intros _ | done]. apply index_of_Some in Hi as [Hi _].
    by eapply list_elem_of_lookup_2.
  - apply index_of_None in Hi.
    rewrite (removeChild_absent w cur self siblings nodeId) by done.
    eexists _, _. split; [reflexivity|]. split; [ | done].
    split; [done | by intros ?%Hi].
Qed.

End Child_facts.

Lemma deleteNode_hides_connections_witness :
  exists w1 found,
    NodeSystem.deleteNode demo_env (VStr "node_1") connected_world = Ok true w1 /\
    ConnectionSystem.getConnectionsForLevel (Some 0%nat) w1 = Ok found w1 /\
    connections (connectionSystem w1) = [(VStr "node_1", [demo_connection])] /\
    demo_connection ∉ found.
Proof.
  assert (Hnd : NoDup [VStr "node_1"; VStr "node_2"]).
  { apply NoDup_cons. split; [ | apply NoDup_singleton].
    by intros [=]%list_elem_of_singleton. }
  destruct (deleteNode_hides_connections demo_env connected_world 0 _
              [VStr "node_1"; VStr "node_2"] (VStr "node_1") eq_refl eq_refl ids_of_demo
              Hnd (list_elem_of_here _ _) I store_ok_connected)
    as (w1 & found & Hdel & Hlevel & Hm & Hfound).
  exists w1, found. split_and!; [exact Hdel | exact Hlevel | exact Hm | ].
  intros (_ & _ & _ & Hne & _)%Hfound. by apply Hne.
Defined.

Lemma ids_of_demo_world :
  ids_of (heap demo_world) [1%nat; 2%nat] [VStr "node_1"; VStr "node_2"].
Proof. repeat constructor; eexists; (split; [reflexivity|reflexivity]). Qed.

Lemma node_3_is_new : VStr "node_3" ∉ [VStr "node_1"; VStr "node_2"].
Proof.
  intros H. repeat (apply elem_of_cons in H as [H | H]; [discriminate|]).
  by apply elem_of_nil in H.
Qed.

Lemma addNode_then_deleteNode_witness :
  exists l w1 w2 self2,
    NodeSystem.addNode demo_env (VStr "D") (VStr "logic") VUndef VUndef demo_world
    = Ok l w1 /\
    NodeSystem.deleteNode demo_env (VStr "node_3") w1 = Ok true w2 /\
    heap w2 !! 0%nat = Some self2 /\ Node.children self2 = [1%nat; 2%nat].
Proof.
  destruct (addNode_then_deleteNode demo_env demo_world 0 _ _ (VStr "D") (VStr "logic")
              VUndef VUndef eq_refl eq_refl ids_of_demo_world node_3_is_new I)
    as (l & w1 & w2 & node & self1 & self2 & Hadd & _ & Hid & _ & _ & _ & _ & Hdel
        & Hcur & Hch & _).
  exists l, w1, w2, self2. rewrite Hid in Hdel.
  split_and!; [exact Hadd | exact Hdel | exact Hcur | exact Hch].
Defined.

Lemma deleteNode_answers_witness :
  exists b w1,
    NodeSystem.deleteNode demo_env (VStr "node_7") demo_world = Ok b w1 /\
    (b = true <-> VStr "node_7" ∈ [VStr "node_1"; VStr "node_2"]) /\
    (b = false -> w1 = demo_world).
Proof.
  exact (deleteNode_answers demo_env demo_world 0 _ _ (VStr "node_7") eq_refl eq_refl
           ids_of_demo_world I).
Defined.

(** ** Clearing a level *)

Section clearLevel_facts.
Import ConnectionSystem.
Implicit Types (m : list (value * list Connection.t)).

Arguments id_of : simpl never.

(** The entries of [m] whose key is not among [ks]. *)
Lemma JsMap_remove_filter {V} k (m : list (value * V)) :
  NoDup (JsMap.keys m) ->
  JsMap.remove k m = List.filter (fun kv => negb (strict_eq (fst kv) k)) m.
Proof.
  induction m as [ | [k0 v0] m IH]; simpl; [done|].
  intros [Hk0 Hnd]%NoDup_cons. destruct (strict_eq k0 k) eqn:Hk; simpl.
  - apply strict_eq_iff in Hk as ->. clear IH.
    induction m as [ | [k1 v1] m IH]; simpl; [done|].
    simpl in Hk0. apply not_elem_of_cons in Hk0 as [Hne Hk0].
    apply NoDup_cons in Hnd as [_ Hnd].
    assert (Hne' : k1 <> k) by congruence.
    apply strict_eq_false_iff in Hne' as ->. simpl. by rewrite <- IH.
  - by rewrite IH.
Qed.

Lemma NoDup_keys_filter {V} (f : value * V -> bool) (m : list (value * V)) :
  NoDup (JsMap.keys m) -> NoDup (JsMap.keys (List.filter f m)).
Proof.
  induction m as [ | [k0 v0] m IH]; simpl; [done|].
  intros [Hk0 Hnd]%NoDup_cons. destruct (f (k0, v0)); simpl; [ | by apply IH].
  apply NoDup_cons. split; [ | by apply IH].
  intros Hin. apply Hk0. unfold JsMap.keys in *.
  apply (list_elem_of_fmap_1 _) in Hin as ([k v] & -> & Hin).
  apply elem_of_List_filter in Hin as [_ Hin].
  exact (list_elem_of_fmap_2 fst _ _ Hin).
Qed.

Lemma strict_eq_sym a b : strict_eq a b = strict_eq b a.
Proof.
  destruct (strict_eq a b) eqn:H.
  - apply strict_eq_iff in H as ->. by rewrite strict_eq_refl.
  - apply strict_eq_false_iff in H. symmetry. apply strict_eq_false_iff. congruence.
Qed.

Lemma filter_two {A} (f g : A -> bool) (l : list A) :
  List.filter g (List.filter f l) = List.filter (fun a => f a && g a) l.
Proof.
  induction l as [ | a l IH]; simpl; [done|].
  destruct (f a); simpl; [ | done]. destruct (g a); by rewrite IH.
Qed.

Lemma filter_all {A} (l : list A) : List.filter (fun _ => true) l = l.
Proof. induction l as [ | a l IH]; simpl; [done | by rewrite IH]. Qed.

Lemma remove_step k (w : World) :
  (let* s := get_state in set_connections (JsMap.remove k (connections s))) w
  = Ok tt (with_connections (JsMap.remove k (connections (connectionSystem w))) w).
Proof. reflexivity. Qed.

Lemma with_connections_twice m m' (w : World) :
  with_connections m' (with_connections m w) = with_connections m' w.
Proof. reflexivity. Qed.

Lemma connections_with_connections m (w : World) :
  connections (connectionSystem (with_connections m w)) = m.
Proof. reflexivity. Qed.

Lemma remove_all (ks : list value) : forall (w : World),
  NoDup (JsMap.keys (connections (connectionSystem w))) ->
  forEach (fun nodeId =>
             let* s := get_state in
             set_connections (JsMap.remove nodeId (connections s))) ks w
  = Ok tt (with_connections
             (List.filter (fun kv => negb (Set_has ks (fst kv)))
                (connections (connectionSystem w))) w).
Proof.
  induction ks as [ | k ks IH]; intros w Hnd; simpl.
  - rewrite filter_all. by destruct w as [? ? ? ? ? []].
  - rewrite bind_step, remove_step, JsMap_remove_filter by exact Hnd.
    rewrite IH by (rewrite connections_with_connections; by apply NoDup_keys_filter).
    rewrite with_connections_twice, connections_with_connections. do 2 f_equal.
    rewrite filter_two.
    apply List.filter_ext. intros [k0 v0]. simpl. unfold Set_has. simpl.
    rewrite (strict_eq_sym k k0). by rewrite negb_orb.
Qed.

Lemma Set_has_Set_of (l : list value) v : Set_has (Set_of l) v = Set_has l v.
Proof.
  apply eq_true_iff_eq. by rewrite !Set_has_iff, Set_of_elem.
Qed.

Lemma all_connections_filter (ks : list value) m :
  store_ok m ->
  all_connections (List.filter (fun kv => negb (Set_has ks (fst kv))) m)
  = List.filter (fun c => negb (Set_has ks (Connection.sourceId c))) (all_connections m).
Proof.
  intros [_ Hm]. induction Hm as [ | [k b] m Hb _ IH]; simpl; [done|].
  cbn. fold (all_connections m). rewrite List.filter_app, <- IH. simpl in Hb.
  assert (Hfb : List.filter (fun c => negb (Set_has ks (Connection.sourceId c))) b
                = if negb (Set_has ks k) then b else []).
  { clear IH. induction Hb as [ | c b Hc _ IHb]; simpl; [by destruct (negb _)|].
    rewrite IHb, Hc. by destruct (negb _). }
  rewrite Hfb. by destruct (negb (Set_has ks k)).
Qed.

Lemma store_ok_filter (f : value * list Connection.t -> bool) m :
  store_ok m -> store_ok (List.filter f m).
Proof.
  intros [Hnd Hm]. split; [by apply NoDup_keys_filter|].
  apply Forall_forall. intros kv [_ Hkv]%elem_of_List_filter.
  exact (proj1 (Forall_forall _ _) Hm kv Hkv).
Qed.

Lemma level_of_cleared (ids : list value) m :
  level_of ids (List.filter (fun kv => negb (Set_has ids (fst kv))) m) = [].
Proof.
  unfold level_of.
  assert (H : forall v, v ∈ ids ->
            JsMap.get v (List.filter (fun kv => negb (Set_has ids (fst kv))) m) = None).
  { intros v Hv. apply JsMap_get_None. unfold JsMap.keys.
    intros ([k b] & -> & [Hk _]%elem_of_List_filter)%(list_elem_of_fmap_1 _).
    simpl in *. apply Set_has_iff in Hv. by rewrite Hv in Hk. }
  generalize (Set_of ids) at 1. intros s.
  assert (Hl : forall l, (forall v, v ∈ l -> v ∈ ids) ->
            concat (map (fun v => List.filter
                                    (fun conn => Set_has s (Connection.targetId conn))
                                    (default [] (JsMap.get v
                                       (List.filter (fun kv => negb (Set_has ids (fst kv))) m))))
                      l) = []).
  { induction l as [ | v l IH]; intros Hsub; simpl; [done|].
    rewrite H by apply Hsub, list_elem_of_here. simpl. apply IH.
    intros u Hu. by apply Hsub, list_elem_of_further. }
  by apply Hl.
Qed.

(** X10.  [clearLevel] drops the bucket of every child of the node.  Over
    a store keyed by source id, the connections that leave are those whose
    source id is the id of a child, wherever they lead, and the others
    stay in their order, also those that lead to a child; no node is
    touched.  Afterwards [getConnectionsForLevel] finds nothing. *)
Theorem clearLevel_removes (w : World) (cur : loc) (self : Node.t loc) (childIds : list value) :
  heap w !! cur = Some self ->
  ids_of (heap w) (Node.children self) childIds ->
  store_ok (connections (connectionSystem w)) ->
  exists w1,
    clearLevel (Some cur) w = Ok tt w1 /\
    heap w1 = heap w /\ nodeSystem w1 = nodeSystem w /\
    all_connections (connections (connectionSystem w1))
    = List.filter (fun c => negb (Set_has childIds (Connection.sourceId c)))
        (all_connections (connections (connectionSystem w))) /\
    store_ok (connections (connectionSystem w1)) /\
    getConnectionsForLevel (Some cur) w1 = Ok [] w1.
Proof.
  intros Hcur Hids Hok. unfold clearLevel.
  rewrite bind_step. unfold deref at 1. rewrite Hcur.
  rewrite bind_step, (mapM_id_of w _ childIds) by exact Hids.
  rewrite remove_all by apply Hok.
  rewrite (List.filter_ext _ (fun kv => negb (Set_has childIds (fst kv))))
    by (intros kv; by rewrite Set_has_Set_of).
  eexists. split; [reflexivity|].
  rewrite connections_with_connections.
  split_and!; [done | done | by apply all_connections_filter | by apply store_ok_filter | ].
  rewrite (getConnectionsForLevel_eq _ cur self childIds) by done.
  by rewrite connections_with_connections, level_of_cleared.
Qed.

End clearLevel_facts.

Lemma clearLevel_removes_witness :
  exists w1,
    ConnectionSystem.clearLevel (Some 0%nat) connected_world = Ok tt w1 /\
    connections (connectionSystem w1) = [] /\
    heap w1 = heap connected_world.
Proof.
  destruct (clearLevel_removes connected_world 0 _ _ eq_refl ids_of_demo store_ok_connected)
    as (w1 & Hrun & Hheap & _).
  exists w1. split_and!; [exact Hrun | | exact Hheap].
  injection Hrun as <-. reflexivity.
Defined.

(** ** Exporting and importing the connections *)

Lemma JsMap_get_middle {V} k (pre post : list (value * V)) v :
  k ∉ JsMap.keys pre -> JsMap.get k (pre ++ (k, v) :: post) = Some v.
Proof.
  induction pre as [ | [k0 v0] pre IH]; simpl.
  - by rewrite strict_eq_refl.
  - intros [Hne Hk]%not_elem_of_cons.
    assert (Hne' : k0 <> k) by congruence.
    apply strict_eq_false_iff in Hne' as ->. by apply IH.
Qed.

Lemma add_all_app conns conns' m : add_all (conns ++ conns') m = add_all conns' (add_all conns m).
Proof. unfold add_all. apply fold_left_app. Qed.

Lemma add_all_same_source k b : forall m0 b0,
  k ∉ JsMap.keys m0 -> Forall (fun c => Connection.sourceId c = k) b ->
  add_all b (m0 ++ [(k, b0)]) = m0 ++ [(k, b0 ++ b)].
Proof.
  induction b as [ | c b IH]; intros m0 b0 Hk Hb; simpl.
  - by rewrite app_nil_r.
  - apply Forall_cons in Hb as [-> Hb]. unfold add_to_bucket.
    rewrite JsMap_get_middle by exact Hk. simpl.
    rewrite JsMap_set_split by exact Hk.
    fold (add_all b (m0 ++ [(Connection.sourceId c, b0 ++ [c])])).
    rewrite IH by done. by rewrite <- app_assoc.
Qed.

(** Grouping the connections of a store by source id, in the order of the
    export, gives the store again. *)
Lemma add_all_regroup m : forall m0,
  NoDup (JsMap.keys (m0 ++ m)) ->
  Forall (fun kv => Forall (fun c => Connection.sourceId c = fst kv) (snd kv)) m ->
  no_empty_bucket m ->
  add_all (ConnectionSystem.all_connections m) m0 = m0 ++ m.
Proof.
  induction m as [ | [k b] m IH]; intros m0 Hnd Hsrc Hne; simpl.
  - by rewrite app_nil_r.
  - cbn. fold (ConnectionSystem.all_connections m). rewrite add_all_app.
    apply Forall_cons in Hsrc as [Hb Hsrc]. apply Forall_cons in Hne as [Hbne Hne].
    simpl in Hb, Hbne.
    assert (Hk : k ∉ JsMap.keys m0).
    { unfold JsMap.keys in *. rewrite map_app in Hnd.
      apply NoDup_app in Hnd as (_ & Hdisj & _). intros Hin.
      apply (Hdisj k Hin). simpl. apply list_elem_of_here. }
    assert (Hfirst : add_all b m0 = m0 ++ [(k, b)]).
    { destruct b as [ | c b]; [done|]. simpl.
      apply Forall_cons in Hb as [Hc Hb]. rewrite Hc. unfold add_to_bucket.
      apply JsMap_get_None in Hk. rewrite Hk. simpl.
      rewrite JsMap_set_absent by exact Hk.
      fold (add_all b (m0 ++ [(k, [c])])).
      apply JsMap_get_None in Hk. by rewrite add_all_same_source. }
    rewrite Hfirst, IH; [by rewrite <- app_assoc | | done | done].
    by rewrite <- app_assoc.
Qed.

Section Export_facts.
Import ConnectionSystem.
Context (E : Env).

Lemma Connection_fromJSON_toJSON (c : Connection.t) (w : World) :
  plain_connection c ->
  Connection.fromJSON E (Connection.toJSON c) w
  = Ok c (set_ticks (S (ticks w)) (set_ids (S (ids w)) w)).
Proof.
  intros (Ht & Hl & Hc & Hm). unfold Connection.fromJSON, read. mrun.
  rewrite !js_or_kept by (done || by left). by destruct c.
Qed.

(** Importing the export of a store [m], in whatever world. *)
Lemma importFromJSON_exported (m : list (value * list Connection.t)) (w : World) :
  store_ok m -> no_empty_bucket m -> Forall plain_connection (all_connections m) ->
  exists w1,
    importFromJSON E (VArr (map Connection.toJSON (all_connections m))) w = Ok tt w1 /\
    connections (connectionSystem w1) = m /\
    heap w1 = heap w /\ nodeSystem w1 = nodeSystem w /\
    notifications w1 = notifications w.
Proof.
  intros [Hnd Hsrc] Hne Hplain.
  assert (Hread : Forall readable (map Connection.toJSON (all_connections m))).
  { apply Forall_forall. intros d (c & -> & _)%(list_elem_of_fmap_1 _). by split. }
  unfold importFromJSON. mrun.
  match goal with |- context [forEach ?f ?items ?w0] =>
    destruct (import_loop E items w0 Hread)
      as (conns & w1 & Hrun & Hconns & Hm & Hh & Hn & Hnot & _) end.
  exists w1. rewrite Hrun. split; [done|]. split; [ | by split_and!].
  rewrite Hm. cbn.
  assert (Heq : conns = all_connections m).
  { clear -Hconns Hplain. revert conns Hconns.
    induction (all_connections m) as [ | c l IH]; intros conns H; simpl in H.
    - by inversion H.
    - inversion H as [ | d c' items conns' (w0 & w0' & Hc) Hrest]; subst.
      apply Forall_cons in Hplain as [Hp Hplain].
      rewrite Connection_fromJSON_toJSON in Hc by exact Hp. injection Hc as <- _.
      f_equal. by apply IH. }
  rewrite Heq. by apply (add_all_regroup m []).
Qed.

(** X11.  What [exportToJSON] writes, [importFromJSON] reads back to the
    same store: the same buckets in the same order with the same
    connections, when the store is keyed by source id, has no empty
    bucket, and holds connections whose type and metadata are truthy,
    whose label is truthy or empty and whose condition is truthy or null.
    The export changes nothing, and the import changes no node. *)
Theorem export_then_import (w : World) :
  store_ok (connections (connectionSystem w)) ->
  no_empty_bucket (connections (connectionSystem w)) ->
  Forall plain_connection (all_connections (connections (connectionSystem w))) ->
  exists data w1,
    exportToJSON w = Ok data w /\
    importFromJSON E data w = Ok tt w1 /\
    connections (connectionSystem w1) = connections (connectionSystem w) /\
    heap w1 = heap w /\ nodeSystem w1 = nodeSystem w.
Proof.
  intros Hok Hne Hplain.
  destruct (importFromJSON_exported _ w Hok Hne Hplain) as (w1 & Hrun & Hm & Hh & Hn & _).
  exists (VArr (map Connection.toJSON (all_connections (connections (connectionSystem w))))),
    w1.
  by split_and!.
Qed.

End Export_facts.

Lemma plain_demo_connection : plain_connection demo_connection.
Proof. split_and!; [done | by right | by right | done]. Qed.

Lemma export_then_import_witness :
  exists data w1,
    ConnectionSystem.exportToJSON connected_world = Ok data connected_world /\
    ConnectionSystem.importFromJSON demo_env data connected_world = Ok tt w1 /\
    connections (connectionSystem w1) = [(VStr "node_1", [demo_connection])].
Proof.
  assert (Hne : no_empty_bucket (connections (connectionSystem connected_world)))
    by (repeat constructor; discriminate).
  destruct (export_then_import demo_env connected_world store_ok_connected Hne
              (Forall_cons_2 _ _ _ plain_demo_connection (Forall_nil_2 _)))
    as (data & w1 & Hexp & Himp & Hm & _).
  exists data, w1. split_and!; [exact Hexp | exact Himp | exact Hm].
Defined.

(** ** Exporting and importing a tree *)

Lemma plain_tree_nested_ind (P : Node.tree -> Prop) :
  (forall node,
      Node.type node <> VUndef -> Node.x node <> VUndef -> Node.y node <> VUndef ->
      truthy (Node.connections node) = true ->
      truthy (Node.metadata node) = true ->
      Forall plain_tree (Node.children node) ->
      Forall P (Node.children node) ->
      P (Node.Tree node)) ->
  forall t, plain_tree t -> P t.
Proof.
  intros IH. fix rec 2. intros t [node Ht Hx Hy Hc Hm Hch].
  apply IH; try done.
  clear -rec Hch. induction Hch as [ | c cs Hc _ IHcs].
  - apply Forall_nil_2.
  - apply Forall_cons_2; [exact (rec c Hc) | exact IHcs].
Qed.

(** Decides the comparisons of key names that reading a field leaves. *)
Ltac decide_keys :=
  repeat match goal with
         | |- context [bool_decide (?a = ?b)] =>
             let r := eval vm_compute in (bool_decide (a = b)) in
             change (bool_decide (a = b)) with r
         end.

Section Tree_facts.
Context (E : Env).

(** [Node.fromJSON] reads what [toJSON] wrote back to the same tree.  It
    makes one node after the other with [new Node], which generates an id
    for each that the stored id then replaces: as many ids are used up as
    the tree has nodes. *)
Lemma Node_fromJSON_toJSON (t : Node.tree) :
  plain_tree t ->
  forall w, exists w',
    Node.fromJSON E (Node.toJSON t) w = Ok t w' /\
    ids w' = (ids w + tree_size t)%nat /\
    ticks w' = (ticks w + 2 * tree_size t)%nat /\
    heap w' = heap w /\ nodeSystem w' = nodeSystem w /\
    connectionSystem w' = connectionSystem w /\ notifications w' = notifications w.
Proof.
  induction 1 as [node Ht Hx Hy Hc Hm Hch IH] using plain_tree_nested_ind.
  intros w. rewrite fromJSON_unfold. unfold read. cbn [Node.toJSON].
  mrun. decide_keys. mrun.
  rewrite !default_arg_defined by done. unfold js_or. rewrite Hc, Hm.
  match goal with |- context [mapM ?f ?l ?w0] =>
    assert (Hkids : exists w', mapM f l w0 = Ok (Node.children node) w' /\
              ids w' = (ids w0 + list_sum (map tree_size (Node.children node)))%nat /\
              ticks w' = (ticks w0 + 2 * list_sum (map tree_size (Node.children node)))%nat /\
              heap w' = heap w0 /\ nodeSystem w' = nodeSystem w0 /\
              connectionSystem w' = connectionSystem w0 /\
              notifications w' = notifications w0);
    [ generalize w0 | ]
  end.
  { clear -IH. induction IH as [ | c cs Hc _ IHcs]; intros w0; simpl.
    - exists w0. split_and!; try done; lia.
    - destruct (Hc w0) as (w1 & Hrun & Hi & Hti & Hh & Hn & Hs & Hno).
      destruct (IHcs w1) as (w2 & Hrun2 & Hi2 & Hti2 & Hh2 & Hn2 & Hs2 & Hno2).
      exists w2. rewrite bind_step, Hrun, bind_step, Hrun2.
      split_and!; try done; try congruence; lia. }
  destruct Hkids as (w' & Hrun & Hi & Hti & Hh & Hn & Hs & Hno).
  rewrite Hrun. exists w'. cbn in *.
  split_and!; try done; try lia. by destruct node.
Qed.

End Tree_facts.

Lemma plain_demo_tree : plain_tree demo_tree.
Proof.
  constructor; try discriminate; try reflexivity.
  repeat constructor; discriminate.
Qed.

(** ** What a navigation call does and does not do *)

Section Navigation_facts.

(** X13.  A navigation call that answers false has changed nothing.  One
    that answers true has left the stack not empty with the current node
    as its top, whatever the state before, and has cleared the selection.
    Either way no node, and neither the root, the hovered node, the
    connections nor the notifications change. *)
Theorem nav_call_effect (c : nav_command) (w w' : World) (r : bool) :
  nav_call c w = Ok r w' ->
  (r = false -> w' = w) /\
  (r = true -> current_is_top w' /\ selectedNode (nodeSystem w') = None) /\
  heap w' = heap w /\
  rootNode (nodeSystem w') = rootNode (nodeSystem w) /\
  hoveredNode (nodeSystem w') = hoveredNode (nodeSystem w) /\
  connectionSystem w' = connectionSystem w /\
  notifications w' = notifications w.
Proof.
  destruct c as [[n|] | | index]; cbn [nav_call].
  - rewrite navigateToNode_eq. destruct (heap w !! n) as [self|]; [|done].
    case_bool_decide; intros [= <- <-]; split_and!; try done.
    intros _. split; [|done]. split; cbn.
    + by destruct (navigationStack (nodeSystem w)).
    + by rewrite last_snoc.
  - intros [= <- <-]. by split_and!.
  - unfold NodeSystem.navigateBack. mrun.
    case_bool_decide as Hlen; intros [= <- <-]; split_and!; try done.
    intros _. split; [|done]. split; cbn; [|done].
    destruct (navigationStack (nodeSystem w)) as [ | a [ | b l]]; simpl in *; try lia.
    done.
  - unfold NodeSystem.navigateToStackIndex. mrun.
    case_bool_decide as Hlen; intros [= <- <-]; split_and!; try done.
    intros _. split; [|done]. split; cbn; [|done].
    apply take_nonempty; [ | lia].
    destruct (navigationStack (nodeSystem w)); simpl in *; [lia | done].
Qed.

Lemma navigateBack_eq (w : World) :
  NodeSystem.navigateBack w =
  if bool_decide (1 < length (navigationStack (nodeSystem w)))%nat then
    Ok true (set_nodeSystem
               (Build_NodeSystemState (rootNode (nodeSystem w))
                  (last (removelast (navigationStack (nodeSystem w))))
                  (removelast (navigationStack (nodeSystem w))) None
                  (hoveredNode (nodeSystem w))) w)
  else Ok false w.
Proof. unfold NodeSystem.navigateBack. mrun. by case_bool_decide. Qed.

(** X14.  Going into a node that has children and back again gives the
    stack and the current node back, when the current node was the top of
    the stack; both calls answer true, and the selection is cleared. *)
Theorem navigateToNode_then_navigateBack (w : World) (n : loc) (self : Node.t loc) :
  current_is_top w ->
  heap w !! n = Some self -> Node.children self <> [] ->
  exists w1 w2,
    NodeSystem.navigateToNode (Some n) w = Ok true w1 /\
    NodeSystem.navigateBack w1 = Ok true w2 /\
    navigationStack (nodeSystem w2) = navigationStack (nodeSystem w) /\
    currentNode (nodeSystem w2) = currentNode (nodeSystem w) /\
    selectedNode (nodeSystem w2) = None /\
    heap w2 = heap w.
Proof.
  intros [Hne Htop] Hn Hch. rewrite navigateToNode_eq, Hn.
  rewrite bool_decide_eq_true_2 by (destruct (Node.children self); simpl; [done | lia]).
  eexists _, _. split; [reflexivity|]. rewrite navigateBack_eq. cbn.
  rewrite bool_decide_eq_true_2.
  2:{ rewrite length_app. simpl.
      destruct (navigationStack (nodeSystem w)); simpl; [done | lia]. }
  split; [reflexivity|]. cbn. rewrite removelast_last. by split_and!.
Qed.

Lemma removelast_take {A} (l : list A) : removelast l = take (length l - 1) l.
Proof.
  induction l as [ | a l IH]; [done|].
  destruct l as [ | b l]; [done|].
  change (removelast (a :: b :: l)) with (a :: removelast (b :: l)).
  rewrite IH. simpl. by rewrite Nat.sub_0_r.
Qed.

(** [k] times [navigateBack], on a stack deep enough. *)
Lemma navigateBack_times (k : nat) : forall w,
  (k < length (navigationStack (nodeSystem w)))%nat ->
  navigationStack (nodeSystem (nav_run (replicate k NavigateBack) w))
  = take (length (navigationStack (nodeSystem w)) - k) (navigationStack (nodeSystem w)) /\
  currentNode (nodeSystem (nav_run (replicate k NavigateBack) w))
  = match k with
    | O => currentNode (nodeSystem w)
    | S _ => last (take (length (navigationStack (nodeSystem w)) - k)
                     (navigationStack (nodeSystem w)))
    end.
Proof.
  induction k as [ | k IH]; intros w Hk; simpl.
  - by rewrite Nat.sub_0_r, firstn_all.
  - unfold world_after. rewrite navigateBack_eq, bool_decide_eq_true_2 by lia.
    set (L := navigationStack (nodeSystem w)) in *.
    match goal with |- context [nav_run _ ?W] => set (w1 := W) end.
    assert (HL1 : navigationStack (nodeSystem w1) = take (length L - 1) L)
      by (cbn; apply removelast_take).
    assert (HC1 : currentNode (nodeSystem w1) = last (take (length L - 1) L))
      by (cbn; by rewrite removelast_take).
    destruct (IH w1) as [Hs Hc]; [rewrite HL1, length_take; lia|].
    rewrite Hs, Hc, HL1, HC1, length_take, take_take.
    split; [f_equal; lia|].
    destruct k; [do 2 f_equal; lia|]. rewrite ?take_take. do 2 f_equal. lia.
Qed.

(** X15.  A click on the breadcrumb at position [i] leads where going
    back once for every entry above [i] leads: [navigateToStackIndex(i)]
    leaves the same stack as [length - 1 - i] calls of [navigateBack],
    and the same current node when the current node was the top of the
    stack. *)
Theorem navigateToStackIndex_as_navigateBack (w : World) (i : nat) :
  (i < length (navigationStack (nodeSystem w)))%nat ->
  let w1 := world_after (NodeSystem.navigateToStackIndex (Z.of_nat i)) w in
  let w2 := nav_run (replicate (length (navigationStack (nodeSystem w)) - 1 - i)
                       NavigateBack) w in
  navigationStack (nodeSystem w1) = navigationStack (nodeSystem w2) /\
  (current_is_top w -> currentNode (nodeSystem w1) = currentNode (nodeSystem w2)).
Proof.
  intros Hi w1 w2.
  destruct (navigateBack_times (length (navigationStack (nodeSystem w)) - 1 - i) w)
    as [Hs Hc]; [lia|].
  fold w2 in Hs, Hc.
  assert (Hw1 : nodeSystem w1
                = Build_NodeSystemState (rootNode (nodeSystem w))
                    (last (take (S i) (navigationStack (nodeSystem w))))
                    (take (S i) (navigationStack (nodeSystem w))) None
                    (hoveredNode (nodeSystem w))).
  { unfold w1, world_after, NodeSystem.navigateToStackIndex. mrun.
    rewrite bool_decide_eq_true_2 by lia. cbn.
    by replace (Z.to_nat (Z.of_nat i + 1)) with (S i) by lia. }
  rewrite Hw1, Hs, Hc. cbn.
  replace (length (navigationStack (nodeSystem w))
           - (length (navigationStack (nodeSystem w)) - 1 - i))%nat with (S i) by lia.
  split; [done|]. intros [_ Htop].
  destruct (length (navigationStack (nodeSystem w)) - 1 - i)%nat eqn:Hk; [ | done].
  rewrite Htop. f_equal. rewrite take_ge; [done | lia].
Qed.

End Navigation_facts.

Lemma navigateToNode_then_navigateBack_witness :
  exists w1 w2,
    NodeSystem.navigateToNode (Some 1%nat) deep_world = Ok true w1 /\
    NodeSystem.navigateBack w1 = Ok true w2 /\
    navigationStack (nodeSystem w2) = [0%nat] /\
    currentNode (nodeSystem w2) = Some 0%nat.
Proof.
  assert (Htop : current_is_top deep_world) by (split; [discriminate | reflexivity]).
  destruct (navigateToNode_then_navigateBack deep_world 1 _ Htop eq_refl)
    as (w1 & w2 & H1 & H2 & Hs & Hc & _); [discriminate|].
  exists w1, w2. split_and!; [exact H1 | exact H2 | exact Hs | exact Hc].
Defined.

Lemma nav_call_effect_witness :
  exists w',
    nav_call (NavigateToNode (Some 1%nat)) deep_world = Ok true w' /\
    current_is_top w' /\ selectedNode (nodeSystem w') = None.
Proof.
  destruct (nav_call_effect (NavigateToNode (Some 1%nat)) deep_world _ true eq_refl)
    as (_ & Ht & _).
  eexists. split; [reflexivity|]. exact (Ht eq_refl).
Defined.

Lemma navigateToStackIndex_as_navigateBack_witness :
  navigationStack (nodeSystem
    (world_after (NodeSystem.navigateToStackIndex 0)
       (nav_run [NavigateToNode (Some 1%nat)] deep_world))) = [0%nat] /\
  navigationStack (nodeSystem
    (nav_run [NavigateBack] (nav_run [NavigateToNode (Some 1%nat)] deep_world))) = [0%nat].
Proof.
  destruct (navigateToStackIndex_as_navigateBack
              (nav_run [NavigateToNode (Some 1%nat)] deep_world) 0 ltac:(simpl; lia))
    as [Hs _].
  split; [reflexivity|]. cbv zeta in Hs. simpl replicate in Hs. rewrite <- Hs. reflexivity.
Defined.

(** ** The canvas under its events *)

Section Engine_facts.
Import CanvasEngine.

(** X16.  For a viewport with a nonzero zoom, taking a screen point to the
    world and back gives the point again: with C2, the two transforms are
    inverse to each other. *)
Theorem worldToScreen_screenToWorld (vp : viewport) (sx sy : Qc) :
  zoom vp <> 0 ->
  worldToScreen vp (fst (screenToWorld vp sx sy)) (snd (screenToWorld vp sx sy))
  = (sx, sy).
Proof.
  intros Hz. unfold screenToWorld, worldToScreen. simpl.
  f_equal; field; exact Hz.
Qed.

Lemma engine_step_zoom rect s ev :
  minZoom (this_viewport s) <= 1 -> 1 <= maxZoom (this_viewport s) ->
  zoom_in_bounds (this_viewport s) ->
  minZoom (this_viewport (engine_step rect s ev)) = minZoom (this_viewport s) /\
  maxZoom (this_viewport (engine_step rect s ev)) = maxZoom (this_viewport s) /\
  zoom_in_bounds (this_viewport (engine_step rect s ev)).
Proof.
  intros Hlo Hhi Hin. destruct ev as [e [ | | w h] | e | | e | w h]; simpl;
    try (by split_and!).
  - unfold onMouseMove. destruct (isDragging s); simpl; by split_and!.
  - destruct (decide (accepted e (this_viewport s))) as [H | H].
    + rewrite onWheel_accepted by exact H. simpl. split_and!; try done.
    + rewrite onWheel_rejected by exact H. by split_and!.
Qed.

(** X17.  Whatever events reach the engine, in whatever order, the zoom
    bounds stay what they are and the zoom stays within them, when it
    started within them and the bounds have 1 between them, as the
    constructor's 0.1 and 3 have.  With a positive lower bound the zoom is
    never zero, so the transforms between screen and world stay inverse
    to each other. *)
Theorem engine_zoom_in_bounds (rect : Rect) (evs : list engine_event) (s : Engine) :
  minZoom (this_viewport s) <= 1 -> 1 <= maxZoom (this_viewport s) ->
  zoom_in_bounds (this_viewport s) ->
  let s' := engine_run rect evs s in
  minZoom (this_viewport s') = minZoom (this_viewport s) /\
  maxZoom (this_viewport s') = maxZoom (this_viewport s) /\
  zoom_in_bounds (this_viewport s') /\
  (0 < minZoom (this_viewport s) -> zoom (this_viewport s') <> 0).
Proof.
  revert s. induction evs as [ | ev evs IH]; intros s Hlo Hhi Hin; simpl.
  - split_and!; try done. intros Hpos H0. destruct Hin as [Hin _].
    rewrite H0 in Hin. by apply Qcle_not_lt in Hin.
  - destruct (engine_step_zoom rect s ev Hlo Hhi Hin) as (Hmin & Hmax & Hin').
    destruct (IH (engine_step rect s ev)) as (H1 & H2 & H3 & H4);
      [by rewrite Hmin | by rewrite Hmax | done | ].
    fold (engine_run rect evs (engine_step rect s ev)).
    rewrite Hmin in H1, H4. rewrite Hmax in H2. by split_and!.
Qed.



End Engine_facts.

Lemma worldToScreen_screenToWorld_witness :
  CanvasEngine.worldToScreen nearly_max
    (fst (CanvasEngine.screenToWorld nearly_max (Q2Qc 400) (Q2Qc 300)))
    (snd (CanvasEngine.screenToWorld nearly_max (Q2Qc 400) (Q2Qc 300)))
  = (Q2Qc 400, Q2Qc 300).
Proof.
  apply (worldToScreen_screenToWorld nearly_max (Q2Qc 400) (Q2Qc 300)). discriminate.
Defined.

Lemma engine_zoom_in_bounds_witness :
  zoom_in_bounds (CanvasEngine.this_viewport (engine_run origin canvas_session CanvasEngine.new)) /\
  CanvasEngine.zoom (CanvasEngine.this_viewport (engine_run origin canvas_session CanvasEngine.new))
  <> 0.
Proof.
  assert (Hlo : CanvasEngine.minZoom (CanvasEngine.this_viewport CanvasEngine.new) <= 1)
    by discriminate.
  assert (Hhi : 1 <= CanvasEngine.maxZoom (CanvasEngine.this_viewport CanvasEngine.new))
    by discriminate.
  assert (Hin : zoom_in_bounds (CanvasEngine.this_viewport CanvasEngine.new))
    by (split; discriminate).
  destruct (engine_zoom_in_bounds origin canvas_session CanvasEngine.new Hlo Hhi Hin)
    as (_ & _ & Hb & Hz).
  split; [exact Hb | apply Hz; reflexivity].
Defined.


(** ** Hit testing *)

Section hitTestNode_facts.
Context (isPointInCircle : value -> value -> value -> value -> value -> bool).

Lemma hit_test_first (hit : Node.t loc -> bool) (w : World) (nodes : list loc) :
  Forall (fun c => is_Some (heap w !! c)) nodes ->
  exists r,
    NodeSystem.hit_test hit nodes w = Ok r w /\
    match r with
    | Some c =>
        exists before after n,
          nodes = before ++ c :: after /\ heap w !! c = Some n /\ hit n = true /\
          Forall (fun b => forall k, heap w !! b = Some k -> hit k = false) before
    | None => Forall (fun b => forall k, heap w !! b = Some k -> hit k = false) nodes
    end.
Proof.
  induction 1 as [ | c nodes [n Hc] _ (r & Hrun & Hr)]; simpl.
  - exists None. by split.
  - rewrite bind_step. unfold deref at 1. rewrite Hc.
    destruct (hit n) eqn:Hn.
    + exists (Some c). split; [done|]. exists [], nodes, n. by split_and!.
    + assert (Hc' : forall k, heap w !! c = Some k -> hit k = false) by congruence.
      exists r. split; [exact Hrun|]. destruct r as [c'|].
      * destruct Hr as (before & after & n' & -> & Hc'' & Hn' & Hb).
        exists (c :: before), after, n'. split_and!; try done. by constructor.
      * by constructor.
Qed.

(** X19.  [hitTestNode] looks at the children of the current node from
    the last to the first and returns the last one whose circle of radius
    60 holds the point: a child drawn later, on top, wins over one below
    it.  It returns null when no circle holds the point, and changes
    nothing. *)
Theorem hitTestNode_topmost (w : World) (cur : loc) (self : Node.t loc) (worldX worldY : value) :
  currentNode (nodeSystem w) = Some cur ->
  heap w !! cur = Some self ->
  Forall (fun c => is_Some (heap w !! c)) (Node.children self) ->
  let hit node := isPointInCircle worldX worldY (Node.x node) (Node.y node) (VNum (Q2Qc 60)) in
  exists r,
    NodeSystem.hitTestNode isPointInCircle worldX worldY w = Ok r w /\
    match r with
    | Some c =>
        exists below above n,
          Node.children self = below ++ c :: above /\
          heap w !! c = Some n /\ hit n = true /\
          Forall (fun b => forall k, heap w !! b = Some k -> hit k = false) above
    | None =>
        Forall (fun b => forall k, heap w !! b = Some k -> hit k = false) (Node.children self)
    end.
Proof.
  intros Hcur Hself Hch hit.
  destruct (hit_test_first hit w (rev (Node.children self))) as (r & Hrun & Hr).
  { by apply Forall_rev. }
  exists r. split.
  { unfold NodeSystem.hitTestNode, NodeSystem.get_state, read_world.
    rewrite bind_step. cbv beta iota. rewrite Hcur. rewrite bind_step. cbn [lift ret].
    rewrite bind_step. unfold deref. rewrite Hself. exact Hrun. }
  destruct r as [c|].
  - destruct Hr as (before & after & n & Hrev & Hc & Hn & Hb).
    exists (rev after), (rev before), n. split_and!; try done.
    + apply (f_equal (@rev _)) in Hrev. rewrite rev_involutive in Hrev.
      rewrite Hrev, rev_app_distr. simpl. by rewrite <- app_assoc.
    + by apply Forall_rev.
  - apply Forall_rev in Hr. by rewrite rev_involutive in Hr.
Qed.

End hitTestNode_facts.

Lemma hitTestNode_topmost_witness :
  exists r,
    NodeSystem.hitTestNode in_circle (VNum (Q2Qc 10)) (VNum (Q2Qc 10)) demo_world
    = Ok r demo_world /\
    r = Some 2%nat.
Proof.
  assert (Hch : Forall (fun c => is_Some (heap demo_world !! c)) [1%nat; 2%nat])
    by (repeat constructor; by eexists).
  destruct (hitTestNode_topmost in_circle demo_world 0 _ (VNum (Q2Qc 10)) (VNum (Q2Qc 10))
              eq_refl eq_refl Hch) as (r & Hrun & _).
  exists r. split; [exact Hrun|].
  vm_compute in Hrun. by injection Hrun as <-.
Defined.

(** ** Names *)

Section Name_facts.
Import StorageSystem.

Ltac each_unit c := destruct c as [[] [] [] [] [] [] [] []]; vm_compute; try done.

Lemma sanitized_unit c :
  let c' := toLowerCase_unit (if alphanumeric c then c else underscore) in
  filename_unit c' = true /\
  toLowerCase_unit (if alphanumeric c' then c' else underscore) = c' /\
  (filename_unit c = true -> c' = c).
Proof. each_unit c; by split_and!. Qed.

(** X20.  [sanitizeFilename] turns every string into a string of the same
    length made of small ASCII letters, digits and underscores; it leaves
    such a string as it is, so sanitizing twice is sanitizing once. *)
Theorem sanitizeFilename_safe (s : string) :
  exists r,
    sanitizeFilename (VStr s) = Some r /\
    String.length r = String.length s /\
    all_units filename_unit r = true /\
    sanitizeFilename (VStr r) = Some r /\
    (all_units filename_unit s = true -> r = s).
Proof.
  eexists. split; [reflexivity|]. unfold replace_non_alphanumeric.
  induction s as [ | c s (Hlen & Hall & Hidem & Hid)]; [by split_and!|].
  destruct (sanitized_unit c) as (Hc1 & Hc2 & Hc3). cbv zeta in Hc1, Hc2, Hc3.
  cbn [map_units String.length all_units]. split_and!.
  - by rewrite Hlen.
  - by rewrite Hc1, Hall.
  - cbn [sanitizeFilename] in *. unfold replace_non_alphanumeric in *.
    cbn [map_units]. injection Hidem as Hidem. by rewrite Hc2, Hidem.
  - intros [H1 H2]%andb_true_iff. by rewrite Hc3, Hid.
Qed.

Lemma function_name_unit c :
  let c' := if alphanumeric c then c else underscore in
  identifier_unit c' = true /\ (identifier_unit c = true -> c' = c).
Proof. each_unit c; by split_and!. Qed.

(** X21.  [getFunctionName] turns the id of a node into a string of the
    same length made of ASCII letters, digits and underscores, and leaves
    an id that is made of these as it is.  It does not look at the first
    code unit: a name starts with a digit when the id does. *)
Theorem getFunctionName_identifier_units (s : string) :
  exists r,
    CodeGenerator.getFunctionName (VStr s) = Some r /\
    String.length r = String.length s /\
    all_units identifier_unit r = true /\
    (all_units identifier_unit s = true -> r = s) /\
    (forall c rest, s = String c rest -> alphanumeric c = true ->
                    exists rest', r = String c rest').
Proof.
  eexists. split; [reflexivity|]. unfold replace_non_alphanumeric. split_and!.
  - induction s as [ | c s IH]; [done|]. cbn [map_units String.length]. by rewrite IH.
  - induction s as [ | c s IH]; [done|]. cbn [map_units all_units].
    destruct (function_name_unit c) as [-> _]. exact IH.
  - induction s as [ | c s IH]; [done|]. cbn [map_units all_units].
    intros [H1 H2]%andb_true_iff.
    destruct (function_name_unit c) as [_ Hc]. cbv zeta in Hc. by rewrite Hc, IH.
  - intros c rest -> Hc. cbn [map_units]. rewrite Hc. by eexists.
Qed.

End Name_facts.

(** ** Saving and loading the tree *)

Lemma tree_nested_ind (P : Node.tree -> Prop) :
  (forall node, Forall P (Node.children node) -> P (Node.Tree node)) ->
  forall t, P t.
Proof.
  intros IH. fix rec 1. intros [node]. apply IH.
  exact ((fix go (cs : list Node.tree) : Forall P cs :=
            match cs with
            | [] => Forall_nil_2 P
            | c :: cs' => Forall_cons_2 P c cs' (rec c) (go cs')
            end) (Node.children node)).
Qed.

Lemma all_some_Forall2 {A B} (f : A -> option B) (l : list A) (r : list B) :
  NodeSystem.all_some (map f l) = Some r <-> Forall2 (fun a b => f a = Some b) l r.
Proof.
  revert r. induction l as [ | a l IH]; intros r; simpl.
  - split; [intros [= <-]; constructor | by inversion 1].
  - destruct (f a) as [b|] eqn:Hb.
    + destruct (NodeSystem.all_some (map f l)) as [r'|] eqn:Hr.
      * split.
        -- intros [= <-]. constructor; [done | by apply IH].
        -- inversion 1 as [ | ? b' ? r'' Hb' Hr'']; subst.
           apply IH in Hr''. congruence.
      * split; [done|]. inversion 1 as [ | ? b' ? r'' Hb' Hr'']; subst.
        by apply IH in Hr''.
    + split; [done|]. inversion 1; congruence.
Qed.

(** More fuel and a longer heap read the same tree. *)
Lemma tree_at_mono (fuel : nat) : forall h l t fuel' h',
  NodeSystem.tree_at fuel h l = Some t -> (fuel <= fuel')%nat ->
  NodeSystem.tree_at fuel' (h ++ h') l = Some t.
Proof.
  induction fuel as [ | fuel IH]; intros h l t fuel' h' Ht Hle; [done|].
  destruct fuel' as [ | fuel']; [lia|]. simpl in *.
  destruct (h !! l) as [n|] eqn:Hl; [|done].
  rewrite (lookup_app_l_Some _ _ _ _ Hl).
  destruct (NodeSystem.all_some (map (NodeSystem.tree_at fuel h) (Node.children n)))
    as [cs|] eqn:Hcs; [|done].
  apply all_some_Forall2 in Hcs.
  assert (Hcs' : NodeSystem.all_some
                   (map (NodeSystem.tree_at fuel' (h ++ h')) (Node.children n)) = Some cs).
  { apply all_some_Forall2. eapply Forall2_impl; [exact Hcs|].
    intros c tc Hc. simpl in Hc. apply IH; [done | lia]. }
  by rewrite Hcs'.
Qed.

Section Tree_heap_facts.
Context (E : Env).

(** The objects of a tree go to the end of the heap, and the walk from the
    new root reads the tree again. *)
Lemma alloc_tree_ok (t : Node.tree) : forall w,
  exists root w' ext,
    NodeSystem.alloc_tree t w = Ok root w' /\
    heap w' = heap w ++ ext /\
    NodeSystem.tree_at (tree_size t) (heap w') root = Some t /\
    ids w' = ids w /\ ticks w' = ticks w /\ notifications w' = notifications w /\
    nodeSystem w' = nodeSystem w /\ connectionSystem w' = connectionSystem w.
Proof.
  induction t as [node IH] using tree_nested_ind. intros w.
  cbn [NodeSystem.alloc_tree tree_size].
  assert (Hkids : exists locs w' ext,
            mapM NodeSystem.alloc_tree (Node.children node) w = Ok locs w' /\
            heap w' = heap w ++ ext /\
            Forall2 (fun l c => NodeSystem.tree_at
                                  (list_sum (map tree_size (Node.children node)))
                                  (heap w') l = Some c) locs (Node.children node) /\
            ids w' = ids w /\ ticks w' = ticks w /\ notifications w' = notifications w /\
            nodeSystem w' = nodeSystem w /\ connectionSystem w' = connectionSystem w).
  { clear -IH. revert w. induction IH as [ | c cs Hc _ IHcs]; intros w; simpl.
    - exists [], w, []. rewrite app_nil_r. by split_and!.
    - destruct (Hc w) as (l & w1 & ext1 & Hrun & Hh & Ht & Hi & Hti & Hno & Hn & Hs).
      destruct (IHcs w1) as (ls & w2 & ext2 & Hrun2 & Hh2 & Ht2 & Hi2 & Hti2 & Hno2 & Hn2 & Hs2).
      exists (l :: ls), w2, (ext1 ++ ext2).
      rewrite bind_step, Hrun, bind_step, Hrun2.
      split_and!; try done; try congruence.
      + by rewrite Hh2, Hh, app_assoc.
      + constructor.
        * rewrite Hh2. apply (tree_at_mono (tree_size c)); [done | lia].
        * eapply Forall2_impl; [exact Ht2|]. intros l' c' Hc'. simpl in Hc'.
          rewrite <- (app_nil_r (heap w2)).
          apply (tree_at_mono (list_sum (map tree_size cs))); [done | lia]. }
  destruct Hkids as (locs & w1 & ext & Hrun & Hh & Ht & Hi & Hti & Hno & Hn & Hs).
  rewrite bind_step, Hrun. unfold alloc.
  eexists _, _, (ext ++ [Node.set_children node locs]). split; [reflexivity|].
  cbn. split_and!; try done.
  - by rewrite Hh, app_assoc.
  - rewrite lookup_app_r by lia. rewrite Nat.sub_diag. cbn.
    assert (Hcs : NodeSystem.all_some
                    (map (NodeSystem.tree_at (list_sum (map tree_size (Node.children node)))
                            (heap w1 ++ [Node.set_children node locs])) locs)
                  = Some (Node.children node)).
    { apply all_some_Forall2. eapply Forall2_impl; [exact Ht|].
      intros l c Hc. simpl in Hc. by apply (tree_at_mono _ _ _ _ _ _ Hc). }
    rewrite Hcs. by destruct node.
Qed.

(** [importFromJSON] of an exported tree. *)
Lemma importFromJSON_tree (t : Node.tree) (w : World) :
  plain_tree t ->
  exists r1 w1 ext,
    NodeSystem.importFromJSON E (Node.toJSON t) w = Ok true w1 /\
    heap w1 = heap w ++ ext /\
    NodeSystem.tree_at (tree_size t) (heap w1) r1 = Some t /\
    nodeSystem w1 = Build_NodeSystemState (Some r1) (Some r1) [r1] None
                      (hoveredNode (nodeSystem w)) /\
    connectionSystem w1 = connectionSystem w /\ notifications w1 = notifications w.
Proof.
  intros Hplain. unfold NodeSystem.importFromJSON.
  assert (Htruthy : truthy (Node.toJSON t) = true) by (by destruct t).
  rewrite Htruthy.
  destruct (Node_fromJSON_toJSON E t Hplain w) as (w0 & Hrun & _ & _ & Hh & Hn & Hs & Hno).
  destruct (alloc_tree_ok t w0) as (r1 & w1 & ext & Hrun1 & Hh1 & Ht1 & _ & _ & Hno1 & Hn1 & Hs1).
  rewrite bind_step, Hrun, bind_step, Hrun1. mrun.
  exists r1. eexists _, ext. split; [reflexivity|]. cbn.
  split_and!; try done; congruence.
Qed.

(** X12.  What [NodeSystem.exportToJSON] writes, [importFromJSON] reads
    back as the same tree: the new root has the same fields as the old and
    the same trees below it, for every tree whose nodes have [type], [x]
    and [y] defined and [connections] and [metadata] truthy.  The nodes
    are new objects, the old ones stay as they are; the view is at the
    new root, the stack holds it alone, nothing is selected, and the
    connections are not touched. *)
Theorem exportToJSON_then_importFromJSON (w : World) (fuel : nat) (r : loc) (t : Node.tree) :
  rootNode (nodeSystem w) = Some r ->
  NodeSystem.tree_at fuel (heap w) r = Some t ->
  plain_tree t ->
  exists data w1 r1 ext,
    NodeSystem.exportToJSON fuel w = Ok data w /\
    data = Node.toJSON t /\
    NodeSystem.importFromJSON E data w = Ok true w1 /\
    heap w1 = heap w ++ ext /\
    NodeSystem.tree_at (tree_size t) (heap w1) r1 = Some t /\
    rootNode (nodeSystem w1) = Some r1 /\
    currentNode (nodeSystem w1) = Some r1 /\
    navigationStack (nodeSystem w1) = [r1] /\
    selectedNode (nodeSystem w1) = None /\
    connectionSystem w1 = connectionSystem w.
Proof.
  intros Hroot Ht Hplain.
  destruct (importFromJSON_tree t w Hplain) as (r1 & w1 & ext & Hrun & Hh & Ht1 & Hn & Hs & _).
  exists (Node.toJSON t), w1, r1, ext. split.
  { unfold NodeSystem.exportToJSON, NodeSystem.get_state, read_world.
    rewrite bind_step. cbv beta iota. rewrite Hroot, bind_step. cbv beta iota.
    rewrite Ht. reflexivity. }
  rewrite Hn. by split_and!.
Qed.

End Tree_heap_facts.

Lemma exportToJSON_then_importFromJSON_witness :
  exists data w1 r1,
    NodeSystem.exportToJSON 2 loaded_world = Ok data loaded_world /\
    NodeSystem.importFromJSON demo_env data loaded_world = Ok true w1 /\
    NodeSystem.tree_at 2 (heap w1) r1 = Some demo_tree /\
    rootNode (nodeSystem w1) = Some r1.
Proof.
  destruct (exportToJSON_then_importFromJSON demo_env loaded_world 2 1 demo_tree
              eq_refl eq_refl plain_demo_tree)
    as (data & w1 & r1 & ext & Hexp & _ & Himp & _ & Ht & Hr & _).
  exists data, w1, r1. split_and!; [exact Hexp | exact Himp | exact Ht | exact Hr].
Defined.

(** ** Saving and loading the application *)

Section Storage_facts.
Context (E : Env) (draw : M unit).

Arguments NodeSystem.importFromJSON : simpl never.
Arguments ConnectionSystem.importFromJSON : simpl never.
Arguments Node.toJSON : simpl never.

(** The data object in closed form, for a tree under the root. *)
Lemma data_object_ok (w : World) (stamp : string) (fuel : nat) (r : loc) (t : Node.tree) :
  rootNode (nodeSystem w) = Some r ->
  NodeSystem.tree_at fuel (heap w) r = Some t ->
  StorageSystem.data_object E stamp fuel w
  = Ok (VObj [("version", VStr "1.0"); (stamp, VNum (now E (ticks w)));
              ("rootNode", Node.toJSON t);
              ("connections",
               VArr (map Connection.toJSON
                       (ConnectionSystem.all_connections (connections (connectionSystem w)))));
              ("metadata",
               VObj [("appName", js_or (Node.name (Node.node_of t)) (VStr "Untitled App"))])])
      (set_ticks (S (ticks w)) w).
Proof.
  intros Hroot Ht.
  assert (Hname : exists n, heap w !! r = Some n /\ Node.name n = Node.name (Node.node_of t)).
  { destruct fuel as [ | fuel]; [done|]. simpl in Ht.
    destruct (heap w !! r) as [n|]; [|done].
    destruct (NodeSystem.all_some _) as [cs|]; [|done].
    injection Ht as <-. by exists n. }
  destruct Hname as (n & Hl & Hname).
  unfold StorageSystem.data_object, Date_now.
  rewrite bind_step. cbv beta iota.
  set (w0 := set_ticks (S (ticks w)) w).
  assert (Hroot0 : rootNode (nodeSystem w0) = Some r) by exact Hroot.
  assert (Hl0 : heap w0 !! r = Some n) by exact Hl.
  assert (Ht0 : NodeSystem.tree_at fuel (heap w0) r = Some t) by exact Ht.
  assert (Hc0 : connections (connectionSystem w0) = connections (connectionSystem w))
    by reflexivity.
  clearbody w0.
  unfold NodeSystem.exportToJSON, ConnectionSystem.exportToJSON. mrun.
  rewrite Hroot0. mrun. rewrite Ht0. mrun. rewrite Hroot0. mrun.
  unfold deref. rewrite Hl0. cbn. by rewrite Hname, Hc0.
Qed.

(** X22.  Loading what was saved gives the application back: applied to
    the data object that [save] (or [exportToFile]) builds, the two imports
    of [loadFromStorage] make a new root with the same tree below it, put
    the view there with nothing selected and rebuild the same connection
    store, and notify nothing.  The drawing runs in that state; when it
    returns, success is reported next and the call returns, and when it
    throws, the call throws and reports nothing.  This holds for a tree
    whose nodes have [type], [x] and [y] defined and [connections] and
    [metadata] truthy, and a store keyed by source id without empty buckets
    whose connections have fields that [||] keeps. *)
Theorem save_then_load (w : World) (stamp : string) (fuel : nat) (r : loc) (t : Node.tree) :
  stamp = "savedAt" \/ stamp = "exportedAt" ->
  rootNode (nodeSystem w) = Some r ->
  NodeSystem.tree_at fuel (heap w) r = Some t ->
  plain_tree t ->
  store_ok (connections (connectionSystem w)) ->
  no_empty_bucket (connections (connectionSystem w)) ->
  Forall plain_connection
    (ConnectionSystem.all_connections (connections (connectionSystem w))) ->
  exists data w0 w1 r1 ext,
    StorageSystem.data_object E stamp fuel w = Ok data w0 /\
    heap w1 = heap w ++ ext /\
    NodeSystem.tree_at (tree_size t) (heap w1) r1 = Some t /\
    rootNode (nodeSystem w1) = Some r1 /\
    currentNode (nodeSystem w1) = Some r1 /\
    navigationStack (nodeSystem w1) = [r1] /\
    selectedNode (nodeSystem w1) = None /\
    connections (connectionSystem w1) = connections (connectionSystem w) /\
    notifications w1 = notifications w /\
    (forall w2, draw w1 = Ok tt w2 ->
       HierarchicalAppGenerator.loadFromStorage E draw data w0
       = Ok tt (notified "Loaded successfully" "success" w2)) /\
    (forall w2, draw w1 = Throw w2 ->
       HierarchicalAppGenerator.loadFromStorage E draw data w0 = Throw w2).
Proof.
  intros Hstamp Hroot Ht Hplain Hok Hne Hpc.
  rewrite (data_object_ok w stamp fuel r t Hroot Ht).
  set (w0 := set_ticks (S (ticks w)) w).
  destruct (importFromJSON_tree E t w0 Hplain)
    as (r1 & w1 & ext & Hrun1 & Hh1 & Ht1 & Hn1 & Hs1 & Hno1).
  destruct (importFromJSON_exported E (connections (connectionSystem w)) w1 Hok Hne Hpc)
    as (w2 & Hrun2 & Hm2 & Hh2 & Hn2 & Hno2).
  change (heap w0) with (heap w) in Hh1. change (notifications w0) with (notifications w) in Hno1.
  clearbody w0.
  eexists _, w0, w2, r1, ext. split; [reflexivity|].
  assert (Hget1 : forall rest,
            assoc "rootNode" (("version", VStr "1.0") :: (stamp, VNum (now E (ticks w)))
                              :: ("rootNode", Node.toJSON t) :: rest)
            = Some (Node.toJSON t)).
  { intros rest. destruct Hstamp as [-> | ->]; reflexivity. }
  assert (Hget2 : forall v rest,
            assoc "connections" (("version", VStr "1.0") :: (stamp, VNum (now E (ticks w)))
                                 :: ("rootNode", Node.toJSON t) :: ("connections", v) :: rest)
            = Some v).
  { intros v rest. destruct Hstamp as [-> | ->]; reflexivity. }
  rewrite Hh2, Hn2, Hno2, Hn1, Hno1, Hm2. split_and!; try done.
  - intros w3 Hdraw.
    unfold HierarchicalAppGenerator.loadFromStorage, read. cbn [truthy get].
    rewrite Hget1, Hget2. mrun. rewrite Hrun1. mrun. rewrite Hrun2. mrun.
    by rewrite Hdraw.
  - intros w3 Hdraw.
    unfold HierarchicalAppGenerator.loadFromStorage, read. cbn [truthy get].
    rewrite Hget1, Hget2. mrun. rewrite Hrun1. mrun. rewrite Hrun2. mrun.
    by rewrite Hdraw.
Qed.

(** X23.  The data object that [exportToFile] builds passes
    [validateImportData] exactly when the id and the name of the root are
    truthy: the export of an application whose root has the empty name is
    a file that the import turns down. *)
Theorem data_object_validates (w : World) (stamp : string) (fuel : nat) (r : loc)
    (t : Node.tree) :
  stamp = "savedAt" \/ stamp = "exportedAt" ->
  rootNode (nodeSystem w) = Some r ->
  NodeSystem.tree_at fuel (heap w) r = Some t ->
  exists data w0 v,
    StorageSystem.data_object E stamp fuel w = Ok data w0 /\
    StorageSystem.validateImportData data = Some v /\
    (truthy v = true <->
     truthy (Node.id (Node.node_of t)) = true /\ truthy (Node.name (Node.node_of t)) = true).
Proof.
  intros Hstamp Hroot Ht.
  rewrite (data_object_ok w stamp fuel r t Hroot Ht).
  match goal with |- context [Ok ?d ?w0] =>
    destruct (validateImportData_spec d) as (v & Hv & Hiff); exists d, w0, v end.
  split; [reflexivity|]. split; [exact Hv|]. rewrite Hiff.
  match goal with |- context [minimum_contract ?d] => set (data := d) end.
  assert (Hg1 : get data "version" = Some (VStr "1.0")) by reflexivity.
  assert (Hg2 : get data "rootNode" = Some (Node.toJSON t))
    by (destruct Hstamp as [-> | ->]; reflexivity).
  assert (Hg3 : get (Node.toJSON t) "id" = Some (Node.id (Node.node_of t)))
    by (by destruct t).
  assert (Hg4 : get (Node.toJSON t) "name" = Some (Node.name (Node.node_of t)))
    by (by destruct t).
  assert (Ht1 : truthy (Node.toJSON t) = true) by (by destruct t).
  unfold minimum_contract. split.
  - intros (_ & version & rootNode & id & name & _ & _ & Hr & _ & Hid & Hti & Hname & Htn).
    rewrite Hg2 in Hr. injection Hr as <-.
    rewrite Hg3 in Hid. rewrite Hg4 in Hname. by simplify_eq.
  - intros [Hid Hname]. split; [done|].
    exists (VStr "1.0"), (Node.toJSON t), (Node.id (Node.node_of t)),
      (Node.name (Node.node_of t)).
    by split_and!.
Qed.

(** X24.  [loadFromStorage] does not validate what it loads.  When the
    stored data has no tree (its [rootNode] is missing, null or otherwise
    falsy) and its [connections] are an array of readable elements, the
    tree and the view stay as they are, yet the connections are replaced
    by those that the array lists, and nothing is notified.  The drawing
    runs in that state; when it returns, success is reported next, and when
    it throws, the call throws and reports nothing. *)
Theorem loadFromStorage_without_tree (w : World) (data root_json : value)
    (items : list value) :
  truthy data = true ->
  get data "rootNode" = Some root_json -> truthy root_json = false ->
  get data "connections" = Some (VArr items) -> Forall readable items ->
  exists w1,
    heap w1 = heap w /\ nodeSystem w1 = nodeSystem w /\
    notifications w1 = notifications w /\
    connections (connectionSystem w1) = add_all (listed_connections E (ticks w) items) [] /\
    (forall w2, draw w1 = Ok tt w2 ->
       HierarchicalAppGenerator.loadFromStorage E draw data w
       = Ok tt (notified "Loaded successfully" "success" w2)) /\
    (forall w2, draw w1 = Throw w2 ->
       HierarchicalAppGenerator.loadFromStorage E draw data w = Throw w2).
Proof.
  intros Hdata Hroot Hfalsy Hconns Hitems.
  unfold HierarchicalAppGenerator.loadFromStorage, read.
  rewrite Hdata, Hroot, Hconns. mrun.
  unfold NodeSystem.importFromJSON. rewrite Hfalsy. mrun.
  unfold ConnectionSystem.importFromJSON. mrun.
  match goal with |- context [forEach ?f items ?w0] =>
    destruct (import_loop_listed E items w0 Hitems)
      as (w1 & Hrun & Hm & Hh & Hn & Hno) end.
  rewrite Hrun. mrun. exists w1.
  cbn in Hm, Hh, Hn, Hno. split_and!; try done.
  - intros w2 Hdraw. by rewrite Hdraw.
  - intros w2 Hdraw. by rewrite Hdraw.
Qed.

End Storage_facts.

Lemma plain_saved_tree : plain_tree saved_tree.
Proof.
  constructor; try discriminate; try reflexivity.
  repeat constructor; discriminate.
Qed.

Lemma save_then_load_witness :
  exists data w0 w1 r1,
    StorageSystem.data_object demo_env "savedAt" 2 saved_world = Ok data w0 /\
    NodeSystem.tree_at 2 (heap w1) r1 = Some saved_tree /\
    rootNode (nodeSystem w1) = Some r1 /\
    connections (connectionSystem w1) = connections (connectionSystem saved_world) /\
    HierarchicalAppGenerator.loadFromStorage demo_env draw_current data w0
    = Ok tt (notified "Loaded successfully" "success" w1).
Proof.
  assert (Hok : store_ok (connections (connectionSystem saved_world)))
    by (split; [apply NoDup_singleton | repeat constructor]).
  assert (Hne : no_empty_bucket (connections (connectionSystem saved_world)))
    by (repeat constructor; discriminate).
  assert (Hpc : Forall plain_connection
                  (ConnectionSystem.all_connections (connections (connectionSystem saved_world)))).
  { repeat constructor; by right. }
  destruct (save_then_load demo_env draw_current saved_world "savedAt" 2 1 saved_tree
              (or_introl eq_refl) eq_refl eq_refl plain_saved_tree Hok Hne Hpc)
    as (data & w0 & w1 & r1 & ext & Hsave & _ & Ht & Hr & Hc & _ & _ & Hm & _ & Hdrawn & _).
  exists data, w0, w1, r1.
  split_and!; [exact Hsave | exact Ht | exact Hr | exact Hm | ].
  apply Hdrawn. unfold draw_current. by rewrite Hc.
Defined.

Lemma data_object_validates_witness :
  exists data w0 v,
    StorageSystem.data_object demo_env "exportedAt" 1 unnamed_world = Ok data w0 /\
    StorageSystem.validateImportData data = Some v /\
    truthy v = false.
Proof.
  destruct (data_object_validates demo_env unnamed_world "exportedAt" 1 0 _
              (or_intror eq_refl) eq_refl eq_refl)
    as (data & w0 & v & Hsave & Hv & Hiff).
  exists data, w0, v. split_and!; [exact Hsave | exact Hv | ].
  destruct (truthy v); [ | done]. by destruct (proj1 Hiff eq_refl) as [_ Hname].
Defined.

Lemma loadFromStorage_without_tree_witness :
  (exists w1,
     HierarchicalAppGenerator.loadFromStorage demo_env draw_current stored_without_tree
       connected_world
     = Ok tt (notified "Loaded successfully" "success" w1) /\
     heap w1 = heap connected_world /\ nodeSystem w1 = nodeSystem connected_world /\
     connections (connectionSystem w1)
     = add_all (listed_connections demo_env (ticks connected_world) records_to_import) []) /\
  (exists w1,
     HierarchicalAppGenerator.loadFromStorage demo_env draw_current stored_without_tree
       empty_world
     = Throw w1 /\
     notifications w1 = [] /\
     connections (connectionSystem w1)
     = add_all (listed_connections demo_env (ticks empty_world) records_to_import) []).
Proof.
  assert (Hitems : Forall readable records_to_import)
    by (repeat constructor; discriminate).
  split.
  - destruct (loadFromStorage_without_tree demo_env draw_current connected_world
                stored_without_tree VUndef records_to_import
                eq_refl eq_refl eq_refl eq_refl Hitems)
      as (w1 & Hh & Hn & _ & Hm & Hdrawn & _).
    exists w1. split_and!; [ | exact Hh | exact Hn | exact Hm].
    apply Hdrawn. unfold draw_current. by rewrite Hn.
  - destruct (loadFromStorage_without_tree demo_env draw_current empty_world
                stored_without_tree VUndef records_to_import
                eq_refl eq_refl eq_refl eq_refl Hitems)
      as (w1 & _ & Hn & Hno & Hm & _ & Hthrown).
    exists w1. split_and!; [ | exact Hno | exact Hm].
    apply Hthrown. unfold draw_current. by rewrite Hn.
Defined.

(** ** Finding and deleting the selected node *)

Section Selected_facts.
Context (E : Env).

Lemma find_child_ids (w : World) nodeId cs ids :
  ids_of (heap w) cs ids ->
  Node.find_child nodeId cs w
  = Ok (match index_of nodeId ids with Some i => cs !! i | None => None end) w.
Proof.
  induction 1 as [ | c v cs ids (n & Hc & <-) _ IH]; simpl; [done|].
  rewrite bind_step. unfold deref at 1. rewrite Hc.
  destruct (strict_eq (Node.id n) nodeId); [done|].
  rewrite IH. by destruct (index_of nodeId ids).
Qed.

(** X25.  [findChildById] and [removeChild] agree on the child they mean:
    the child that [findChildById(id)] returns, the first one with the
    id, is the one that [deleteNode(id)] takes out of the list, and
    [findChildById] returns undefined exactly when [deleteNode] returns
    false.  [findChildById] changes nothing. *)
Theorem findChildById_is_deleted_child (w : World) (cur : loc) (self : Node.t loc)
    (siblings : list value) (nodeId : value) :
  currentNode (nodeSystem w) = Some cur ->
  heap w !! cur = Some self ->
  ids_of (heap w) (Node.children self) siblings ->
  assignable (Node.metadata self) ->
  exists found deleted w1,
    Node.findChildById cur nodeId w = Ok found w /\
    NodeSystem.deleteNode E nodeId w = Ok deleted w1 /\
    match found with
    | Some c =>
        deleted = true /\
        exists i self1,
          Node.children self !! i = Some c /\
          heap w1 !! cur = Some self1 /\
          Node.children self1 = delete i (Node.children self)
    | None => deleted = false /\ w1 = w
    end.
Proof.
  intros Hcur Hself Hids Hmd.
  unfold Node.findChildById. rewrite bind_step. unfold deref at 1. rewrite Hself.
  rewrite (find_child_ids w nodeId _ siblings Hids).
  unfold NodeSystem.deleteNode, NodeSystem.get_state, read_world.
  rewrite bind_step. cbv beta iota. rewrite Hcur.
  destruct (index_of nodeId siblings) as [i|] eqn:Hi.
  - destruct (set_prop_assignable _ "modifiedAt" (VNum (now E (ticks w))) Hmd) as [md Hset].
    rewrite (removeChild_found E w cur self siblings nodeId i md) by done.
    apply index_of_Some in Hi as [Hi _].
    destruct (Node.children self !! i) as [c|] eqn:Hc.
    + eexists _, _, _. split; [reflexivity|]. split; [reflexivity|]. split; [done|].
      eexists i, _. split; [done|]. cbn.
      rewrite list_lookup_insert_eq by (by eapply lookup_lt_Some). done.
    + apply lookup_ge_None in Hc. apply lookup_lt_Some in Hi.
      rewrite (Forall2_length _ _ _ Hids) in Hc. lia.
  - apply index_of_None in Hi.
    rewrite (removeChild_absent E w cur self siblings nodeId) by done.
    eexists _, _, _. split; [reflexivity|]. split; [reflexivity|]. done.
Qed.

(** X26.  [deleteCurrentNode] deletes the first child of the current
    node that has the id of the selected node, clears the selection and
    reports it; when no child has that id (the selected node is no child
    of the current node) it does nothing at all.  The connections are
    not touched either way. *)
Theorem deleteCurrentNode_effect (w : World) (cur sel : loc) (self node : Node.t loc)
    (siblings : list value) :
  currentNode (nodeSystem w) = Some cur ->
  selectedNode (nodeSystem w) = Some sel ->
  heap w !! cur = Some self -> heap w !! sel = Some node ->
  ids_of (heap w) (Node.children self) siblings ->
  assignable (Node.metadata self) ->
  exists w1,
    HierarchicalAppGenerator.deleteCurrentNode E w = Ok tt w1 /\
    connectionSystem w1 = connectionSystem w /\
    match index_of (Node.id node) siblings with
    | Some i =>
        selectedNode (nodeSystem w1) = None /\
        currentNode (nodeSystem w1) = Some cur /\
        navigationStack (nodeSystem w1) = navigationStack (nodeSystem w) /\
        notifications w1 = notifications w ++ [("Node deleted", "success")] /\
        exists self1, heap w1 !! cur = Some self1 /\
                      Node.children self1 = delete i (Node.children self)
    | None => w1 = w
    end.
Proof.
  intros Hcur Hsel Hself Hnode Hids Hmd.
  unfold HierarchicalAppGenerator.deleteCurrentNode, NodeSystem.get_state, read_world.
  rewrite bind_step. cbv beta iota. rewrite Hsel.
  rewrite bind_step. unfold deref at 1. rewrite Hnode.
  unfold NodeSystem.deleteNode, NodeSystem.get_state, read_world.
  rewrite !bind_step. cbv beta iota. rewrite Hcur.
  destruct (index_of (Node.id node) siblings) as [i|] eqn:Hi.
  - destruct (set_prop_assignable _ "modifiedAt" (VNum (now E (ticks w))) Hmd) as [md Hset].
    rewrite (removeChild_found E w cur self siblings (Node.id node) i md) by done.
    mrun. eexists. split; [reflexivity|]. cbn. split_and!; try done.
    eexists. split;
      [by rewrite list_lookup_insert_eq by (by eapply lookup_lt_Some) | reflexivity].
  - apply index_of_None in Hi.
    rewrite (removeChild_absent E w cur self siblings (Node.id node)) by done.
    by exists w.
Qed.

End Selected_facts.

Lemma findChildById_is_deleted_child_witness :
  exists w1,
    Node.findChildById 0 (VStr "node_2") demo_world = Ok (Some 2%nat) demo_world /\
    NodeSystem.deleteNode demo_env (VStr "node_2") demo_world = Ok true w1.
Proof.
  destruct (findChildById_is_deleted_child demo_env demo_world 0 _ _ (VStr "node_2")
              eq_refl eq_refl ids_of_demo_world I)
    as (found & deleted & w1 & Hfind & Hdel & Hsame).
  assert (Hfound : found = Some 2%nat) by (vm_compute in Hfind; by injection Hfind as <-).
  subst found. destruct Hsame as [-> _].
  exists w1. split; [exact Hfind | exact Hdel].
Defined.

Lemma deleteCurrentNode_effect_witness :
  exists w1,
    HierarchicalAppGenerator.deleteCurrentNode demo_env selected_world = Ok tt w1 /\
    connectionSystem w1 = connectionSystem selected_world /\
    selectedNode (nodeSystem w1) = None /\
    notifications w1 = [("Node deleted", "success")].
Proof.
  destruct (deleteCurrentNode_effect demo_env selected_world 0 1 _ _ _
              eq_refl eq_refl eq_refl eq_refl ids_of_demo I)
    as (w1 & Hrun & Hcs & Hcase).
  exists w1. cbn in Hcase. destruct Hcase as (Hsel & _ & _ & Hno & _).
  split_and!; [exact Hrun | exact Hcs | exact Hsel | exact Hno].
Defined.

(** ** The breadcrumb starts at the root *)

Lemma nav_call_root c w :
  rootNode (nodeSystem (world_after (nav_call c) w)) = rootNode (nodeSystem w).
Proof.
  unfold world_after. destruct c as [[n|] | | index]; cbn [nav_call].
  - rewrite navigateToNode_eq. destruct (heap w !! n) as [self|]; [|done].
    by case_bool_decide.
  - done.
  - rewrite navigateBack_eq. by case_bool_decide.
  - unfold NodeSystem.navigateToStackIndex. mrun. by case_bool_decide.
Qed.

Lemma nav_call_from_root c w : stack_from_root w -> stack_from_root (world_after (nav_call c) w).
Proof.
  intros (root & Hroot & Hhead). exists root. rewrite nav_call_root. split; [done|].
  destruct (nav_call_cases c w) as [_ [-> | [(n & _ & -> & _) | (k & Hk & -> & _)]]].
  - done.
  - by destruct (navigationStack (nodeSystem w)).
  - destruct (navigationStack (nodeSystem w)); [done|]. destruct k; [lia | done].
Qed.

(** X27.  The bottom of the navigation stack is the root and stays the
    root: after [initialize], or a successful [importFromJSON], and any
    sequence of navigation calls, the breadcrumb still starts at
    [rootNode], and [rootNode] is what it was. *)
Theorem breadcrumb_starts_at_root (cmds : list nav_command) (w : World) :
  stack_from_root w ->
  stack_from_root (nav_run cmds w) /\
  rootNode (nodeSystem (nav_run cmds w)) = rootNode (nodeSystem w).
Proof.
  revert w. induction cmds as [ | c cmds IH]; intros w Hw; simpl; [done|].
  destruct (IH (world_after (nav_call c) w)) as [H1 H2]; [by apply nav_call_from_root|].
  split; [done|]. by rewrite H2, nav_call_root.
Qed.

Lemma initialize_from_root (E : Env) (domainName : value) (w : World) :
  stack_from_root (world_after (NodeSystem.initialize E domainName) w).
Proof. unfold world_after, stack_from_root. cbn. by eexists. Qed.

Lemma breadcrumb_starts_at_root_witness :
  stack_from_root deep_world /\
  stack_from_root (nav_run there_and_back deep_world) /\
  navigationStack (nodeSystem (nav_run there_and_back deep_world)) = [0%nat; 1%nat].
Proof.
  assert (H : stack_from_root deep_world) by (by exists 0%nat).
  split; [exact H|]. split; [ | reflexivity].
  apply (breadcrumb_starts_at_root there_and_back deep_world H).
Defined.

(** ** The types of generated nodes *)

Section ClaudeIntegration_facts.
Import ClaudeIntegration.

Lemma existsb_strict_eq_l (l : list value) v :
  existsb (strict_eq v) l = true <-> v ∈ l.
Proof.
  assert (H : existsb (strict_eq v) l = existsb (fun u => strict_eq u v) l).
  { induction l as [ | u l IH]; simpl; [done|]. by rewrite IH, strict_eq_sym. }
  rewrite H. apply existsb_strict_eq.
Qed.

Lemma default_type_valid (parentType : string) :
  js_or (default VUndef (assoc parentType defaults)) (VStr "process") ∈ validTypes.
Proof.
  unfold defaults, validTypes. cbn [assoc].
  repeat case_bool_decide; cbn; repeat constructor.
Qed.

Lemma not_inherited (parentType : string) :
  parentType ∉ inherited <-> existsb (String.eqb parentType) inherited = false.
Proof.
  rewrite <- not_true_iff_false, existsb_exists, list_elem_of_In. split.
  - intros Hnin (p & Hin & Heq%String.eqb_eq). by subst p.
  - intros Hnex Hin. apply Hnex. exists parentType. by rewrite String.eqb_refl.
Qed.

(** [validateNodeType] on a type that is not valid, under a parent type
    that the table lists. *)
Lemma validateNodeType_default (type : value) (parentType : string) (d : value) :
  existsb (strict_eq type) validTypes = false ->
  (parentType, d) ∈ [("domain", VStr "process"); ("process", VStr "logic");
                     ("logic", VStr "code"); ("code", VStr "code")] ->
  validateNodeType type parentType = Some d.
Proof.
  intros Hty Hin. unfold validateNodeType. rewrite Hty.
  repeat (apply elem_of_cons in Hin as [[= -> ->] | Hin]; [reflexivity|]).
  by apply elem_of_nil in Hin.
Qed.

(** X28.  [validateNodeType] returns a valid type as it is.  For any other
    value of [type] it returns the default under the parent type:
    'process' under 'domain', 'logic' under 'process', 'code' under 'logic'
    and under 'code', and 'process' under any other string that is no name
    of a member that the table inherits; under such a name ('toString',
    'constructor', ...) the result is the inherited member, which is no
    type.  Under a parent type that is no inherited name the result is
    always one of 'domain', 'process', 'logic' and 'code', validating it
    again gives it back, and every element that [parseResponse] normalizes
    becomes the object with its name or 'Unnamed Node', its validated type
    and its description or the empty string. *)
Theorem validateNodeType_valid (type : value) (parentType : string) :
  (type ∈ validTypes -> validateNodeType type parentType = Some type) /\
  (type ∉ validTypes ->
     (parentType = "domain" -> validateNodeType type parentType = Some (VStr "process")) /\
     (parentType = "process" -> validateNodeType type parentType = Some (VStr "logic")) /\
     (parentType = "logic" -> validateNodeType type parentType = Some (VStr "code")) /\
     (parentType = "code" -> validateNodeType type parentType = Some (VStr "code")) /\
     (parentType ∉ ["domain"; "process"; "logic"; "code";
                    "constructor"; "hasOwnProperty"; "isPrototypeOf";
                    "propertyIsEnumerable"; "toLocaleString"; "toString"; "valueOf";
                    "__proto__"; "__defineGetter__"; "__defineSetter__";
                    "__lookupGetter__"; "__lookupSetter__"] ->
      validateNodeType type parentType = Some (VStr "process")) /\
     (parentType ∈ ["constructor"; "hasOwnProperty"; "isPrototypeOf";
                    "propertyIsEnumerable"; "toLocaleString"; "toString"; "valueOf";
                    "__proto__"; "__defineGetter__"; "__defineSetter__";
                    "__lookupGetter__"; "__lookupSetter__"] ->
      validateNodeType type parentType = None)) /\
  (existsb (String.eqb parentType) inherited = false ->
     (exists r,
        validateNodeType type parentType = Some r /\
        r ∈ validTypes /\
        validateNodeType r parentType = Some r) /\
     (forall node, readable node ->
        exists type',
          validateNodeType (field_of node "type") parentType = Some type' /\
          type' ∈ validTypes /\
          normalize parentType node
          = Some (VObj [("name", if truthy (field_of node "name") then field_of node "name"
                                 else VStr "Unnamed Node");
                        ("type", type');
                        ("description",
                         if truthy (field_of node "description")
                         then field_of node "description" else VStr EmptyString)]))).
Proof.
  split_and!.
  - intros Hin%existsb_strict_eq_l. unfold validateNodeType. by rewrite Hin.
  - intros Hnin.
    assert (Hty : existsb (strict_eq type) validTypes = false).
    { destruct (existsb (strict_eq type) validTypes) eqn:Hty; [|done].
      by apply existsb_strict_eq_l in Hty. }
    split_and!.
    + intros ->. apply validateNodeType_default; [done|]. repeat constructor.
    + intros ->. apply validateNodeType_default; [done|]. repeat constructor.
    + intros ->. apply validateNodeType_default; [done|]. repeat constructor.
    + intros ->. apply validateNodeType_default; [done|]. repeat constructor.
    + intros Hp.
      change (parentType ∉ ["domain"; "process"; "logic"; "code"] ++ inherited) in Hp.
      apply not_elem_of_app in Hp as [Hlisted Hp].
      rewrite !not_elem_of_cons in Hlisted. destruct Hlisted as (H1 & H2 & H3 & H4 & _).
      apply not_inherited in Hp.
      unfold validateNodeType, defaults. rewrite Hty, Hp.
      cbn [assoc]. by rewrite !bool_decide_eq_false_2 by done.
    + intros Hp. change (parentType ∈ inherited) in Hp.
      unfold validateNodeType. rewrite Hty.
      destruct (existsb (String.eqb parentType) inherited) eqn:Hex; [done|].
      by apply not_inherited in Hex.
  - intros Hp.
    assert (Hvalid : forall ty, exists r,
              validateNodeType ty parentType = Some r /\ r ∈ validTypes /\
              validateNodeType r parentType = Some r).
    { intros ty. unfold validateNodeType. rewrite Hp.
      destruct (existsb (strict_eq ty) validTypes) eqn:Hty.
      - exists ty. rewrite Hty. apply existsb_strict_eq_l in Hty. by split_and!.
      - pose proof (default_type_valid parentType) as Hd.
        eexists. split; [reflexivity|]. split; [exact Hd|].
        apply existsb_strict_eq_l in Hd. by rewrite Hd. }
    split; [apply Hvalid|].
    intros node [Hn Hu]. unfold normalize, field_of.
    destruct (get node "name") as [name|] eqn:Hname; [ | by destruct node].
    destruct (get node "type") as [ty|] eqn:Hty; [ | by destruct node].
    destruct (get node "description") as [d|] eqn:Hdesc; [ | by destruct node].
    destruct (Hvalid ty) as (r & Hr & Hin & _). cbn. rewrite Hr. cbn.
    exists r. by split_and!.
Qed.

End ClaudeIntegration_facts.

Lemma validateNodeType_valid_witness :
  ClaudeIntegration.validateNodeType (VStr "code") "domain" = Some (VStr "code") /\
  ClaudeIntegration.validateNodeType (VStr "module") "process" = Some (VStr "logic") /\
  ClaudeIntegration.validateNodeType (VStr "module") "screen" = Some (VStr "process") /\
  ClaudeIntegration.validateNodeType (VStr "module") "toString" = None /\
  ClaudeIntegration.normalize "process" (VObj [("type", VStr "module")])
  = Some (VObj [("name", VStr "Unnamed Node"); ("type", VStr "logic");
                ("description", VStr EmptyString)]).
Proof.
  assert (Hmodule : VStr "module" ∉ ClaudeIntegration.validTypes).
  { intros H%existsb_strict_eq_l. discriminate H. }
  split_and!.
  - destruct (validateNodeType_valid (VStr "code") "domain") as (Hkept & _).
    apply Hkept, existsb_strict_eq_l. reflexivity.
  - destruct (validateNodeType_valid (VStr "module") "process") as (_ & Hdefault & _).
    by apply (Hdefault Hmodule).
  - destruct (validateNodeType_valid (VStr "module") "screen") as (_ & Hdefault & _).
    apply (Hdefault Hmodule). apply (bool_decide_unpack _). vm_compute. exact I.
  - destruct (validateNodeType_valid (VStr "module") "toString") as (_ & Hdefault & _).
    apply (Hdefault Hmodule). apply (bool_decide_unpack _). vm_compute. exact I.
  - destruct (validateNodeType_valid (VStr "module") "process") as (_ & _ & Hrest).
    destruct (Hrest eq_refl) as [_ Hnormal].
    destruct (Hnormal (VObj [("type", VStr "module")])) as (type' & Htype & _ & Hrun).
    { split; discriminate. }
    rewrite Hrun. vm_compute in Htype. by injection Htype as <-.
Defined.

(** ** What the buckets say about the store *)

Section Bucket_facts.
Import ConnectionSystem.

Lemma filter_leaving_none k conns :
  Forall (fun c => Connection.sourceId c <> k) conns -> leaving k conns = [].
Proof.
  induction 1 as [ | c conns Hc _ IH]; simpl; [done|].
  apply strict_eq_false_iff in Hc as ->. exact IH.
Qed.

Lemma filter_leaving_all k conns :
  Forall (fun c => Connection.sourceId c = k) conns -> leaving k conns = conns.
Proof.
  induction 1 as [ | c conns Hc _ IH]; simpl; [done|].
  rewrite Hc, strict_eq_refl. f_equal. exact IH.
Qed.

Lemma leaving_app k conns conns' :
  leaving k (conns ++ conns') = leaving k conns ++ leaving k conns'.
Proof. apply List.filter_app. Qed.

Lemma bucket_is_leaving k m :
  store_ok m -> default [] (JsMap.get k m) = leaving k (all_connections m).
Proof.
  intros [Hnd Hm]. induction Hm as [ | [k0 b] m Hb Hm IH]; simpl; [done|].
  simpl in Hnd. apply NoDup_cons in Hnd as [Hk0 Hnd].
  change (all_connections ((k0, b) :: m)) with (b ++ all_connections m).
  rewrite leaving_app. simpl in Hb. destruct (strict_eq k0 k) eqn:Hk.
  - apply strict_eq_iff in Hk as ->.
    rewrite (filter_leaving_all k b Hb), <- (IH Hnd).
    apply JsMap_get_None in Hk0. by rewrite Hk0, app_nil_r.
  - apply strict_eq_false_iff in Hk.
    rewrite (filter_leaving_none k b); [by apply IH|].
    eapply Forall_impl; [exact Hb|]. simpl. congruence.
Qed.

(** X29.  Over a store keyed by source id, [getNodeConnections(id)]
    returns the stored connections that leave the id, in the order of the
    export, and none that arrive at it; [connectionExists(s, t)] answers
    whether a stored connection goes from [s] to [t].  Neither changes
    anything. *)
Theorem buckets_hold_outgoing (w : World) (nodeId targetId : value) :
  store_ok (connections (connectionSystem w)) ->
  getNodeConnections nodeId w
  = Ok (leaving nodeId (all_connections (connections (connectionSystem w)))) w /\
  exists b,
    connectionExists nodeId targetId w = Ok b w /\
    (b = true <->
     exists c, c ∈ all_connections (connections (connectionSystem w)) /\
               Connection.sourceId c = nodeId /\ Connection.targetId c = targetId).
Proof.
  intros Hok. split.
  - unfold getNodeConnections. mrun. by rewrite bucket_is_leaving.
  - rewrite connectionExists_eq. eexists. split; [reflexivity|].
    rewrite bucket_is_leaving by exact Hok. rewrite existsb_exists. split.
    + intros (c & [Hc Hs]%filter_In & Ht). exists c.
      apply strict_eq_iff in Hs, Ht. split_and!; try done. by apply list_elem_of_In.
    + intros (c & Hc & Hs & Ht). exists c. split.
      * apply filter_In. split; [by apply list_elem_of_In|]. by apply strict_eq_iff.
      * by apply strict_eq_iff.
Qed.

End Bucket_facts.

Lemma buckets_hold_outgoing_witness :
  ConnectionSystem.getNodeConnections (VStr "node_1") connected_world
  = Ok [demo_connection] connected_world /\
  ConnectionSystem.getNodeConnections (VStr "node_2") connected_world
  = Ok [] connected_world.
Proof.
  split.
  - exact (proj1 (buckets_hold_outgoing connected_world (VStr "node_1") (VStr "node_2")
                    store_ok_connected)).
  - exact (proj1 (buckets_hold_outgoing connected_world (VStr "node_2") (VStr "node_1")
                    store_ok_connected)).
Defined.

(** ** The tool is idle after every attempt *)

Section Idle_facts.
Import ConnectionSystem.
Context (E : Env).

Arguments id_of : simpl never.
Arguments connectionExists : simpl never.
Arguments push_to_bucket : simpl never.
Arguments push_connection : simpl never.

(** X30.  Whenever [finishConnection] returns, the tool is idle: it is
    not connecting, and has no start node and no preview end.  When it
    returns null, the store, the nodes and the id counter are what they
    were, and the only message it may have shown is 'Connection already
    exists'.  The navigation is never touched. *)
Theorem finishConnection_ends_idle (w w' : World) (targetNode : option loc)
    (r : option Connection.t) :
  finishConnection E targetNode w = Ok r w' ->
  isConnecting (connectionSystem w') = false /\
  connectionStart (connectionSystem w') = None /\
  tempConnectionEnd (connectionSystem w') = None /\
  nodeSystem w' = nodeSystem w /\
  (r = None ->
   connections (connectionSystem w') = connections (connectionSystem w) /\
   heap w' = heap w /\ ids w' = ids w /\
   (notifications w' = notifications w \/
    notifications w' = notifications w ++ [("Connection already exists", "error")])).
Proof.
  unfold finishConnection. mrun.
  destruct (isConnecting (connectionSystem w));
    [ | intros [= <- <-]; split_and!; try done; intros _; split_and!; try done; by left].
  destruct (connectionStart (connectionSystem w)) as [start|];
    [ | intros [= <- <-]; split_and!; try done; intros _; split_and!; try done; by left].
  destruct targetNode as [target|];
    [ | intros [= <- <-]; split_and!; try done; intros _; split_and!; try done; by left].
  mrun.
  destruct (heap w !! start) as [ns|] eqn:Hs.
  2:{ unfold id_of. mrun. unfold deref. by rewrite Hs. }
  rewrite !(id_of_ok _ _ ns) by exact Hs. mrun.
  destruct (heap w !! target) as [nt|] eqn:Ht.
  2:{ unfold id_of. mrun. unfold deref. by rewrite Ht. }
  rewrite !(id_of_ok _ _ nt) by exact Ht. mrun.
  destruct (strict_eq (Node.id ns) (Node.id nt)) eqn:Hne;
    [intros [= <- <-]; split_and!; try done; intros _; split_and!; try done; by left|].
  mrun. rewrite !(id_of_ok _ _ ns) by exact Hs. mrun.
  rewrite !(id_of_ok _ _ nt) by exact Ht. mrun.
  rewrite connectionExists_eq. mrun.
  match goal with |- context [existsb ?f ?l] => destruct (existsb f l) eqn:Hdup end.
  { mrun. intros [= <- <-]. split_and!; try done. intros _. split_and!; try done. by right. }
  mrun. rewrite !(id_of_ok _ _ ns) by exact Hs. mrun.
  rewrite !(id_of_ok _ _ nt) by exact Ht. mrun.
  rewrite !(id_of_ok _ _ ns) by exact Hs. mrun.
  rewrite push_to_bucket_eq. mrun.
  match goal with |- context [push_connection start ?v ?w0] =>
    destruct (push_connection start v w0) as [u wa|wa] eqn:Hps end; [|done].
  apply push_connection_inv in Hps as (n1 & items1 & _ & _ & ->). mrun.
  match goal with |- context [push_connection target ?v ?w0] =>
    destruct (push_connection target v w0) as [u' wb|wb] eqn:Hpt end; [|done].
  apply push_connection_inv in Hpt as (n2 & items2 & _ & _ & ->). mrun.
  intros [= <- <-]. by split_and!.
Qed.

End Idle_facts.

Lemma finishConnection_ends_idle_witness :
  exists w',
    ConnectionSystem.finishConnection demo_env (Some 2%nat) connected_world = Ok None w' /\
    isConnecting (connectionSystem w') = false /\
    heap w' = heap connected_world.
Proof.
  eexists. split; [reflexivity|].
  destruct (finishConnection_ends_idle demo_env connected_world _ (Some 2%nat) None eq_refl)
    as (Hidle & _ & _ & _ & Hnull).
  destruct (Hnull eq_refl) as (_ & Hheap & _).
  split; [exact Hidle | exact Hheap].
Defined.
